(** * Alto bundler core: mempool store, gas-price manager, sender manager

    A shallow embedding of three parts of the bundler:
    - the in-memory mempool store (class [MemoryStore]),
    - the gas-price manager ([createGasPriceManager] and the functions
      around it, with the Arbitrum manager),
    - the local sender manager ([src/executor/senderManager.ts]),
    followed by the properties proved about them.

    JavaScript [bigint] values are unbounded integers and are modelled by [Z];
    [bigint] division truncates towards zero and is modelled by [Z.quot].
    Strings compared with [===] are modelled by [string] with [String.eqb].
    Logging and metrics calls do not influence any value that is modelled
    here and are left out. *)

From Stdlib Require Import ZArith String Ascii List Bool Lia Arith.
From Stdlib Require Import DecimalString DecimalPos DecimalZ.
Import ListNotations.
Open Scope Z_scope.

(** ** Exceptions and results of fallible calls *)

Inductive Exn : Type :=
| RpcError (msg : string)      (* [new RpcError(msg)] *)
| JsError (msg : string)       (* [new Error(msg)], or an error raised by the RPC client *)
| TypeError                    (* property read on [undefined], [BigInt(undefined)] *)
| SyntaxError                  (* [BigInt] of a text that is no number *)
| RangeError.                  (* [bigint] division by zero *)

Inductive Result (A : Type) : Type :=
| Ok (a : A)
| Throw (e : Exn).
Arguments Ok {A} a.
Arguments Throw {A} e.

Definition bind {A B : Type} (r : Result A) (k : A -> Result B) : Result B :=
  match r with
  | Ok a => k a
  | Throw e => Throw e
  end.

Notation "x <- r ;; k" := (bind r (fun x => k))
  (at level 61, r at next level, right associativity).

(** ** Helpers of [@alto/utils] *)

Module Utils.

(** Modelled from the spec: [maxBigInt] and [minBigInt] of [@alto/utils] are
    not part of the sources at hand; they are the larger and the smaller of
    two [bigint]s. *)
Definition maxBigInt (a b : Z) : Z := Z.max a b.
Definition minBigInt (a b : Z) : Z := Z.min a b.

(** [bigint] to decimal text, as a template literal prints it. *)
Definition bigintToString (z : Z) : string :=
  DecimalString.NilZero.string_of_int (Z.to_int z).

(** [bigint] division [a / b]: truncation towards zero, [RangeError] when the
    divisor is zero. *)
Definition bigintDiv (a b : Z) : Result Z :=
  if b =? 0 then Throw RangeError else Ok (Z.quot a b).

End Utils.

(** ** Array helpers *)

Section ArrayHelpers.
Context {A : Type}.

(** [arr.findIndex(p)]; [None] stands for [-1]. *)
Fixpoint findIndex (p : A -> bool) (arr : list A) : option nat :=
  match arr with
  | [] => None
  | x :: rest =>
      if p x then Some 0%nat
      else match findIndex p rest with
           | Some i => Some (S i)
           | None => None
           end
  end.

(** [arr.splice(index, 1)]: the array without the element at [index]. *)
Fixpoint splice1 (index : nat) (arr : list A) : list A :=
  match arr, index with
  | [], _ => []
  | _ :: rest, O => rest
  | x :: rest, S i => x :: splice1 i rest
  end.

(** [arr.shift()]: the removed head (if any) and the remaining array. *)
Definition shift (arr : list A) : option A * list A :=
  match arr with
  | [] => (None, [])
  | x :: rest => (Some x, rest)
  end.

(** [arr.length > 0 ? arr[arr.length - 1] : null] *)
Definition lastOrNull (arr : list A) : option A :=
  nth_error arr (length arr - 1)%nat.

(** The array with its last element replaced (in-place update of the object
    stored in the last slot). *)
Definition setLast (arr : list A) (x : A) : list A :=
  removelast arr ++ [x].

(** How many elements of [arr] satisfy [p]. *)
Definition countIf (p : A -> bool) (arr : list A) : nat := length (filter p arr).

End ArrayHelpers.

(** [new Set([...items])] in insertion order, for keys compared by [eqb]:
    [add] appends an item that the set does not hold yet. *)
Section JsSet.
Context {K : Type} (eqb : K -> K -> bool).

Definition setAdd (s : list K) (x : K) : list K :=
  if existsb (eqb x) s then s else s ++ [x].

Definition newSet (items : list K) : list K := fold_left setAdd items [].

End JsSet.

(** [arr.map(f)] for a callback that may throw: the first exception ends the
    traversal. *)
Fixpoint mapResult {A B : Type} (f : A -> Result B) (arr : list A) : Result (list B) :=
  match arr with
  | [] => Ok []
  | x :: rest =>
      y <- f x ;;
      ys <- mapResult f rest ;;
      Ok (y :: ys)
  end.

(** ** The mempool store *)

Module Mempool.

Definition Address := string.
Definition HexData32 := string.

(** Of a user operation the store reads [sender] and [nonce] only. *)
Record UserOperation : Type := {
  sender : Address;
  nonce : Z
}.

Record UserOperationInfo : Type := {
  userOperation : UserOperation;
  entryPoint : Address;
  userOperationHash : HexData32;
  lastReplaced : Z;
  firstSubmitted : Z
}.

Record TransactionInfo : Type := {
  transactionHash : HexData32
}.

Record SubmittedUserOperation : Type := {
  submittedUserOperation : UserOperationInfo;   (* field [userOperation] *)
  transactionInfo : TransactionInfo
}.

Record MemoryStore : Type := {
  outstandingUserOperations : list UserOperationInfo;
  avaiableOutstandingUserOperations : list UserOperationInfo;
  processingUserOperations : list UserOperationInfo;
  submittedUserOperations : list SubmittedUserOperation
}.

Definition emptyStore : MemoryStore :=
  {| outstandingUserOperations := [];
     avaiableOutstandingUserOperations := [];
     processingUserOperations := [];
     submittedUserOperations := [] |}.

(** Modelled from the spec: [getNonceKeyAndValue] of [@alto/utils] is not part
    of the sources at hand; the nonce key is the upper 192 bits of the 256-bit
    nonce and the nonce value its lower 64 bits. *)
Definition getNonceKeyAndValue (op : UserOperation) : Z * Z :=
  (Z.shiftr (nonce op) 64, Z.land (nonce op) (Z.ones 64)).

Definition outstandingIsEmpty (st : MemoryStore) : bool :=
  (length (outstandingUserOperations st) =? 0)%nat.

Definition addOutstanding (st : MemoryStore) (op : UserOperationInfo) : MemoryStore :=
  {| outstandingUserOperations := outstandingUserOperations st ++ [op];
     avaiableOutstandingUserOperations := avaiableOutstandingUserOperations st;
     processingUserOperations := processingUserOperations st;
     submittedUserOperations := submittedUserOperations st |}.

Definition addProcessing (st : MemoryStore) (op : UserOperationInfo) : MemoryStore :=
  {| outstandingUserOperations := outstandingUserOperations st;
     avaiableOutstandingUserOperations := avaiableOutstandingUserOperations st;
     processingUserOperations := processingUserOperations st ++ [op];
     submittedUserOperations := submittedUserOperations st |}.

Definition addSubmitted (st : MemoryStore) (op : SubmittedUserOperation) : MemoryStore :=
  {| outstandingUserOperations := outstandingUserOperations st;
     avaiableOutstandingUserOperations := avaiableOutstandingUserOperations st;
     processingUserOperations := processingUserOperations st;
     submittedUserOperations := submittedUserOperations st ++ [op] |}.

Definition hasHash (userOpHash : HexData32) (op : UserOperationInfo) : bool :=
  String.eqb (userOperationHash op) userOpHash.

Definition removeOutstanding (st : MemoryStore) (userOpHash : HexData32) : MemoryStore :=
  match findIndex (hasHash userOpHash) (outstandingUserOperations st) with
  | None => st
  | Some index =>
      let outstanding := splice1 index (outstandingUserOperations st) in
      match findIndex (hasHash userOpHash) (avaiableOutstandingUserOperations st) with
      | None =>
          {| outstandingUserOperations := outstanding;
             avaiableOutstandingUserOperations := avaiableOutstandingUserOperations st;
             processingUserOperations := processingUserOperations st;
             submittedUserOperations := submittedUserOperations st |}
      | Some availableIndex =>
          {| outstandingUserOperations := outstanding;
             avaiableOutstandingUserOperations :=
               splice1 availableIndex (avaiableOutstandingUserOperations st);
             processingUserOperations := processingUserOperations st;
             submittedUserOperations := submittedUserOperations st |}
      end
  end.

Definition removeProcessing (st : MemoryStore) (userOpHash : HexData32) : MemoryStore :=
  match findIndex (hasHash userOpHash) (processingUserOperations st) with
  | None => st
  | Some index =>
      {| outstandingUserOperations := outstandingUserOperations st;
         avaiableOutstandingUserOperations := avaiableOutstandingUserOperations st;
         processingUserOperations := splice1 index (processingUserOperations st);
         submittedUserOperations := submittedUserOperations st |}
  end.

Definition removeSubmitted (st : MemoryStore) (userOpHash : HexData32) : MemoryStore :=
  match findIndex (fun op => hasHash userOpHash (submittedUserOperation op))
                  (submittedUserOperations st) with
  | None => st
  | Some index =>
      {| outstandingUserOperations := outstandingUserOperations st;
         avaiableOutstandingUserOperations := avaiableOutstandingUserOperations st;
         processingUserOperations := processingUserOperations st;
         submittedUserOperations := splice1 index (submittedUserOperations st) |}
  end.

Definition dumbAvailableOutstanding (st : MemoryStore) := avaiableOutstandingUserOperations st.
Definition dumpOutstanding (st : MemoryStore) := outstandingUserOperations st.
Definition dumpProcessing (st : MemoryStore) := processingUserOperations st.
Definition dumpSubmitted (st : MemoryStore) := submittedUserOperations st.

Inductive ClearTarget : Type := ClearOutstanding | ClearProcessing | ClearSubmitted.

Definition clear (st : MemoryStore) (from : ClearTarget) : MemoryStore :=
  match from with
  | ClearOutstanding =>
      {| outstandingUserOperations := [];
         avaiableOutstandingUserOperations := avaiableOutstandingUserOperations st;
         processingUserOperations := processingUserOperations st;
         submittedUserOperations := submittedUserOperations st |}
  | ClearProcessing =>
      {| outstandingUserOperations := outstandingUserOperations st;
         avaiableOutstandingUserOperations := avaiableOutstandingUserOperations st;
         processingUserOperations := [];
         submittedUserOperations := submittedUserOperations st |}
  | ClearSubmitted =>
      {| outstandingUserOperations := outstandingUserOperations st;
         avaiableOutstandingUserOperations := avaiableOutstandingUserOperations st;
         processingUserOperations := processingUserOperations st;
         submittedUserOperations := [] |}
  end.

(** *** Reconciliation against the EntryPoint nonces *)

(** A parsed [{ sender, nonceKey }] pair. *)
Definition SenderNonceKeyPair : Type := (Address * Z)%type.

(** The string [`${op.sender}_${nonceKey}`]. *)
Definition getSenderNonceKeyPair (op : UserOperation) : string :=
  let '(nonceKey, _) := getNonceKeyAndValue op in
  (sender op ++ "_" ++ Utils.bigintToString nonceKey)%string.

(** [text.split("_")]: the pieces between the underscores, at least one. *)
Fixpoint splitUnderscore (text : string) : list string :=
  match text with
  | EmptyString => [EmptyString]
  | String c rest =>
      if Ascii.eqb c "_" then EmptyString :: splitUnderscore rest
      else match splitUnderscore rest with
           | piece :: pieces => String c piece :: pieces
           | [] => [String c EmptyString]
           end
  end.

(** **** [BigInt] of a text

    [BigInt(text)] reads a [StringIntegerLiteral]: white space and line
    terminators around an optional numeral, which is a run of decimal digits
    with an optional sign, or [0x], [0o] or [0b] (in either case) with digits
    of that radix and no sign.  Texts are held in their UTF-8 encoding. *)

Definition code (c : ascii) : N := N_of_ascii c.

(** TAB, LF, VT, FF, CR and the space. *)
Definition oneByteBlank (c : ascii) : bool :=
  ((9 <=? code c) && (code c <=? 13))%N || (code c =? 32)%N.

(** U+00A0. *)
Definition twoByteBlank (c1 c2 : ascii) : bool :=
  ((code c1 =? 194) && (code c2 =? 160))%N.

(** U+1680, U+2000 to U+200A, U+2028, U+2029, U+202F, U+205F, U+3000 and
    U+FEFF. *)
Definition threeByteBlank (c1 c2 c3 : ascii) : bool :=
  ((code c1 =? 225) && (code c2 =? 154) && (code c3 =? 128))%N
  || ((code c1 =? 226) && (code c2 =? 128)
      && (((128 <=? code c3) && (code c3 <=? 138))
          || (code c3 =? 168) || (code c3 =? 169) || (code c3 =? 175)))%N
  || ((code c1 =? 226) && (code c2 =? 129) && (code c3 =? 159))%N
  || ((code c1 =? 227) && (code c2 =? 128) && (code c3 =? 128))%N
  || ((code c1 =? 239) && (code c2 =? 187) && (code c3 =? 191))%N.

(** The text without the blanks at its start; [two] and [three] recognise
    the blanks of two and three bytes. *)
Fixpoint skipBlanks (two : ascii -> ascii -> bool)
                    (three : ascii -> ascii -> ascii -> bool)
                    (text : string) : string :=
  match text with
  | EmptyString => text
  | String c1 rest1 =>
      if oneByteBlank c1 then skipBlanks two three rest1
      else
        match rest1 with
        | EmptyString => text
        | String c2 rest2 =>
            if two c1 c2 then skipBlanks two three rest2
            else
              match rest2 with
              | EmptyString => text
              | String c3 rest3 =>
                  if three c1 c2 c3 then skipBlanks two three rest3 else text
              end
        end
  end.

Definition reverse (text : string) : string :=
  string_of_list_ascii (rev (list_ascii_of_string text)).

(** The text without the blanks at its start and at its end (where the
    bytes of a blank are met last byte first). *)
Definition trimBlanks (text : string) : string :=
  reverse
    (skipBlanks (fun c2 c1 => twoByteBlank c1 c2)
                (fun c3 c2 c1 => threeByteBlank c1 c2 c3)
                (reverse (skipBlanks twoByteBlank threeByteBlank text))).

Definition isDecimalDigit (c : ascii) : bool := ((48 <=? code c) && (code c <=? 57))%N.

(** The value of a digit, up to [f] and [F]. *)
Definition digitValue (c : ascii) : option Z :=
  let n := code c in
  if isDecimalDigit c then Some (Z.of_N n - 48)
  else if ((97 <=? n) && (n <=? 102))%N then Some (Z.of_N n - 87)
  else if ((65 <=? n) && (n <=? 70))%N then Some (Z.of_N n - 55)
  else None.

Fixpoint digitsValue (radix : Z) (digits : string) (acc : Z) : option Z :=
  match digits with
  | EmptyString => Some acc
  | String c rest =>
      match digitValue c with
      | Some d => if d <? radix then digitsValue radix rest (acc * radix + d) else None
      | None => None
      end
  end.

(** At least one digit of the radix. *)
Definition nonDecimal (radix : Z) (digits : string) : option Z :=
  match digits with
  | EmptyString => None
  | String _ _ => digitsValue radix digits 0
  end.

(** A run of decimal digits with an optional sign. *)
Definition signedInteger (text : string) : option Z :=
  match text with
  | EmptyString => None
  | String c digits =>
      if Ascii.eqb c "+"
      then option_map Z.of_uint (DecimalString.NilZero.uint_of_string digits)
      else option_map Z.of_int (DecimalString.NilZero.int_of_string text)
  end.

Definition strIntegerLiteral (text : string) : option Z :=
  match text with
  | String c (String prefix digits) =>
      if Ascii.eqb c "0" then
        if Ascii.eqb prefix "x" || Ascii.eqb prefix "X" then nonDecimal 16 digits
        else if Ascii.eqb prefix "o" || Ascii.eqb prefix "O" then nonDecimal 8 digits
        else if Ascii.eqb prefix "b" || Ascii.eqb prefix "B" then nonDecimal 2 digits
        else signedInteger text
      else signedInteger text
  | _ => signedInteger text
  end.

(** [BigInt(raw)] where [raw] is a text or [undefined] ([None]):
    [BigInt(undefined)] is a [TypeError], a text of blanks only is read as
    [0n], and a text that is no [StringIntegerLiteral] is a [SyntaxError]. *)
Definition BigInt (raw : option string) : Result Z :=
  match raw with
  | None => Throw TypeError
  | Some text =>
      match trimBlanks text with
      | EmptyString => Ok 0
      | String c rest =>
          match strIntegerLiteral (String c rest) with
          | Some value => Ok value
          | None => Throw SyntaxError
          end
      end
  end.

Definition parseSenderNonceKeyPair (senderNonceKeyPair : string)
  : Result SenderNonceKeyPair :=
  let parts := splitUnderscore senderNonceKeyPair in
  let rawSender := hd EmptyString parts in
  let rawNonceKey := nth_error parts 1 in
  nonceKey <- BigInt rawNonceKey ;;
  Ok (rawSender, nonceKey).

Definition allSendersAndNonceKeysRaw (outstandingOps : list UserOperationInfo)
  : list string :=
  newSet String.eqb
    (map (fun op => getSenderNonceKeyPair (userOperation op)) outstandingOps).

Definition allSendersAndNonceKeys (outstandingOps : list UserOperationInfo)
  : Result (list SenderNonceKeyPair) :=
  mapResult parseSenderNonceKeyPair (allSendersAndNonceKeysRaw outstandingOps).

(** One [getNonce] call of the batch. *)
Record ContractCall : Type := {
  address : Address;
  functionName : string;
  args : Address * Z
}.

(** One entry of the multicall answer. *)
Inductive MulticallResult : Type :=
| Success (result : Z)
| Failure (error : string).

(** The RPC client as the store uses it: [multicall] either throws or
    answers with a list of per-call results. *)
Record PublicClient : Type := {
  multicall : list ContractCall -> Result (list MulticallResult)
}.

Definition nonceContracts (entryPoint : Address) (pairs : list SenderNonceKeyPair)
  : list ContractCall :=
  map (fun senderNonceKeyPair =>
         {| address := entryPoint;
            functionName := "getNonce";
            args := (fst senderNonceKeyPair, snd senderNonceKeyPair) |})
      pairs.

(** The test of the inner [outstandingOps.map] callback. *)
Definition matchesNonce (sender0 : Address) (nonceKey nonceValue : Z)
                        (op : UserOperationInfo) : bool :=
  let '(outstandingOpNonceKey, outstandingOpNonceValue) :=
    getNonceKeyAndValue (userOperation op) in
  String.eqb (sender (userOperation op)) sender0
  && (outstandingOpNonceKey =? nonceKey)
  && (outstandingOpNonceValue =? nonceValue).

(** The [for] loop from index [i] on; [pairs] is the part of
    [allSendersAndNonceKeys] from index [i].  Reading [result.status] of a
    missing [results[i]] is a [TypeError]. *)
Fixpoint promoteLoop (i : nat) (pairs : list SenderNonceKeyPair)
                     (results : list MulticallResult)
                     (outstandingOps : list UserOperationInfo)
                     (availableOutstandingOps : list UserOperationInfo)
  : Result (list UserOperationInfo) :=
  match pairs with
  | [] => Ok availableOutstandingOps
  | senderAndNonceKey :: rest =>
      let sender0 := fst senderAndNonceKey in
      let nonceKey := snd senderAndNonceKey in
      match nth_error results i with
      | None => Throw TypeError
      | Some (Success nonceValue) =>
          promoteLoop (S i) rest results outstandingOps
            (availableOutstandingOps
               ++ filter (matchesNonce sender0 nonceKey nonceValue) outstandingOps)
      | Some (Failure _) =>
          promoteLoop (S i) rest results outstandingOps availableOutstandingOps
      end
  end.

(** [updateAvailableUserOperations]: the store after the call and whether the
    call returned or threw. *)
Definition updateAvailableUserOperations (st : MemoryStore) (publicClient : PublicClient)
                                         (entryPoint0 : Address)
  : MemoryStore * Result unit :=
  let outstandingOps := dumpOutstanding st in
  match allSendersAndNonceKeys outstandingOps with
  | Throw e => (st, Throw e)
  | Ok pairs =>
      match multicall publicClient (nonceContracts entryPoint0 pairs) with
      | Throw e => (st, Throw e)
      | Ok results =>
          match promoteLoop 0 pairs results outstandingOps [] with
          | Throw e => (st, Throw e)
          | Ok availableOutstandingOps =>
              ({| outstandingUserOperations := outstandingUserOperations st;
                  avaiableOutstandingUserOperations := availableOutstandingOps;
                  processingUserOperations := processingUserOperations st;
                  submittedUserOperations := submittedUserOperations st |},
               Ok tt)
          end
      end
  end.

(** *** Call sequences

    Calls that run one after the other: each call has ended before the next
    is made, which for [updateAvailableUserOperations] means that its
    multicall has settled.  Calls made while a reconciliation waits are the
    subject of the events further down. *)

Inductive Call : Type :=
| AddOutstanding (op : UserOperationInfo)
| AddProcessing (op : UserOperationInfo)
| AddSubmitted (op : SubmittedUserOperation)
| RemoveOutstanding (userOpHash : HexData32)
| RemoveProcessing (userOpHash : HexData32)
| RemoveSubmitted (userOpHash : HexData32)
| UpdateAvailableUserOperations (publicClient : PublicClient) (entryPoint0 : Address).

Definition step (st : MemoryStore) (c : Call) : MemoryStore :=
  match c with
  | AddOutstanding op => addOutstanding st op
  | AddProcessing op => addProcessing st op
  | AddSubmitted op => addSubmitted st op
  | RemoveOutstanding h => removeOutstanding st h
  | RemoveProcessing h => removeProcessing st h
  | RemoveSubmitted h => removeSubmitted st h
  | UpdateAvailableUserOperations pc ep => fst (updateAvailableUserOperations st pc ep)
  end.

Definition run (calls : list Call) : MemoryStore := fold_left step calls emptyStore.

(** *** Notions used in the statements *)

Definition hashes (ops : list UserOperationInfo) : list HexData32 :=
  map userOperationHash ops.

Definition nonceValueOf (op : UserOperationInfo) : Z :=
  snd (getNonceKeyAndValue (userOperation op)).

(** The sender and the nonce key of [op]. *)
Definition pairOf (op : UserOperationInfo) : SenderNonceKeyPair :=
  (sender (userOperation op), fst (getNonceKeyAndValue (userOperation op))).

Definition pairEqb (p q : SenderNonceKeyPair) : bool :=
  String.eqb (fst p) (fst q) && (snd p =? snd q).

(** The distinct pairs of [ops], in the order of their first appearance. *)
Definition distinctPairs (ops : list UserOperationInfo) : list SenderNonceKeyPair :=
  newSet pairEqb (map pairOf ops).

(** An [Address] is a [0x]-prefixed hexadecimal text; what matters for the
    string keys above is that it holds no underscore. *)
Fixpoint hasUnderscore (text : string) : bool :=
  match text with
  | EmptyString => false
  | String c rest => Ascii.eqb c "_" || hasUnderscore rest
  end.

Definition wellFormedSender (op : UserOperationInfo) : Prop :=
  hasUnderscore (sender (userOperation op)) = false.

(** The operations a call brings into outstanding have well-formed
    senders. *)
Definition wellFormedCall (c : Call) : Prop :=
  match c with
  | AddOutstanding op => wellFormedSender op
  | _ => True
  end.

(** A client whose multicall answers every [getNonce] call by [getNonce]. *)
Definition oracleClient (getNonce : Address -> Z -> MulticallResult) : PublicClient :=
  {| multicall := fun contracts =>
       Ok (map (fun c => getNonce (fst (args c)) (snd (args c))) contracts) |}.

(** A client whose multicall fails as a whole. *)
Definition failingClient (e : Exn) : PublicClient :=
  {| multicall := fun _ => Throw e |}.

(** Sample operations: sender, nonce key, nonce value and hash. *)
Definition sampleOp (sender0 : Address) (key value : Z) (hash : HexData32)
  : UserOperationInfo :=
  {| userOperation := {| sender := sender0; nonce := Z.lor (Z.shiftl key 64) value |};
     entryPoint := "0xEP"%string;
     userOperationHash := hash;
     lastReplaced := 0;
     firstSubmitted := 0 |}.

Definition opB7 : UserOperationInfo := sampleOp "0xB"%string 0 7 "h1"%string.
Definition opA0 : UserOperationInfo := sampleOp "0xA"%string 0 0 "h2"%string.
Definition opB6 : UserOperationInfo := sampleOp "0xB"%string 0 6 "h3"%string.
Definition opC3 : UserOperationInfo := sampleOp "0xC"%string 1 3 "h4"%string.

(** Two operations of which the second has a sender that is no address. *)
Definition opPlain : UserOperationInfo := sampleOp "0xa"%string 0 0 "u1"%string.
Definition opUnderscore : UserOperationInfo := sampleOp "0xa_0"%string 5 0 "u2"%string.

Definition sampleStore : MemoryStore :=
  {| outstandingUserOperations := [opB7; opA0; opB6; opC3];
     avaiableOutstandingUserOperations := [opB7];
     processingUserOperations := [];
     submittedUserOperations := [] |}.

(** The EntryPoint holds nonce 6 for [0xB], nonce 0 for [0xA]; every other
    call fails. *)
Definition sampleOracle (sender0 : Address) (nonceKey : Z) : MulticallResult :=
  if String.eqb sender0 "0xB"%string then Success 6
  else if String.eqb sender0 "0xA"%string then Success 0
  else Failure "execution reverted".

(** What one pass of the loop body appends for a pair and its result. *)
Definition promotedBlock (ops : list UserOperationInfo)
                         (pr : SenderNonceKeyPair * MulticallResult)
  : list UserOperationInfo :=
  match snd pr with
  | Success nonceValue => filter (matchesNonce (fst (fst pr)) (snd (fst pr)) nonceValue) ops
  | Failure _ => []
  end.

(** The pair of [op] is [p]. *)
Definition hasPair (p : SenderNonceKeyPair) (op : UserOperationInfo) : bool :=
  pairEqb p (pairOf op).

(** Number of entries of [ops] with hash [h]. *)
Definition countHash (h : HexData32) (ops : list UserOperationInfo) : nat :=
  countIf (hasHash h) ops.

(** The invariant behind the inclusion of available-outstanding in
    outstanding: no hash has more entries in the former than in the latter. *)
Definition availableWithinOutstanding (st : MemoryStore) : Prop :=
  forall h,
    (countHash h (avaiableOutstandingUserOperations st)
     <= countHash h (outstandingUserOperations st))%nat.

(** The pair of [op] is one of [pairs]. *)
Definition pairAmong (pairs : list SenderNonceKeyPair) (op : UserOperationInfo) : bool :=
  existsb (pairEqb (pairOf op)) pairs.

Definition UserOperationInfo_eq_dec (x y : UserOperationInfo) : {x = y} + {x <> y}.
Proof.
  repeat decide equality; try apply Z.eq_dec; apply Ascii.ascii_dec.
Defined.

Definition sameOp (x y : UserOperationInfo) : bool :=
  if UserOperationInfo_eq_dec x y then true else false.

(** [x] occurs in [ops] and [y] occurs at a later position. *)
Fixpoint appearsBefore (x y : UserOperationInfo) (ops : list UserOperationInfo) : bool :=
  match ops with
  | [] => false
  | z :: rest => (sameOp z x && existsb (sameOp y) rest) || appearsBefore x y rest
  end.

(** *** The [userOperationsInMempool] gauge

    The store reports its size through one gauge value per [status] label:
    [.inc()] adds one, [.dec()] takes one off. *)
Record Gauges : Type := {
  outstandingGauge : Z;
  processingGauge : Z;
  submittedGauge : Z
}.

Definition zeroGauges : Gauges :=
  {| outstandingGauge := 0; processingGauge := 0; submittedGauge := 0 |}.

(** A call of the store, [clear] included. *)
Inductive AnyCall : Type :=
| Plain (c : Call)
| Clear (from : ClearTarget).

Definition stepAny (st : MemoryStore) (c : AnyCall) : MemoryStore :=
  match c with
  | Plain c0 => step st c0
  | Clear from => clear st from
  end.

(** The gauge after call [c] on store [st]: the [add] methods increment
    their label; [removeProcessing] and [removeSubmitted] decrement theirs
    when they found the hash; [removeOutstanding] decrements only at its end,
    which it reaches when the hash was found in both outstanding and
    available-outstanding; [clear] and the reconciliation do not touch the
    gauge. *)
Definition meter (st : MemoryStore) (g : Gauges) (c : AnyCall) : Gauges :=
  match c with
  | Plain (AddOutstanding _) =>
      {| outstandingGauge := outstandingGauge g + 1;
         processingGauge := processingGauge g;
         submittedGauge := submittedGauge g |}
  | Plain (AddProcessing _) =>
      {| outstandingGauge := outstandingGauge g;
         processingGauge := processingGauge g + 1;
         submittedGauge := submittedGauge g |}
  | Plain (AddSubmitted _) =>
      {| outstandingGauge := outstandingGauge g;
         processingGauge := processingGauge g;
         submittedGauge := submittedGauge g + 1 |}
  | Plain (RemoveOutstanding h) =>
      match findIndex (hasHash h) (outstandingUserOperations st),
            findIndex (hasHash h) (avaiableOutstandingUserOperations st) with
      | Some _, Some _ =>
          {| outstandingGauge := outstandingGauge g - 1;
             processingGauge := processingGauge g;
             submittedGauge := submittedGauge g |}
      | _, _ => g
      end
  | Plain (RemoveProcessing h) =>
      match findIndex (hasHash h) (processingUserOperations st) with
      | Some _ =>
          {| outstandingGauge := outstandingGauge g;
             processingGauge := processingGauge g - 1;
             submittedGauge := submittedGauge g |}
      | None => g
      end
  | Plain (RemoveSubmitted h) =>
      match findIndex (fun op => hasHash h (submittedUserOperation op))
                      (submittedUserOperations st) with
      | Some _ =>
          {| outstandingGauge := outstandingGauge g;
             processingGauge := processingGauge g;
             submittedGauge := submittedGauge g - 1 |}
      | None => g
      end
  | Plain (UpdateAvailableUserOperations _ _) => g
  | Clear _ => g
  end.

(** A store together with its gauge, and their run from the empty store. *)
Definition stepMetered (sg : MemoryStore * Gauges) (c : AnyCall) : MemoryStore * Gauges :=
  (stepAny (fst sg) c, meter (fst sg) (snd sg) c).

Definition runMetered (calls : list AnyCall) : MemoryStore * Gauges :=
  fold_left stepMetered calls (emptyStore, zeroGauges).

Definition isPlain (c : AnyCall) : Prop :=
  match c with
  | Plain _ => True
  | Clear _ => False
  end.

(** The store with outstanding and available-outstanding both empty. *)
Definition withoutOutstanding (st : MemoryStore) : MemoryStore :=
  {| outstandingUserOperations := [];
     avaiableOutstandingUserOperations := [];
     processingUserOperations := processingUserOperations st;
     submittedUserOperations := submittedUserOperations st |}.

Definition submittedHashes (ops : list SubmittedUserOperation) : list HexData32 :=
  map (fun op => userOperationHash (submittedUserOperation op)) ops.

(** *** Reconciliations that overlap other calls

    [updateAvailableUserOperations] is an [async] method with one [await]:
    it copies outstanding, computes the pairs and sends the multicall; it then
    waits, and when the multicall has settled it runs the loop over its copy
    and assigns the list.  The other methods are synchronous, and any of them
    can be called while a reconciliation waits. *)

(** A reconciliation at its [await]: its copy of outstanding, its pairs and
    what its multicall settles with. *)
Record PendingUpdate : Type := {
  pendingOps : list UserOperationInfo;
  pendingPairs : list SenderNonceKeyPair;
  pendingAnswer : Result (list MulticallResult)
}.

(** The part of [updateAvailableUserOperations] before the [await]. *)
Definition startUpdate (st : MemoryStore) (publicClient : PublicClient)
                       (entryPoint0 : Address) : Result PendingUpdate :=
  let outstandingOps := dumpOutstanding st in
  pairs <- allSendersAndNonceKeys outstandingOps ;;
  Ok {| pendingOps := outstandingOps;
        pendingPairs := pairs;
        pendingAnswer := multicall publicClient (nonceContracts entryPoint0 pairs) |}.

(** The part after the [await], on the store as it is by then. *)
Definition resumeUpdate (st : MemoryStore) (pending : PendingUpdate)
  : MemoryStore * Result unit :=
  match pendingAnswer pending with
  | Throw e => (st, Throw e)
  | Ok results =>
      match promoteLoop 0 (pendingPairs pending) results (pendingOps pending) [] with
      | Throw e => (st, Throw e)
      | Ok availableOutstandingOps =>
          ({| outstandingUserOperations := outstandingUserOperations st;
              avaiableOutstandingUserOperations := availableOutstandingOps;
              processingUserOperations := processingUserOperations st;
              submittedUserOperations := submittedUserOperations st |},
           Ok tt)
      end
  end.

(** What happens to a store over time: a call that runs to its end before
    anything else happens (for [updateAvailableUserOperations]: with its
    multicall settled at once), the start of a reconciliation, and the
    settling of the multicall of the [i]-th reconciliation that waits. *)
Inductive Event : Type :=
| Invoke (c : Call)
| Start (publicClient : PublicClient) (entryPoint0 : Address)
| Settle (i : nat).

Record Scheduled : Type := {
  store : MemoryStore;
  waiting : list PendingUpdate
}.

Definition stepEvent (s : Scheduled) (ev : Event) : Scheduled :=
  match ev with
  | Invoke c => {| store := step (store s) c; waiting := waiting s |}
  | Start publicClient entryPoint0 =>
      match startUpdate (store s) publicClient entryPoint0 with
      | Throw _ => s
      | Ok pending => {| store := store s; waiting := waiting s ++ [pending] |}
      end
  | Settle i =>
      match nth_error (waiting s) i with
      | None => s
      | Some pending =>
          {| store := fst (resumeUpdate (store s) pending);
             waiting := splice1 i (waiting s) |}
      end
  end.

Definition initialScheduled : Scheduled := {| store := emptyStore; waiting := [] |}.

Definition runEvents (events : list Event) : Scheduled :=
  fold_left stepEvent events initialScheduled.

Definition wellFormedEvent (ev : Event) : Prop :=
  match ev with
  | Invoke c => wellFormedCall c
  | _ => True
  end.

(** No [removeOutstanding] is called while a reconciliation waits for its
    multicall. *)
Fixpoint noRemovalWhileWaiting (s : Scheduled) (events : list Event) : Prop :=
  match events with
  | [] => True
  | ev :: rest =>
      match ev with
      | Invoke (RemoveOutstanding _) => waiting s = []
      | _ => True
      end /\ noRemovalWhileWaiting (stepEvent s ev) rest
  end.

(** What the invariant asks of a waiting reconciliation: its copy holds no
    hash more often than outstanding does, and its pairs are those of its
    copy. *)
Definition pendingWithin (st : MemoryStore) (pending : PendingUpdate) : Prop :=
  Forall wellFormedSender (pendingOps pending) /\
  pendingPairs pending = distinctPairs (pendingOps pending) /\
  forall h,
    (countHash h (pendingOps pending) <= countHash h (outstandingUserOperations st))%nat.

(** The invariant of a store with its waiting reconciliations. *)
Definition scheduledInvariant (s : Scheduled) : Prop :=
  Forall wellFormedSender (outstandingUserOperations (store s)) /\
  availableWithinOutstanding (store s) /\
  Forall (pendingWithin (store s)) (waiting s).

End Mempool.

(** ** The gas-price manager *)

Module GasPriceManager.

Import Utils.

Record GasPriceParameters : Type := {
  maxFeePerGas : Z;
  maxPriorityFeePerGas : Z
}.

(** Chain ids: the [ChainId] enum of the file and the [id] fields of the
    [viem/chains] descriptions it compares with. *)
Module ChainId.
Definition Goerli : Z := 5.
Definition Polygon : Z := 137.
Definition Mumbai : Z := 80001.
Definition LineaTestnet : Z := 59140.
Definition Linea : Z := 59144.
Definition celo : Z := 42220.
Definition celoAlfajores : Z := 44787.
Definition dfk : Z := 53935.
Definition avalanche : Z := 43114.
Definition polygon : Z := 137.
Definition polygonMumbai : Z := 80001.
End ChainId.

(** [parseGwei] of [viem] on a whole number of gwei. *)
Definition gwei (n : Z) : Z := n * 10 ^ 9.

Definition MIN_POLYGON_GAS_PRICE : Z := gwei 31.
Definition MIN_MUMBAI_GAS_PRICE : Z := gwei 1.
(** [parseGwei("1.5")] *)
Definition ONE_AND_A_HALF_GWEI : Z := 1500000000.

(** The fields of [AltoConfig] the manager reads; [chainId] is
    [config.publicClient.chain.id]. *)
Record AltoConfig : Type := {
  chainId : Z;
  gasPriceBump : Z;
  legacyTransactions : bool;
  gasPriceRefreshInterval : Z;
  gasPriceExpiry : Z;
  chainType : string
}.

(** Answers of the outside world during one refresh. *)
Record Fees : Type := {
  feesMaxFeePerGas : option Z;
  feesMaxPriorityFeePerGas : option Z
}.

Record Block : Type := {
  baseFeePerGas : option Z;      (* [None] is [null] *)
  gasUsed : Z;
  gasLimit : Z
}.

Record FeeHistory : Type := {
  reward : option (list (list Z))   (* [None] is [undefined] or [null] *)
}.

Record World : Type := {
  estimateFeesPerGas : Result Fees;            (* EIP-1559 estimator *)
  estimateFeesPerGasLegacy : Result (option Z);  (* [type: "legacy"], field [gasPrice] *)
  rpcGetGasPrice : Result Z;                   (* [publicClient.getGasPrice()] *)
  getFeeHistory : Result FeeHistory;
  getBlock : Result Block;
  gasStation : option GasPriceParameters;      (* [None]: fetch or parse failed *)
  dateNow : Z                                  (* [Date.now()] *)
}.

(** *** Fee queues *)

(** One queue entry; the value field is called [baseFeePerGas],
    [maxFeePerGas], [maxPriorityFeePerGas] or [baseFee] in the five queues of
    the source. *)
Record Entry : Type := {
  timestamp : Z;
  fee : Z
}.

(** The body shared, up to the name of the value field and the slice
    constant, by [saveMaxFeePerGas], [saveMaxPriorityFeePerGas],
    [saveBaseFeePerGas] and (after their zero test) [saveL1BaseFee] and
    [saveL2BaseFee]. *)
Definition saveEntry (slice maxQueueSize : Z) (queue : list Entry)
                     (fee0 timestamp0 : Z) : list Entry :=
  let push (q : list Entry) :=
    (if Z.of_nat (length q) >=? maxQueueSize then snd (shift q) else q)
      ++ [{| timestamp := timestamp0; fee := fee0 |}] in
  match lastOrNull queue with
  | None => push queue
  | Some last =>
      if timestamp0 - timestamp last >=? slice then push queue
      else if fee0 <? fee last then
        setLast queue {| timestamp := timestamp0; fee := fee0 |}
      else queue
  end.

Record GasPriceManagerState : Type := {
  maxQueueSize : Z;
  queueBaseFeePerGas : list Entry;
  queueMaxFeePerGas : list Entry;
  queueMaxPriorityFeePerGas : list Entry
}.

Definition saveMaxFeePerGas (state : GasPriceManagerState)
                            (maxFeePerGas0 timestamp0 : Z) : GasPriceManagerState :=
  {| maxQueueSize := maxQueueSize state;
     queueBaseFeePerGas := queueBaseFeePerGas state;
     queueMaxFeePerGas :=
       saveEntry 1000 (maxQueueSize state) (queueMaxFeePerGas state)
                 maxFeePerGas0 timestamp0;
     queueMaxPriorityFeePerGas := queueMaxPriorityFeePerGas state |}.

Definition saveMaxPriorityFeePerGas (state : GasPriceManagerState)
                                    (maxPriorityFeePerGas0 timestamp0 : Z)
  : GasPriceManagerState :=
  {| maxQueueSize := maxQueueSize state;
     queueBaseFeePerGas := queueBaseFeePerGas state;
     queueMaxFeePerGas := queueMaxFeePerGas state;
     queueMaxPriorityFeePerGas :=
       saveEntry 1000 (maxQueueSize state) (queueMaxPriorityFeePerGas state)
                 maxPriorityFeePerGas0 timestamp0 |}.

Definition saveBaseFeePerGas (state : GasPriceManagerState)
                             (baseFeePerGas0 timestamp0 : Z) : GasPriceManagerState :=
  {| maxQueueSize := maxQueueSize state;
     queueBaseFeePerGas :=
       saveEntry 1000 (maxQueueSize state) (queueBaseFeePerGas state)
                 baseFeePerGas0 timestamp0;
     queueMaxFeePerGas := queueMaxFeePerGas state;
     queueMaxPriorityFeePerGas := queueMaxPriorityFeePerGas state |}.

(** *** The Arbitrum manager *)

Record ArbitrumManager : Type := {
  arbMaxQueueSize : Z;
  queueL1BaseFee : list Entry;
  queueL2BaseFee : list Entry
}.

Definition queueValidity : Z := 15000.

Definition createArbitrumManager (maxQueueSize0 : Z) : ArbitrumManager :=
  {| arbMaxQueueSize := maxQueueSize0; queueL1BaseFee := []; queueL2BaseFee := [] |}.

(** [now] is the value of [Date.now()] read inside the call. *)
Definition saveL1BaseFee (m : ArbitrumManager) (baseFee now : Z) : ArbitrumManager :=
  if baseFee =? 0 then m
  else
    {| arbMaxQueueSize := arbMaxQueueSize m;
       queueL1BaseFee :=
         saveEntry queueValidity (arbMaxQueueSize m) (queueL1BaseFee m) baseFee now;
       queueL2BaseFee := queueL2BaseFee m |}.

Definition saveL2BaseFee (m : ArbitrumManager) (baseFee now : Z) : ArbitrumManager :=
  if baseFee =? 0 then m
  else
    {| arbMaxQueueSize := arbMaxQueueSize m;
       queueL1BaseFee := queueL1BaseFee m;
       queueL2BaseFee :=
         saveEntry queueValidity (arbMaxQueueSize m) (queueL2BaseFee m) baseFee now |}.

Definition maxUint128 : Z := 2 ^ 128 - 1.

Definition getMinL1BaseFee (m : ArbitrumManager) : Z :=
  match queueL1BaseFee m with
  | [] => 1
  | first :: _ =>
      fold_left (fun acc cur => minBigInt (fee cur) acc) (queueL1BaseFee m) (fee first)
  end.

Definition getMaxL1BaseFee (m : ArbitrumManager) : Z :=
  match queueL1BaseFee m with
  | [] => maxUint128
  | first :: _ =>
      fold_left (fun acc cur => maxBigInt (fee cur) acc) (queueL1BaseFee m) (fee first)
  end.

Definition getMaxL2BaseFee (m : ArbitrumManager) : Z :=
  match queueL2BaseFee m with
  | [] => maxUint128
  | first :: _ =>
      fold_left (fun acc cur => maxBigInt (fee cur) acc) (queueL2BaseFee m) (fee first)
  end.

(** *** Bump and floors *)

Definition getDefaultGasFee (config : AltoConfig) : Z :=
  if chainId config =? ChainId.Polygon then MIN_POLYGON_GAS_PRICE
  else if chainId config =? ChainId.Mumbai then MIN_MUMBAI_GAS_PRICE
  else 0.

Definition bumpTheGasPrice (config : AltoConfig) (gasPrice : GasPriceParameters)
  : GasPriceParameters :=
  let bumpAmount := gasPriceBump config in
  let maxPriorityFeePerGas0 :=
    maxBigInt (maxPriorityFeePerGas gasPrice) (getDefaultGasFee config) in
  let maxFeePerGas0 := maxBigInt (maxFeePerGas gasPrice) maxPriorityFeePerGas0 in
  let result :=
    {| maxFeePerGas := Z.quot (maxFeePerGas0 * bumpAmount) 100;
       maxPriorityFeePerGas := Z.quot (maxPriorityFeePerGas0 * bumpAmount) 100 |} in
  if (chainId config =? ChainId.celo) || (chainId config =? ChainId.celoAlfajores) then
    let maxFee := maxBigInt (maxFeePerGas result) (maxPriorityFeePerGas result) in
    {| maxFeePerGas := maxFee; maxPriorityFeePerGas := maxFee |}
  else if chainId config =? ChainId.dfk then
    {| maxFeePerGas := maxBigInt 5000000000 (maxFeePerGas result);
       maxPriorityFeePerGas := maxBigInt 5000000000 (maxPriorityFeePerGas result) |}
  else if chainId config =? ChainId.avalanche then
    {| maxFeePerGas := maxBigInt ONE_AND_A_HALF_GWEI (maxFeePerGas result);
       maxPriorityFeePerGas :=
         maxBigInt ONE_AND_A_HALF_GWEI (maxPriorityFeePerGas result) |}
  else result.

(** The bump rule in the words of the specification: multiply both fees by
    [gasPriceBump / 100] first, then raise the priority fee to the chain floor
    and the max fee to the priority fee. *)
Definition chainFloor (config : AltoConfig) : Z :=
  if chainId config =? ChainId.Polygon then gwei 31
  else if chainId config =? ChainId.Mumbai then gwei 1
  else 0.

Definition bumpThenFloor (config : AltoConfig) (gasPrice : GasPriceParameters)
  : GasPriceParameters :=
  let bumpedMaxFee := Z.quot (maxFeePerGas gasPrice * gasPriceBump config) 100 in
  let bumpedPriority := Z.quot (maxPriorityFeePerGas gasPrice * gasPriceBump config) 100 in
  let priority := Z.max bumpedPriority (chainFloor config) in
  {| maxFeePerGas := Z.max bumpedMaxFee priority;
     maxPriorityFeePerGas := priority |}.

(** *** Fee sources *)

Definition getPolygonGasPriceParameters (w : World) : option GasPriceParameters :=
  gasStation w.

Definition getLegacyTransactionGasPrice (w : World) : Result GasPriceParameters :=
  let gasPrice :=
    match estimateFeesPerGasLegacy w with
    | Ok g => g
    | Throw _ => None
    end in
  gasPrice1 <- match gasPrice with
               | Some g => Ok g
               | None => rpcGetGasPrice w
               end ;;
  Ok {| maxFeePerGas := gasPrice1; maxPriorityFeePerGas := gasPrice1 |}.

(** [cur[0] + acc] over the reward rows; the head of an empty row is
    [undefined], and adding it to a [bigint] is a [TypeError]. *)
Fixpoint sumFirstRewards (rows : list (list Z)) (acc : Z) : Result Z :=
  match rows with
  | [] => Ok acc
  | cur :: rest =>
      match cur with
      | [] => Throw TypeError
      | cur0 :: _ => sumFirstRewards rest (cur0 + acc)
      end
  end.

Definition getFallBackMaxPriorityFeePerGas (w : World) (gasPrice : Z) : Result Z :=
  feeHistory <- getFeeHistory w ;;
  match reward feeHistory with
  | None => Ok gasPrice
  | Some rows =>
      total <- sumFirstRewards rows 0 ;;
      let feeAverage := Z.quot total 10 in
      Ok (minBigInt feeAverage gasPrice)
  end.

Definition getNextBaseFee (w : World) : Result Z :=
  block <- getBlock w ;;
  currentBaseFeePerGas <-
    match baseFeePerGas block with
    | Some b => if b =? 0 then rpcGetGasPrice w else Ok b
    | None => rpcGetGasPrice w
    end ;;
  let currentGasUsed := gasUsed block in
  let gasTarget := Z.quot (gasLimit block) 2 in
  if currentGasUsed =? gasTarget then Ok currentBaseFeePerGas
  else if currentGasUsed >? gasTarget then
    let gasUsedDelta := currentGasUsed - gasTarget in
    q <- bigintDiv (currentBaseFeePerGas * gasUsedDelta) gasTarget ;;
    let baseFeePerGasDelta := maxBigInt (Z.quot q 8) 1 in
    Ok (currentBaseFeePerGas + baseFeePerGasDelta)
  else
    let gasUsedDelta := currentGasUsed - gasTarget in
    q <- bigintDiv (currentBaseFeePerGas * gasUsedDelta) gasTarget ;;
    let baseFeePerGasDelta := Z.quot q 8 in
    Ok (currentBaseFeePerGas - baseFeePerGasDelta).

Definition estimateGasPrice (w : World) : Result GasPriceParameters :=
  let fees :=
    match estimateFeesPerGas w with
    | Ok f => f
    | Throw _ => {| feesMaxFeePerGas := None; feesMaxPriorityFeePerGas := None |}
    end in
  let maxFeePerGas0 := feesMaxFeePerGas fees in
  maxPriorityFeePerGas1 <-
    match feesMaxPriorityFeePerGas fees with
    | Some p => Ok p
    | None =>
        getFallBackMaxPriorityFeePerGas w
          (match maxFeePerGas0 with Some f => f | None => 0 end)
    end ;;
  maxFeePerGas1 <-
    match maxFeePerGas0 with
    | Some f => Ok f
    | None => nextBaseFee <- getNextBaseFee w ;; Ok (nextBaseFee + maxPriorityFeePerGas1)
    end ;;
  let maxPriorityFeePerGas2 :=
    if maxPriorityFeePerGas1 =? 0 then Z.quot maxFeePerGas1 200
    else maxPriorityFeePerGas1 in
  Ok {| maxFeePerGas := maxFeePerGas1; maxPriorityFeePerGas := maxPriorityFeePerGas2 |}.

Definition innerGetGasPrice (config : AltoConfig) (w : World) : Result GasPriceParameters :=
  let floorAtZero (gasPrice : GasPriceParameters) (maxFee maxPriority : Z) :=
    {| maxFeePerGas := maxBigInt (maxFeePerGas gasPrice) maxFee;
       maxPriorityFeePerGas := maxBigInt (maxPriorityFeePerGas gasPrice) maxPriority |} in
  let rest :=
    if legacyTransactions config then
      legacy <- getLegacyTransactionGasPrice w ;;
      Ok (floorAtZero (bumpTheGasPrice config legacy) 0 0)
    else
      estimatedPrice <- estimateGasPrice w ;;
      Ok (floorAtZero (bumpTheGasPrice config estimatedPrice)
                      (maxFeePerGas estimatedPrice)
                      (maxPriorityFeePerGas estimatedPrice)) in
  if (chainId config =? ChainId.polygon) || (chainId config =? ChainId.polygonMumbai) then
    match getPolygonGasPriceParameters w with
    | Some polygonEstimate =>
        Ok (floorAtZero
              (bumpTheGasPrice config
                 {| maxFeePerGas := maxFeePerGas polygonEstimate;
                    maxPriorityFeePerGas := maxPriorityFeePerGas polygonEstimate |})
              0 0)
    | None => rest
    end
  else rest.

(** *** Operations on the manager state

    A computation on the state of the manager: it yields the state it leaves
    behind together with its value or the exception it threw. *)

Definition M (A : Type) : Type :=
  GasPriceManagerState -> GasPriceManagerState * Result A.

Definition retM {A : Type} (a : A) : M A := fun state => (state, Ok a).

Definition throwM {A : Type} (e : Exn) : M A := fun state => (state, Throw e).

Definition liftM {A : Type} (r : Result A) : M A := fun state => (state, r).

Definition bindM {A B : Type} (m : M A) (k : A -> M B) : M B :=
  fun state =>
    match m state with
    | (state1, Ok a) => k a state1
    | (state1, Throw e) => (state1, Throw e)
    end.

Definition getsM {A : Type} (f : GasPriceManagerState -> A) : M A :=
  fun state => (state, Ok (f state)).

Definition modifyM (f : GasPriceManagerState -> GasPriceManagerState) : M unit :=
  fun state => (f state, Ok tt).

Notation "x <~ m ;;; k" := (bindM m (fun x => k))
  (at level 61, m at next level, right associativity).

Definition updateGasPrice (config : AltoConfig) (w : World) : M GasPriceParameters :=
  gasPrice <~ liftM (innerGetGasPrice config w) ;;;
  let timestamp0 := dateNow w in
  _ <~ modifyM (fun state => saveMaxFeePerGas state (maxFeePerGas gasPrice) timestamp0) ;;;
  _ <~ modifyM (fun state =>
                  saveMaxPriorityFeePerGas state (maxPriorityFeePerGas gasPrice) timestamp0) ;;;
  retM gasPrice.

Definition updateBaseFee (w : World) : M Z :=
  latestBlock <~ liftM (getBlock w) ;;;
  match baseFeePerGas latestBlock with
  | None => throwM (RpcError "block does not have baseFeePerGas")
  | Some baseFeePerGas0 =>
      _ <~ modifyM (fun state => saveBaseFeePerGas state baseFeePerGas0 (dateNow w)) ;;;
      retM baseFeePerGas0
  end.

(** Reading a field of [queue[queue.length - 1]] of an empty queue is a
    [TypeError]. *)
Definition lastFee (queue : list Entry) : Result Z :=
  match lastOrNull queue with
  | Some e => Ok (fee e)
  | None => Throw TypeError
  end.

Definition getGasPrice (config : AltoConfig) (w : World) : M GasPriceParameters :=
  if gasPriceRefreshInterval config =? 0 then updateGasPrice config w
  else
    queueP <~ getsM queueMaxPriorityFeePerGas ;;;
    maxPriorityFeePerGas0 <~ liftM (lastFee queueP) ;;;
    queueF <~ getsM queueMaxFeePerGas ;;;
    maxFeePerGas0 <~ liftM (lastFee queueF) ;;;
    retM {| maxFeePerGas := maxFeePerGas0; maxPriorityFeePerGas := maxPriorityFeePerGas0 |}.

Definition getBaseFee (config : AltoConfig) (w : World) : M Z :=
  if legacyTransactions config then
    throwM (RpcError "baseFee is not available for legacy transactions")
  else if gasPriceRefreshInterval config =? 0 then updateBaseFee w
  else
    queue <~ getsM queueBaseFeePerGas ;;;
    liftM (lastFee queue).

(** [queue.reduce((acc, cur) => f(cur.fee, acc), queue[0].fee)] *)
Definition reduceFees (f : Z -> Z -> Z) (queue : list Entry) : Result Z :=
  match queue with
  | [] => Throw TypeError
  | first :: _ => Ok (fold_left (fun acc cur => f (fee cur) acc) queue (fee first))
  end.

Definition getMinMaxFeePerGas (config : AltoConfig) (w : World) : M Z :=
  queue0 <~ getsM queueMaxFeePerGas ;;;
  _ <~ (if (length queue0 =? 0)%nat
        then (_ <~ getGasPrice config w ;;; retM tt)
        else retM tt) ;;;
  queue <~ getsM queueMaxFeePerGas ;;;
  liftM (reduceFees minBigInt queue).

Definition getMinMaxPriorityFeePerGas (config : AltoConfig) (w : World) : M Z :=
  queue0 <~ getsM queueMaxPriorityFeePerGas ;;;
  _ <~ (if (length queue0 =? 0)%nat
        then (_ <~ getGasPrice config w ;;; retM tt)
        else retM tt) ;;;
  queue <~ getsM queueMaxPriorityFeePerGas ;;;
  liftM (reduceFees minBigInt queue).

Definition getMaxBaseFeePerGas (config : AltoConfig) (w : World) : M Z :=
  queue0 <~ getsM queueBaseFeePerGas ;;;
  _ <~ (if (length queue0 =? 0)%nat
        then (_ <~ getBaseFee config w ;;; retM tt)
        else retM tt) ;;;
  queue <~ getsM queueBaseFeePerGas ;;;
  liftM (reduceFees maxBigInt queue).

Definition maxFeeTooLowMessage (lowest current : Z) : string :=
  ("maxFeePerGas must be at least " ++ bigintToString lowest
   ++ " (current maxFeePerGas: " ++ bigintToString current
   ++ ") - use pimlico_getUserOperationGasPrice to get the current gas price")%string.

Definition maxPriorityFeeTooLowMessage (lowest current : Z) : string :=
  ("maxPriorityFeePerGas must be at least " ++ bigintToString lowest
   ++ " (current maxPriorityFeePerGas: " ++ bigintToString current
   ++ ") - use pimlico_getUserOperationGasPrice to get the current gas price")%string.

Definition validateGasPrice (config : AltoConfig) (w : World)
                            (gasPrice : GasPriceParameters) : M unit :=
  lowestMaxFeePerGas0 <~ getMinMaxFeePerGas config w ;;;
  lowestMaxPriorityFeePerGas0 <~ getMinMaxPriorityFeePerGas config w ;;;
  let hedera := String.eqb (chainType config) "hedera" in
  let lowestMaxFeePerGas :=
    if hedera then Z.quot lowestMaxFeePerGas0 (10 ^ 9) else lowestMaxFeePerGas0 in
  let lowestMaxPriorityFeePerGas :=
    if hedera then Z.quot lowestMaxPriorityFeePerGas0 (10 ^ 9)
    else lowestMaxPriorityFeePerGas0 in
  if maxFeePerGas gasPrice <? lowestMaxFeePerGas then
    throwM (RpcError (maxFeeTooLowMessage lowestMaxFeePerGas (maxFeePerGas gasPrice)))
  else if maxPriorityFeePerGas gasPrice <? lowestMaxPriorityFeePerGas then
    throwM (RpcError (maxPriorityFeeTooLowMessage lowestMaxPriorityFeePerGas
                        (maxPriorityFeePerGas gasPrice)))
  else retM tt.

(** The state [createGasPriceManager] starts from, before its first
    refresh. *)
Definition initialState (config : AltoConfig) : GasPriceManagerState :=
  {| maxQueueSize := gasPriceExpiry config;
     queueBaseFeePerGas := [];
     queueMaxFeePerGas := [];
     queueMaxPriorityFeePerGas := [] |}.

(** *** Notions used in the statements *)

(** [m] is the least element of [values]. *)
Definition isMinimumOf (m : Z) (values : list Z) : Prop :=
  In m values /\ forall v, In v values -> m <= v.

(** [needle] occurs in [text]. *)
Definition embeds (text needle : string) : Prop :=
  exists before after : string, text = (before ++ needle ++ after)%string.

Definition timestamps (queue : list Entry) : list Z := map timestamp queue.

(** Non-decreasing sequence of integers. *)
Fixpoint nonDecreasing (l : list Z) : Prop :=
  match l with
  | [] => True
  | x :: rest =>
      match rest with
      | [] => True
      | y :: _ => x <= y /\ nonDecreasing rest
      end
  end.

(** The entry a save writes. *)
Definition newEntry (fee0 timestamp0 : Z) : Entry :=
  {| timestamp := timestamp0; fee := fee0 |}.

(** The history insertion rule for one save of [(fee0, timestamp0)] that
    turns [queue] into [queue']: into an empty queue the entry is appended;
    less than one slice after the last entry the save overwrites that entry
    when its value is strictly lower and changes nothing otherwise; one slice
    or more after the last entry it appends, dropping the oldest entry of a
    queue that is at capacity. *)
Definition insertionRule (slice maxQueueSize0 : Z) (queue : list Entry)
                         (fee0 timestamp0 : Z) (queue' : list Entry) : Prop :=
  match lastOrNull queue with
  | None => queue' = [newEntry fee0 timestamp0]
  | Some last =>
      (timestamp0 - timestamp last < slice ->
       (fee0 < fee last -> queue' = removelast queue ++ [newEntry fee0 timestamp0]) /\
       (fee last <= fee0 -> queue' = queue)) /\
      (slice <= timestamp0 - timestamp last ->
       (Z.of_nat (length queue) < maxQueueSize0 ->
        queue' = queue ++ [newEntry fee0 timestamp0]) /\
       (maxQueueSize0 <= Z.of_nat (length queue) ->
        queue' = tl queue ++ [newEntry fee0 timestamp0]))
  end.

(** A queue within its capacity and with non-decreasing timestamps. *)
Definition queueWellFormed (maxQueueSize0 : Z) (queue : list Entry) : Prop :=
  Z.of_nat (length queue) <= maxQueueSize0 /\ nonDecreasing (timestamps queue).

(** A well-formed queue none of whose timestamps exceeds [now]. *)
Definition queueSettled (maxQueueSize0 now : Z) (queue : list Entry) : Prop :=
  queueWellFormed maxQueueSize0 queue /\ Forall (fun e => timestamp e <= now) queue.

(** Saves into the three queues of the manager state. *)
Inductive Save : Type :=
| SaveBaseFeePerGas (baseFeePerGas0 timestamp0 : Z)
| SaveMaxFeePerGas (maxFeePerGas0 timestamp0 : Z)
| SaveMaxPriorityFeePerGas (maxPriorityFeePerGas0 timestamp0 : Z).

Definition applySave (state : GasPriceManagerState) (s : Save) : GasPriceManagerState :=
  match s with
  | SaveBaseFeePerGas v t => saveBaseFeePerGas state v t
  | SaveMaxFeePerGas v t => saveMaxFeePerGas state v t
  | SaveMaxPriorityFeePerGas v t => saveMaxPriorityFeePerGas state v t
  end.

Definition saveTime (s : Save) : Z :=
  match s with
  | SaveBaseFeePerGas _ t => t
  | SaveMaxFeePerGas _ t => t
  | SaveMaxPriorityFeePerGas _ t => t
  end.

(** Saves into the two queues of the Arbitrum manager; the timestamp is the
    value [Date.now()] has during the call. *)
Inductive ArbitrumSave : Type :=
| SaveL1BaseFee (baseFee now : Z)
| SaveL2BaseFee (baseFee now : Z).

Definition applyArbitrumSave (m : ArbitrumManager) (s : ArbitrumSave) : ArbitrumManager :=
  match s with
  | SaveL1BaseFee v now => saveL1BaseFee m v now
  | SaveL2BaseFee v now => saveL2BaseFee m v now
  end.

Definition arbitrumSaveTime (s : ArbitrumSave) : Z :=
  match s with
  | SaveL1BaseFee _ now => now
  | SaveL2BaseFee _ now => now
  end.

(** The saves of a sequence that go into one given queue, as pairs of value
    and timestamp, in the order of the sequence. *)
Definition baseFeeSaves (saves : list Save) : list (Z * Z) :=
  flat_map (fun s => match s with SaveBaseFeePerGas v t => [(v, t)] | _ => [] end) saves.

Definition maxFeeSaves (saves : list Save) : list (Z * Z) :=
  flat_map (fun s => match s with SaveMaxFeePerGas v t => [(v, t)] | _ => [] end) saves.

Definition maxPriorityFeeSaves (saves : list Save) : list (Z * Z) :=
  flat_map (fun s => match s with SaveMaxPriorityFeePerGas v t => [(v, t)] | _ => [] end)
           saves.

Definition l1Saves (saves : list ArbitrumSave) : list (Z * Z) :=
  flat_map (fun s => match s with SaveL1BaseFee v t => [(v, t)] | _ => [] end) saves.

Definition l2Saves (saves : list ArbitrumSave) : list (Z * Z) :=
  flat_map (fun s => match s with SaveL2BaseFee v t => [(v, t)] | _ => [] end) saves.

(** One save into an Arbitrum queue: the value 0 is ignored. *)
Definition saveNonZero (maxQueueSize0 : Z) (queue : list Entry) (s : Z * Z) : list Entry :=
  if fst s =? 0 then queue
  else saveEntry queueValidity maxQueueSize0 queue (fst s) (snd s).

(** One save into a queue of the manager state. *)
Definition saveAny (maxQueueSize0 : Z) (queue : list Entry) (s : Z * Z) : list Entry :=
  saveEntry 1000 maxQueueSize0 queue (fst s) (snd s).

(** Every row of the fee history carries its percentile reward, and no
    reward is negative. *)
Definition rewardsNonNegative (feeHistory : FeeHistory) : Prop :=
  match reward feeHistory with
  | None => True
  | Some rows => Forall (fun row => row <> [] /\ Forall (fun r => 0 <= r) row) rows
  end.

(** The EIP-1559 estimator yields neither fee: it throws, or answers with
    both fields undefined. *)
Definition yieldsNeitherFee (r : Result Fees) : Prop :=
  match r with
  | Throw _ => True
  | Ok fees => feesMaxFeePerGas fees = None /\ feesMaxPriorityFeePerGas fees = None
  end.

(** The next-base-fee formula in the words of the specification, for base
    fee [b], gas used [u] and gas limit [L]. *)
Definition nextBaseFeeFormula (b u L : Z) : Z :=
  let T := Z.quot L 2 in
  if u =? T then b
  else if u >? T then b + Z.max (Z.quot (Z.quot (b * (u - T)) T) 8) 1
  else b - Z.quot (Z.quot (b * (T - u)) T) 8.

(** Sample data. *)
Definition polygonConfig : AltoConfig :=
  {| chainId := ChainId.Polygon;
     gasPriceBump := 120;
     legacyTransactions := false;
     gasPriceRefreshInterval := 0;
     gasPriceExpiry := 3;
     chainType := "default" |}.

Definition celoConfig : AltoConfig :=
  {| chainId := ChainId.celo;
     gasPriceBump := 100;
     legacyTransactions := false;
     gasPriceRefreshInterval := 0;
     gasPriceExpiry := 3;
     chainType := "default" |}.

Definition hederaConfig : AltoConfig :=
  {| chainId := 295;
     gasPriceBump := 100;
     legacyTransactions := false;
     gasPriceRefreshInterval := 10;
     gasPriceExpiry := 3;
     chainType := "hedera" |}.

(** A world whose estimator fails and whose latest block is empty: base fee
    1 gwei, no gas used, gas limit 30 000 000. *)
Definition quietWorld : World :=
  {| estimateFeesPerGas := Throw (JsError "method not found");
     estimateFeesPerGasLegacy := Throw (JsError "method not found");
     rpcGetGasPrice := Ok 1000000000;
     getFeeHistory := Ok {| reward := Some [[3]; [0]; [12]; [5]] |};
     getBlock := Ok {| baseFeePerGas := Some 1000000000;
                       gasUsed := 0;
                       gasLimit := 30000000 |};
     gasStation := None;
     dateNow := 1700000000000 |}.

Definition sampleState : GasPriceManagerState :=
  {| maxQueueSize := 3;
     queueBaseFeePerGas := [];
     queueMaxFeePerGas := [newEntry 3000000000 0; newEntry 2000000000 1000];
     queueMaxPriorityFeePerGas := [newEntry 1500000000 0; newEntry 1000000000 1000] |}.

Definition sampleArbitrumManager : ArbitrumManager :=
  {| arbMaxQueueSize := 3;
     queueL1BaseFee := [newEntry 5 0];
     queueL2BaseFee := [] |}.

(** *** Creation of the manager

    [createGasPriceManager] builds the empty state and the Arbitrum manager
    and awaits, through [Promise.all], one [updateGasPrice] and, unless
    [legacyTransactions], one [updateBaseFee].  The two refreshes write
    different queues and each sees its own answers of the world ([wGas],
    [wBase]); the manager exists when both returned.  When both throw, which
    error [Promise.all] reports is a matter of timing; the one of
    [updateGasPrice] is taken here.  The periodic task that [setInterval]
    starts repeats the two refreshes and is not part of this definition. *)
Record GasPriceManager : Type := {
  managerState : GasPriceManagerState;
  arbitrumManager : ArbitrumManager
}.

Definition createGasPriceManager (config : AltoConfig) (wGas wBase : World)
  : Result GasPriceManager :=
  let state := initialState config in
  let arbitrum := createArbitrumManager (gasPriceExpiry config) in
  match updateGasPrice config wGas state with
  | (_, Throw e) => Throw e
  | (state1, Ok _) =>
      if legacyTransactions config then
        Ok {| managerState := state1; arbitrumManager := arbitrum |}
      else
        match updateBaseFee wBase state1 with
        | (_, Throw e) => Throw e
        | (state2, Ok _) => Ok {| managerState := state2; arbitrumManager := arbitrum |}
        end
  end.

(** The minima of [validateGasPrice] after their [hedera] scaling. *)
Definition hederaScaled (config : AltoConfig) (m : Z) : Z :=
  if String.eqb (chainType config) "hedera" then Z.quot m (10 ^ 9) else m.

(** A world in which the legacy estimator answers 2 gwei. *)
Definition legacyWorld : World :=
  {| estimateFeesPerGas := Throw (JsError "method not found");
     estimateFeesPerGasLegacy := Ok (Some 2000000000);
     rpcGetGasPrice := Throw (JsError "HTTP request failed");
     getFeeHistory := Throw (JsError "HTTP request failed");
     getBlock := Ok {| baseFeePerGas := Some 1000000000;
                       gasUsed := 20000000;
                       gasLimit := 30000000 |};
     gasStation := Some {| maxFeePerGas := gwei 50; maxPriorityFeePerGas := gwei 40 |};
     dateNow := 1700000000000 |}.

Definition cachedConfig : AltoConfig :=
  {| chainId := 1;
     gasPriceBump := 100;
     legacyTransactions := false;
     gasPriceRefreshInterval := 10;
     gasPriceExpiry := 3;
     chainType := "default" |}.

Definition legacyConfig : AltoConfig :=
  {| chainId := 1;
     gasPriceBump := 110;
     legacyTransactions := true;
     gasPriceRefreshInterval := 10;
     gasPriceExpiry := 3;
     chainType := "default" |}.

End GasPriceManager.

(** ** The local sender manager *)

Module SenderManager.

(** A signing account.  [identity] tells the objects apart: it is what [===]
    and [Array.prototype.includes] compare, so that two accounts made from one
    key are two wallets with one address. *)
Record Account : Type := {
  identity : nat;
  address : string
}.

Definition sameAccount (a b : Account) : bool := Nat.eqb (identity a) (identity b).

(** The fields of [AltoConfig] the sender manager reads; [None] is an
    [undefined] [maxExecutors]. *)
Record AltoConfig : Type := {
  maxExecutors : option nat;
  executorPrivateKeys : list Account
}.

Definition getAvailableWallets (config : AltoConfig) : list Account :=
  match maxExecutors config with
  | Some maxExecutors0 =>
      if (maxExecutors0 <? length (executorPrivateKeys config))%nat
      then firstn maxExecutors0 (executorPrivateKeys config)
      else executorPrivateKeys config
  | None => executorPrivateKeys config
  end.

(** The state behind the closures of [createLocalSenderManager]:
    [semaphore] is the current value of the counting semaphore. *)
Record LocalSenderManager : Type := {
  wallets : list Account;
  availableWallets : list Account;
  semaphore : nat
}.

Definition createLocalSenderManager (config : AltoConfig) : LocalSenderManager :=
  let wallets0 := getAvailableWallets config in
  {| wallets := wallets0;
     availableWallets := wallets0;
     semaphore := length wallets0 |}.

Definition getAllWallets (m : LocalSenderManager) : list Account := wallets m.

(** What a [getWallet] call comes to when no other call intervenes. *)
Inductive Outcome : Type :=
| Resolved (wallet : Account)
| Rejected (e : Exn)
| Waiting.                      (* suspended in [semaphore.acquire()] *)

Definition getWallet (m : LocalSenderManager) : Outcome * LocalSenderManager :=
  match semaphore m with
  | O => (Waiting, m)
  | S value =>
      match shift (availableWallets m) with
      | (None, _) =>
          (* [semaphore.release()] gives the unit back *)
          (Rejected (JsError "no more wallets"), m)
      | (Some wallet, rest) =>
          (Resolved wallet,
           {| wallets := wallets m; availableWallets := rest; semaphore := value |})
      end
  end.

Definition pushWallet (m : LocalSenderManager) (wallet : Account) : LocalSenderManager :=
  {| wallets := wallets m;
     availableWallets :=
       if existsb (sameAccount wallet) (availableWallets m)
       then availableWallets m
       else availableWallets m ++ [wallet];
     semaphore := S (semaphore m) |}.

(** [n] successive [getWallet] calls. *)
Fixpoint getWallets (n : nat) (m : LocalSenderManager) : LocalSenderManager :=
  match n with
  | O => m
  | S k => getWallets k (snd (getWallet m))
  end.

(** The manager of [config] after one [getWallet] per wallet of the pool. *)
Definition drained (config : AltoConfig) : LocalSenderManager :=
  let m := createLocalSenderManager config in
  getWallets (length (availableWallets m)) m.

(** Sample data: a pool of two wallets. *)
Definition walletA : Account := {| identity := 1; address := "0xA1" |}.
Definition walletB : Account := {| identity := 2; address := "0xB2" |}.

Definition twoWallets : AltoConfig :=
  {| maxExecutors := Some 2%nat;
     executorPrivateKeys := [walletA; walletB; {| identity := 3; address := "0xC3" |}] |}.

(** A second account object made from the key of [walletA]. *)
Definition walletA' : Account := {| identity := 4; address := "0xA1" |}.

(** *** Runs of the local pool

    A run is a sequence of calls none of which suspends: a [getWallet] that
    finds the semaphore at 0 waits in [semaphore.acquire()] and takes effect
    only when a later [pushWallet] releases the semaphore, as a [getWallet]
    issued right after that call. *)
Inductive PoolCall : Type :=
| GetWallet
| PushWallet (wallet : Account).

Definition poolStep (m : LocalSenderManager) (c : PoolCall) : LocalSenderManager :=
  match c with
  | GetWallet => snd (getWallet m)
  | PushWallet wallet => pushWallet m wallet
  end.

(** The outcomes of the [getWallet] calls of a run, in order. *)
Fixpoint poolOutcomes (m : LocalSenderManager) (calls : list PoolCall) : list Outcome :=
  match calls with
  | [] => []
  | GetWallet :: rest => fst (getWallet m) :: poolOutcomes (snd (getWallet m)) rest
  | PushWallet wallet :: rest => poolOutcomes (pushWallet m wallet) rest
  end.

(** A run in which no [getWallet] suspends and every [pushWallet] gives back
    a wallet that is not in the pool at that moment. *)
Fixpoint orderlyRun (m : LocalSenderManager) (calls : list PoolCall) : Prop :=
  match calls with
  | [] => True
  | c :: rest =>
      match c with
      | GetWallet => semaphore m <> 0%nat
      | PushWallet wallet => existsb (sameAccount wallet) (availableWallets m) = false
      end /\ orderlyRun (poolStep m c) rest
  end.

(** *** The Redis backend

    The Redis list ["sender-manager"] is shared with the other processes; it
    is modelled by its content, left end first, and the four commands the
    source issues by their effect on it: [LLEN] is the length, [LPUSH] puts
    its arguments at the left end one after the other (and is an error
    without arguments), [RPOP] takes the right end, [RPUSH] appends at the
    right end. *)
Definition RedisList : Type := list string.

Definition llen (redis : RedisList) : nat := length redis.

Definition lpush (redis : RedisList) (entries : list string) : Result RedisList :=
  match entries with
  | [] => Throw (JsError "ERR wrong number of arguments for 'lpush' command")
  | _ :: _ => Ok (rev entries ++ redis)
  end.

Definition rpop (redis : RedisList) : option string * RedisList :=
  (lastOrNull redis, removelast redis).

Definition rpush (redis : RedisList) (entry : string) : RedisList := redis ++ [entry].

(** [createRedisQueue]: the list is filled only when it is empty. *)
Definition createRedisQueue (redis : RedisList) (entries : list string)
  : Result RedisList :=
  if (llen redis =? 0)%nat then lpush redis entries else Ok redis.

(** [createRedisSenderManager] for a config whose [redisQueueEndpoint] is
    set: the wallets of the manager and the list it leaves in Redis. *)
Definition createRedisSenderManager (config : AltoConfig) (redis : RedisList)
  : Result (list Account * RedisList) :=
  let wallets0 := getAvailableWallets config in
  redis1 <- createRedisQueue redis (map address wallets0) ;;
  Ok (wallets0, redis1).

(** The polling loop of [getWallet] when no other client writes to the
    list: [while (!walletAddress)] pops again after [null] and after an empty
    string, so that an empty string is dropped, and an exhausted list leaves
    the loop polling ([None]).  Every pop of an entry shortens the list, so
    one attempt more than the list has entries exhausts it. *)
Fixpoint poll (attempts : nat) (redis : RedisList) : option string * RedisList :=
  match attempts with
  | O => (None, redis)
  | S k =>
      match rpop redis with
      | (None, redis1) => (None, redis1)
      | (Some walletAddress, redis1) =>
          if String.eqb walletAddress EmptyString then poll k redis1
          else (Some walletAddress, redis1)
      end
  end.

Definition redisGetWallet (wallets0 : list Account) (redis : RedisList)
  : Outcome * RedisList :=
  match poll (S (llen redis)) redis with
  | (None, redis1) => (Waiting, redis1)
  | (Some walletAddress, redis1) =>
      match find (fun w => String.eqb (address w) walletAddress) wallets0 with
      | Some wallet => (Resolved wallet, redis1)
      | None => (Rejected (JsError "wallet not found"), redis1)
      end
  end.

Definition redisPushWallet (redis : RedisList) (wallet : Account) : RedisList :=
  rpush redis (address wallet).

(** [n] successive [getWallet] calls on the Redis backend: their outcomes
    and the list they leave. *)
Fixpoint redisGetWallets (n : nat) (wallets0 : list Account) (redis : RedisList)
  : list Outcome * RedisList :=
  match n with
  | O => ([], redis)
  | S k =>
      let (outcome, redis1) := redisGetWallet wallets0 redis in
      let (outcomes, redis2) := redisGetWallets k wallets0 redis1 in
      (outcome :: outcomes, redis2)
  end.

(** A pool as the Redis backend needs it: no empty address, no address
    twice. *)
Definition addressable (wallets0 : list Account) : Prop :=
  NoDup (map address wallets0) /\ Forall (fun w => address w <> EmptyString) wallets0.

End SenderManager.

(** * Properties *)

(** ** Arrays *)

Section ArrayFacts.
Context {A : Type}.
Implicit Types (p q : A -> bool) (arr : list A).

Lemma countIf_app p arr1 arr2 :
  countIf p (arr1 ++ arr2) = (countIf p arr1 + countIf p arr2)%nat.
Proof.
  unfold countIf. now rewrite filter_app, length_app.
Qed.

Lemma countIf_zero_iff p arr :
  countIf p arr = 0%nat <-> forall x, In x arr -> p x = false.
Proof.
  unfold countIf. induction arr as [|a arr IH]; simpl.
  - split; [intros _ x []|reflexivity].
  - destruct (p a) eqn:Ha; simpl.
    + split; [discriminate|]. intros H. specialize (H a (or_introl eq_refl)). congruence.
    + rewrite IH. split.
      * intros H x [<-|Hx]; auto.
      * intros H x Hx. apply H. now right.
Qed.

Lemma findIndex_None p arr :
  findIndex p arr = None <-> forall x, In x arr -> p x = false.
Proof.
  induction arr as [|a arr IH]; simpl.
  - split; [intros _ x []|reflexivity].
  - destruct (p a) eqn:Ha.
    + split; [discriminate|]. intros H. specialize (H a (or_introl eq_refl)). congruence.
    + destruct (findIndex p arr) as [j|].
      * split; [discriminate|]. intros H.
        assert (Hn : Some j = None) by (apply IH; intros x Hx; apply H; now right).
        discriminate.
      * split; [|reflexivity]. intros _ x [<-|Hx]; [assumption|].
        now apply IH.
Qed.

Lemma findIndex_Some p arr i :
  findIndex p arr = Some i ->
  exists x, nth_error arr i = Some x /\ p x = true.
Proof.
  revert i. induction arr as [|a arr IH]; simpl; intros i H; [discriminate|].
  destruct (p a) eqn:Ha.
  - injection H as <-. exists a. now split.
  - destruct (findIndex p arr) as [j|]; [|discriminate].
    injection H as <-. destruct (IH j eq_refl) as [x Hx]. now exists x.
Qed.

(** Removing the element at position [i] lowers the count of [q] by one when
    that element satisfies [q], and leaves it as it is otherwise. *)
Lemma countIf_splice1 q arr i x :
  nth_error arr i = Some x ->
  countIf q arr = (countIf q (splice1 i arr) + (if q x then 1 else 0))%nat.
Proof.
  unfold countIf. revert i. induction arr as [|a arr IH]; intros [|i] H; simpl in *;
    try discriminate.
  - injection H as ->. destruct (q x); simpl; lia.
  - specialize (IH i H). destruct (q a); simpl; lia.
Qed.

Lemma countIf_filter_le p q arr : (countIf q (filter p arr) <= countIf q arr)%nat.
Proof.
  unfold countIf. induction arr as [|a arr IH]; simpl; [lia|].
  destruct (p a), (q a) eqn:Hq; simpl; rewrite ?Hq; simpl; lia.
Qed.

(** Two filters that never keep the same element, both contained in a third
    one, keep together at most what the third keeps. *)
Lemma countIf_disjoint_filters q f g k arr :
  (forall x, f x = true -> g x = true -> False) ->
  (forall x, f x = true -> k x = true) ->
  (forall x, g x = true -> k x = true) ->
  (countIf q (filter f arr) + countIf q (filter g arr) <= countIf q (filter k arr))%nat.
Proof.
  intros Hfg Hfk Hgk. unfold countIf.
  induction arr as [|a arr IH]; simpl; [lia|].
  destruct (f a) eqn:Hf, (g a) eqn:Hg.
  - exfalso. eauto.
  - rewrite (Hfk a Hf). simpl. destruct (q a); simpl; lia.
  - rewrite (Hgk a Hg). simpl. destruct (q a); simpl; lia.
  - destruct (k a); simpl; [destruct (q a); simpl|]; lia.
Qed.

(** [findIndex] finds the first element with [p]; [splice1] takes it out. *)
Lemma findIndex_splice1 p arr i :
  findIndex p arr = Some i ->
  exists pre x post,
    arr = pre ++ x :: post /\ p x = true /\
    (forall y, In y pre -> p y = false) /\
    splice1 i arr = pre ++ post.
Proof.
  revert i. induction arr as [|a arr IH]; simpl; intros i H; [discriminate|].
  destruct (p a) eqn:Ha.
  - injection H as <-. exists [], a, arr. simpl. repeat split; auto. intros y [].
  - destruct (findIndex p arr) as [j|]; [|discriminate].
    injection H as <-. destruct (IH j eq_refl) as (pre & x & post & -> & Hx & Hpre & Hs).
    exists (a :: pre), x, post. simpl. rewrite Hs. repeat split; auto.
    intros y [<-|Hy]; auto.
Qed.

Lemma nth_error_skipn_hd (l : list A) i :
  nth_error l i = hd_error (skipn i l).
Proof.
  revert l. induction i as [|i IH]; intros [|a l]; simpl; auto.
Qed.

Lemma skipn_S_tl (l : list A) i : skipn (S i) l = tl (skipn i l).
Proof.
  revert l. induction i as [|i IH]; intros [|a l]; try reflexivity.
  change (skipn (S i) l = tl (skipn i l)). apply IH.
Qed.

End ArrayFacts.

(** ** Mempool store *)

(** ** Sets in insertion order *)

Section JsSetFacts.
Context {K : Type} (eqb : K -> K -> bool).
Hypothesis eqb_eq : forall x y, eqb x y = true <-> x = y.

Lemma existsb_eqb x s : existsb (eqb x) s = true <-> In x s.
Proof.
  rewrite existsb_exists. split.
  - intros [y [Hy Hxy]]. apply eqb_eq in Hxy. now subst.
  - intros H. exists x. split; [assumption|]. now apply eqb_eq.
Qed.

Lemma setAdd_In s x y : In y (setAdd eqb s x) <-> In y s \/ y = x.
Proof.
  unfold setAdd. destruct (existsb (eqb x) s) eqn:E.
  - apply existsb_eqb in E. split; [auto|]. intros [H| ->]; assumption.
  - rewrite in_app_iff. simpl. intuition.
Qed.

Lemma setAdd_NoDup s x : NoDup s -> NoDup (setAdd eqb s x).
Proof.
  intros H. unfold setAdd. destruct (existsb (eqb x) s) eqn:E; [assumption|].
  assert (Hx : ~ In x s).
  { intros Hin. apply existsb_eqb in Hin. congruence. }
  clear E. induction H as [|a s Ha Hs IH]; simpl.
  - constructor; [intros []|constructor].
  - constructor.
    + rewrite in_app_iff. simpl. intros [Hin|[->|[]]]; [auto|]. apply Hx. now left.
    + apply IH. intros Hin. apply Hx. now right.
Qed.

Lemma fold_setAdd_In items : forall s y,
  In y (fold_left (setAdd eqb) items s) <-> In y s \/ In y items.
Proof.
  induction items as [|x items IH]; intros s y; simpl.
  - intuition.
  - rewrite IH, setAdd_In. intuition.
Qed.

Lemma fold_setAdd_NoDup items : forall s,
  NoDup s -> NoDup (fold_left (setAdd eqb) items s).
Proof.
  induction items as [|x items IH]; intros s H; simpl; [assumption|].
  apply IH. now apply setAdd_NoDup.
Qed.

Lemma newSet_In items y : In y (newSet eqb items) <-> In y items.
Proof.
  unfold newSet. rewrite fold_setAdd_In. simpl. intuition.
Qed.

Lemma newSet_NoDup items : NoDup (newSet eqb items).
Proof.
  unfold newSet. apply fold_setAdd_NoDup. constructor.
Qed.

(** Insertion order of the set: of two keys, the one added first is the one
    that appears first among the items. *)
Lemma fold_setAdd_order items : forall s,
  exists t,
    fold_left (setAdd eqb) items s = s ++ t /\
    (forall p, In p t -> ~ In p s) /\
    (forall t1 p t2 q t3,
        t = t1 ++ p :: t2 ++ q :: t3 ->
        exists a b,
          findIndex (eqb p) items = Some a /\
          findIndex (eqb q) items = Some b /\ (a < b)%nat).
Proof.
  induction items as [|x items IH]; intros s; simpl.
  - exists []. rewrite app_nil_r. split; [reflexivity|]. split; [intros p []|].
    intros t1 p t2 q t3 E. destruct t1; discriminate.
  - assert (Hshift : forall p, p <> x -> forall a,
               findIndex (eqb p) items = Some a ->
               (if eqb p x then Some 0%nat
                else match findIndex (eqb p) items with
                     | Some i => Some (S i)
                     | None => None
                     end) = Some (S a)).
    { intros p Hp a Ha. destruct (eqb p x) eqn:E.
      - apply eqb_eq in E. contradiction.
      - now rewrite Ha. }
    unfold setAdd at 2. destruct (existsb (eqb x) s) eqn:Ex.
    + apply existsb_eqb in Ex.
      destruct (IH s) as (t & Ht & Hns & Hord). exists t.
      split; [assumption|]. split; [assumption|].
      intros t1 p t2 q t3 E. destruct (Hord _ _ _ _ _ E) as (a & b & Ha & Hb & Hab).
      assert (Hp : p <> x).
      { intros ->. apply (Hns x); [|assumption]. rewrite E. apply in_or_app. right. now left. }
      assert (Hq : q <> x).
      { intros ->. apply (Hns x); [|assumption]. rewrite E.
        apply in_or_app. right. right. apply in_or_app. right. now left. }
      exists (S a), (S b). rewrite (Hshift p Hp a Ha), (Hshift q Hq b Hb).
      repeat split; lia.
    + assert (Hx : ~ In x s).
      { intros Hin. apply existsb_eqb in Hin. congruence. }
      destruct (IH (s ++ [x])) as (t & Ht & Hns & Hord). exists (x :: t).
      split; [rewrite Ht; now rewrite <- app_assoc|]. split.
      * intros p [<-|Hp]; [assumption|]. intros Hin. apply (Hns p Hp).
        apply in_or_app. now left.
      * intros t1 p t2 q t3 E.
        assert (Hnx : forall p', In p' t -> p' <> x).
        { intros p' Hp' ->. apply (Hns x Hp'). apply in_or_app. right. now left. }
        destruct t1 as [|z t1]; simpl in E; injection E as <- E.
        -- assert (Hq : In q t).
           { rewrite E. apply in_or_app. right. now left. }
           assert (Hqi : In q items).
           { assert (Hr : In q (fold_left (setAdd eqb) items (s ++ [x]))).
             { rewrite Ht. apply in_or_app. now right. }
             apply fold_setAdd_In in Hr. destruct Hr as [Hr|Hr]; [|assumption].
             exfalso. exact (Hns q Hq Hr). }
           destruct (findIndex (eqb q) items) as [b|] eqn:Eb.
           ++ exists 0%nat, (S b).
              assert (Exx : eqb x x = true) by now apply eqb_eq.
              rewrite Exx. destruct (eqb q x) eqn:Eqx.
              { apply eqb_eq in Eqx. exfalso. exact (Hnx q Hq Eqx). }
              repeat split; lia.
           ++ exfalso. rewrite findIndex_None in Eb. specialize (Eb q Hqi).
              assert (eqb q q = true) by now apply eqb_eq. congruence.
        -- destruct (Hord _ _ _ _ _ E) as (a & b & Ha & Hb & Hab).
           assert (Hp : In p t).
           { rewrite E. apply in_or_app. right. now left. }
           assert (Hq : In q t).
           { rewrite E. apply in_or_app. right. right. apply in_or_app. right. now left. }
           exists (S a), (S b).
           rewrite (Hshift p (Hnx p Hp) a Ha), (Hshift q (Hnx q Hq) b Hb).
           repeat split; lia.
Qed.

End JsSetFacts.

(** A set of encoded keys is the encoding of the set of keys, as long as the
    encoding is one-to-one on the keys at hand. *)
Lemma fold_setAdd_map {K K' : Type} (eqb : K -> K -> bool) (eqb' : K' -> K' -> bool)
      (f : K -> K') (P : K -> Prop) :
  (forall x y, P x -> P y -> eqb' (f x) (f y) = eqb x y) ->
  forall items s,
    Forall P items -> Forall P s ->
    fold_left (setAdd eqb') (map f items) (map f s)
    = map f (fold_left (setAdd eqb) items s).
Proof.
  intros Hf. induction items as [|x items IH]; intros s Hitems Hs; simpl; [reflexivity|].
  inversion Hitems as [|? ? Hx Hitems']; subst.
  assert (Hex : existsb (eqb' (f x)) (map f s) = existsb (eqb x) s).
  { clear IH. induction Hs as [|y s Hy Hs IHs]; simpl; [reflexivity|].
    now rewrite (Hf x y Hx Hy), IHs. }
  assert (Hadd : setAdd eqb' (map f s) (f x) = map f (setAdd eqb s x)).
  { unfold setAdd. rewrite Hex. destruct (existsb (eqb x) s); [reflexivity|].
    now rewrite map_app. }
  rewrite Hadd. apply IH; [assumption|].
  unfold setAdd. destruct (existsb (eqb x) s); [assumption|].
  apply Forall_app. split; [assumption|]. now constructor.
Qed.

(** ** Mempool store *)

Section MempoolFacts.
Import Mempool.

Lemma pairEqb_eq (p q : SenderNonceKeyPair) : pairEqb p q = true <-> p = q.
Proof.
  destruct p as [s k], q as [s' k']. unfold pairEqb. simpl.
  rewrite andb_true_iff, String.eqb_eq, Z.eqb_eq.
  split; [intros [-> ->]; reflexivity | intros [= -> ->]; auto].
Qed.

Lemma existsb_pairEqb (x : SenderNonceKeyPair) s :
  existsb (pairEqb x) s = true <-> In x s.
Proof. apply existsb_eqb. exact pairEqb_eq. Qed.

Lemma matchesNonce_spec s k nv op :
  matchesNonce s k nv op = true <-> pairOf op = (s, k) /\ nonceValueOf op = nv.
Proof.
  unfold matchesNonce, pairOf, nonceValueOf.
  destruct (getNonceKeyAndValue (userOperation op)) as [k' v']. cbn [fst snd].
  rewrite !andb_true_iff, String.eqb_eq, !Z.eqb_eq.
  split.
  - intros [[-> ->] ->]. auto.
  - intros [[= -> ->] ->]. auto.
Qed.

Lemma distinctPairs_NoDup ops : NoDup (distinctPairs ops).
Proof. apply newSet_NoDup. exact pairEqb_eq. Qed.

Lemma distinctPairs_In ops p :
  In p (distinctPairs ops) <-> exists op, In op ops /\ pairOf op = p.
Proof.
  unfold distinctPairs. rewrite (newSet_In pairEqb pairEqb_eq), in_map_iff.
  split; intros [op [H1 H2]]; exists op; auto.
Qed.

(** *** The string keys *)

(** The key the source builds for a pair. *)
Lemma getSenderNonceKeyPair_pairOf op :
  getSenderNonceKeyPair (userOperation op)
  = (fst (pairOf op) ++ "_" ++ Utils.bigintToString (snd (pairOf op)))%string.
Proof.
  unfold getSenderNonceKeyPair, pairOf.
  now destruct (getNonceKeyAndValue (userOperation op)).
Qed.

Lemma splitUnderscore_nonEmpty text : splitUnderscore text <> [].
Proof.
  destruct text as [|c rest]; simpl; [discriminate|].
  destruct (Ascii.eqb c "_"); [discriminate|].
  destruct (splitUnderscore rest); discriminate.
Qed.

Lemma splitUnderscore_plain text :
  hasUnderscore text = false -> splitUnderscore text = [text].
Proof.
  induction text as [|c rest IH]; simpl; [reflexivity|].
  intros H. apply orb_false_iff in H. destruct H as [Hc Hrest].
  rewrite Hc, (IH Hrest). reflexivity.
Qed.

Lemma splitUnderscore_first a b :
  hasUnderscore a = false ->
  splitUnderscore (a ++ "_" ++ b)%string = a :: splitUnderscore b.
Proof.
  induction a as [|c rest IH]; simpl; [reflexivity|].
  intros H. apply orb_false_iff in H. destruct H as [Hc Hrest].
  rewrite Hc. simpl in IH. rewrite (IH Hrest). reflexivity.
Qed.

Lemma string_of_uint_plain d :
  hasUnderscore (DecimalString.NilEmpty.string_of_uint d) = false.
Proof.
  induction d; simpl; auto.
Qed.

Lemma bigintToString_plain z : hasUnderscore (Utils.bigintToString z) = false.
Proof.
  unfold Utils.bigintToString, DecimalString.NilZero.string_of_int,
    DecimalString.NilZero.string_of_uint.
  destruct (Z.to_int z) as [d|d]; destruct d; simpl;
    try reflexivity; apply string_of_uint_plain.
Qed.

(** **** Numerals pass [BigInt] unchanged *)

Lemma isDecimalDigit_range c :
  isDecimalDigit c = true -> (48 <= code c <= 57)%N.
Proof.
  unfold isDecimalDigit. intros H. apply andb_true_iff in H. destruct H as [H1 H2].
  apply N.leb_le in H1. apply N.leb_le in H2. lia.
Qed.

Lemma code_eqb_false c (n : N) : code c <> n -> (code c =? n)%N = false.
Proof. intros H. now apply N.eqb_neq. Qed.

Lemma isDecimalDigit_differs c k :
  isDecimalDigit c = true -> isDecimalDigit k = false -> Ascii.eqb c k = false.
Proof.
  intros Hc Hk. destruct (Ascii.eqb_spec c k) as [->|]; congruence.
Qed.

Lemma oneByteBlank_digit c : isDecimalDigit c = true -> oneByteBlank c = false.
Proof.
  intros H. apply isDecimalDigit_range in H. unfold oneByteBlank.
  assert (E1 : (code c <=? 13)%N = false) by (apply N.leb_gt; lia).
  rewrite E1, andb_false_r, code_eqb_false by lia. reflexivity.
Qed.

Lemma twoByteBlank_first_digit c c2 : isDecimalDigit c = true -> twoByteBlank c c2 = false.
Proof.
  intros H. apply isDecimalDigit_range in H. unfold twoByteBlank.
  rewrite code_eqb_false by lia. reflexivity.
Qed.

Lemma twoByteBlank_last_digit c1 c : isDecimalDigit c = true -> twoByteBlank c1 c = false.
Proof.
  intros H. apply isDecimalDigit_range in H. unfold twoByteBlank.
  rewrite (code_eqb_false c) by lia. apply andb_false_r.
Qed.

Lemma threeByteBlank_first_digit c c2 c3 :
  isDecimalDigit c = true -> threeByteBlank c c2 c3 = false.
Proof.
  intros H. apply isDecimalDigit_range in H. unfold threeByteBlank.
  rewrite !(code_eqb_false c) by lia. reflexivity.
Qed.

Lemma threeByteBlank_last_digit c1 c2 c :
  isDecimalDigit c = true -> threeByteBlank c1 c2 c = false.
Proof.
  intros H. apply isDecimalDigit_range in H. unfold threeByteBlank.
  assert (E : (128 <=? code c)%N = false) by (apply N.leb_gt; lia).
  rewrite E, !(code_eqb_false c) by lia.
  rewrite !andb_false_r. reflexivity.
Qed.

Lemma skipBlanks_head two three c rest :
  oneByteBlank c = false ->
  (forall c2, two c c2 = false) ->
  (forall c2 c3, three c c2 c3 = false) ->
  skipBlanks two three (String c rest) = String c rest.
Proof.
  intros H1 H2 H3. cbn [skipBlanks]. rewrite H1.
  destruct rest as [|c2 rest]; [reflexivity|]. rewrite H2.
  destruct rest as [|c3 rest]; [reflexivity|]. now rewrite H3.
Qed.

Lemma reverse_involutive text : reverse (reverse text) = text.
Proof.
  unfold reverse. rewrite list_ascii_of_string_of_list_ascii, rev_involutive.
  apply string_of_list_ascii_of_string.
Qed.

Lemma rev_digits_head (digits : list ascii) :
  digits <> [] ->
  Forall (fun c => isDecimalDigit c = true) digits ->
  forall sign, exists c rest,
    rev (sign ++ digits) = c :: rest /\ isDecimalDigit c = true.
Proof.
  intros Hne Hall sign. rewrite rev_app_distr.
  destruct (exists_last Hne) as (front & c & ->).
  rewrite rev_app_distr. simpl. exists c. eexists. split; [reflexivity|].
  apply Forall_app in Hall. destruct Hall as [_ Hc]. now inversion Hc.
Qed.

Lemma string_of_uint_digits d :
  Forall (fun c => isDecimalDigit c = true)
         (list_ascii_of_string (DecimalString.NilEmpty.string_of_uint d)).
Proof.
  induction d; simpl; constructor; auto.
Qed.

(** The shape of a printed [bigint]: an optional minus sign before a
    non-empty run of digits. *)
Lemma bigintToString_shape z :
  exists sign digits,
    list_ascii_of_string (Utils.bigintToString z) = sign ++ digits /\
    (sign = [] \/ sign = ["-"%char]) /\
    digits <> [] /\
    Forall (fun c => isDecimalDigit c = true) digits.
Proof.
  unfold Utils.bigintToString, DecimalString.NilZero.string_of_int.
  assert (Hu : forall d,
             list_ascii_of_string (DecimalString.NilZero.string_of_uint d) <> [] /\
             Forall (fun c => isDecimalDigit c = true)
                    (list_ascii_of_string (DecimalString.NilZero.string_of_uint d))).
  { intros d. unfold DecimalString.NilZero.string_of_uint.
    destruct d; (split; [simpl; discriminate|]);
      try apply (string_of_uint_digits (Decimal.D0 d));
      try apply (string_of_uint_digits (Decimal.D1 d));
      try apply (string_of_uint_digits (Decimal.D2 d));
      try apply (string_of_uint_digits (Decimal.D3 d));
      try apply (string_of_uint_digits (Decimal.D4 d));
      try apply (string_of_uint_digits (Decimal.D5 d));
      try apply (string_of_uint_digits (Decimal.D6 d));
      try apply (string_of_uint_digits (Decimal.D7 d));
      try apply (string_of_uint_digits (Decimal.D8 d));
      try apply (string_of_uint_digits (Decimal.D9 d)).
    simpl. repeat constructor. }
  destruct (Z.to_int z) as [d|d]; destruct (Hu d) as [Hne Hall].
  - exists [], (list_ascii_of_string (DecimalString.NilZero.string_of_uint d)). auto.
  - exists ["-"%char], (list_ascii_of_string (DecimalString.NilZero.string_of_uint d)).
    simpl. auto.
Qed.

Lemma trimBlanks_bigintToString z :
  trimBlanks (Utils.bigintToString z) = Utils.bigintToString z.
Proof.
  destruct (bigintToString_shape z) as (sign & digits & Htext & Hsign & Hne & Hall).
  assert (Hfirst : exists c rest,
             Utils.bigintToString z = String c rest /\
             (isDecimalDigit c = true \/ c = "-"%char)).
  { destruct (Utils.bigintToString z) as [|c rest].
    - exfalso. simpl in Htext. destruct Hsign as [-> | ->]; [|discriminate].
      simpl in Htext. now subst digits.
    - exists c, rest. split; [reflexivity|]. simpl in Htext.
      destruct Hsign as [-> | ->]; simpl in Htext.
      + left. destruct digits as [|c0 digits]; [contradiction|].
        injection Htext as -> _. now inversion Hall.
      + right. now injection Htext as -> _. }
  destruct Hfirst as (c & rest & Htext0 & Hc).
  unfold trimBlanks. rewrite Htext0.
  rewrite (skipBlanks_head twoByteBlank threeByteBlank c rest).
  2:{ destruct Hc as [Hc | ->]; [now apply oneByteBlank_digit|reflexivity]. }
  2:{ intros c2. destruct Hc as [Hc | ->]; [now apply twoByteBlank_first_digit|reflexivity]. }
  2:{ intros c2 c3.
      destruct Hc as [Hc | ->]; [now apply threeByteBlank_first_digit|reflexivity]. }
  rewrite <- Htext0.
  destruct (rev_digits_head digits Hne Hall sign) as (last & front & Hrev & Hlast).
  assert (Hreverse : reverse (Utils.bigintToString z)
                     = String last (string_of_list_ascii front)).
  { unfold reverse. now rewrite Htext, Hrev. }
  rewrite Hreverse, skipBlanks_head.
  - rewrite <- Hreverse. apply reverse_involutive.
  - now apply oneByteBlank_digit.
  - intros c2. now apply twoByteBlank_last_digit.
  - intros c2 c3. now apply threeByteBlank_last_digit.
Qed.

Lemma strIntegerLiteral_bigintToString z :
  strIntegerLiteral (Utils.bigintToString z)
  = option_map Z.of_int (DecimalString.NilZero.int_of_string (Utils.bigintToString z)).
Proof.
  destruct (bigintToString_shape z) as (sign & digits & Htext & Hsign & Hne & Hall).
  destruct (Utils.bigintToString z) as [|c rest]; [reflexivity|].
  simpl in Htext.
  assert (Hplus : Ascii.eqb c "+" = false).
  { destruct Hsign as [-> | ->]; simpl in Htext.
    - destruct digits as [|c0 digits]; [contradiction|]. injection Htext as -> _.
      apply isDecimalDigit_differs; [now inversion Hall|reflexivity].
    - now injection Htext as -> _. }
  assert (Hsigned : signedInteger (String c rest)
                    = option_map Z.of_int
                        (DecimalString.NilZero.int_of_string (String c rest))).
  { unfold signedInteger. now rewrite Hplus. }
  unfold strIntegerLiteral. destruct rest as [|prefix rest]; [exact Hsigned|].
  destruct (Ascii.eqb c "0") eqn:Ezero; [|exact Hsigned].
  assert (Hprefix : isDecimalDigit prefix = true).
  { destruct Hsign as [-> | ->]; simpl in Htext.
    - subst digits. inversion Hall as [|? ? _ Hrest]. now inversion Hrest.
    - injection Htext as -> _. discriminate. }
  rewrite !(isDecimalDigit_differs prefix) by (assumption || reflexivity).
  exact Hsigned.
Qed.

Lemma BigInt_bigintToString z : BigInt (Some (Utils.bigintToString z)) = Ok z.
Proof.
  assert (H : DecimalString.NilZero.int_of_string (Utils.bigintToString z)
              = Some (Z.to_int z)).
  { unfold Utils.bigintToString. apply DecimalString.NilZero.isi.
    - destruct z; simpl; try discriminate.
      intros [= H]. now apply DecimalPos.Unsigned.to_uint_nonnil in H.
    - destruct z; simpl; try discriminate.
      intros [= H]. now apply DecimalPos.Unsigned.to_uint_nonnil in H. }
  unfold BigInt. rewrite trimBlanks_bigintToString.
  pose proof (strIntegerLiteral_bigintToString z) as Hlit. rewrite H in Hlit.
  destruct (Utils.bigintToString z); [discriminate|].
  rewrite Hlit. simpl. now rewrite DecimalZ.of_to.
Qed.

(** Parsing gives back the pair that was encoded. *)
Lemma parseSenderNonceKeyPair_key (p : SenderNonceKeyPair) :
  hasUnderscore (fst p) = false ->
  parseSenderNonceKeyPair (fst p ++ "_" ++ Utils.bigintToString (snd p))%string = Ok p.
Proof.
  intros H. unfold parseSenderNonceKeyPair.
  rewrite (splitUnderscore_first _ _ H),
    (splitUnderscore_plain _ (bigintToString_plain (snd p))).
  cbn [hd nth_error]. rewrite BigInt_bigintToString. simpl. now destruct p.
Qed.

Lemma key_eqb (p q : SenderNonceKeyPair) :
  hasUnderscore (fst p) = false ->
  hasUnderscore (fst q) = false ->
  String.eqb (fst p ++ "_" ++ Utils.bigintToString (snd p))
             (fst q ++ "_" ++ Utils.bigintToString (snd q))
  = pairEqb p q.
Proof.
  intros Hp Hq. destruct (pairEqb p q) eqn:E.
  - apply pairEqb_eq in E. subst q. apply String.eqb_refl.
  - apply String.eqb_neq. intros Hk.
    pose proof (parseSenderNonceKeyPair_key p Hp) as Pp.
    pose proof (parseSenderNonceKeyPair_key q Hq) as Pq.
    rewrite Hk in Pp. rewrite Pp in Pq. injection Pq as ->.
    assert (pairEqb q q = true) by now apply pairEqb_eq. congruence.
Qed.

(** For senders without underscore the queried pairs are the distinct pairs
    of the snapshot, in the order of their first appearance. *)
Lemma allSendersAndNonceKeys_wellFormed ops :
  Forall wellFormedSender ops ->
  allSendersAndNonceKeys ops = Ok (distinctPairs ops).
Proof.
  intros Hwf.
  set (key := fun p : SenderNonceKeyPair =>
                (fst p ++ "_" ++ Utils.bigintToString (snd p))%string).
  set (plain := fun p : SenderNonceKeyPair => hasUnderscore (fst p) = false).
  assert (Hpairs : Forall plain (map pairOf ops)).
  { apply Forall_map. eapply Forall_impl; [|exact Hwf]. intros op H. exact H. }
  assert (Hraw : allSendersAndNonceKeysRaw ops = map key (distinctPairs ops)).
  { unfold allSendersAndNonceKeysRaw, distinctPairs, newSet.
    rewrite (map_ext _ (fun op => key (pairOf op)) getSenderNonceKeyPair_pairOf).
    rewrite <- (map_map pairOf key).
    apply (fold_setAdd_map pairEqb String.eqb key plain) with (s := []);
      [|assumption|constructor].
    intros x y Hx Hy. now apply key_eqb. }
  assert (Hplain : Forall plain (distinctPairs ops)).
  { apply Forall_forall. intros p Hp.
    unfold distinctPairs in Hp.
    apply (proj1 (newSet_In pairEqb pairEqb_eq _ _)) in Hp.
    rewrite Forall_forall in Hpairs. now apply Hpairs. }
  unfold allSendersAndNonceKeys. rewrite Hraw. clear Hraw.
  induction Hplain as [|p l Hp Hl IH]; simpl; [reflexivity|].
  unfold key at 1. rewrite (parseSenderNonceKeyPair_key p Hp). simpl.
  rewrite IH. reflexivity.
Qed.

(** The loop returns as soon as every index it reads has an answer. *)
Lemma promoteLoop_returns pairs results ops : forall i acc,
  (i + length pairs <= length results)%nat ->
  exists avail, promoteLoop i pairs results ops acc = Ok avail.
Proof.
  induction pairs as [|p pairs IH]; intros i acc Hlen; simpl in *.
  - now exists acc.
  - destruct (nth_error results i) as [[nv|err]|] eqn:E.
    + apply IH. lia.
    + apply IH. lia.
    + apply nth_error_None in E. lia.
Qed.

(** Membership in the list the loop builds. *)
Lemma promoteLoop_In pairs results ops : forall i acc avail,
  promoteLoop i pairs results ops acc = Ok avail ->
  forall op,
    In op avail <->
    In op acc \/
    exists k p nv,
      nth_error pairs k = Some p /\
      nth_error results (i + k) = Some (Success nv) /\
      In op ops /\ matchesNonce (fst p) (snd p) nv op = true.
Proof.
  induction pairs as [|p pairs IH]; intros i acc avail H op; simpl in H.
  - injection H as <-. split; [auto|].
    intros [Hin|[k [q [nv [Hk _]]]]]; [assumption|]. destruct k; discriminate.
  - destruct (nth_error results i) as [[nv|err]|] eqn:E; [| |discriminate].
    + rewrite (IH _ _ _ H op), in_app_iff, filter_In. split.
      * intros [[Hin|[Hin Hm]]|[k [q [nv' [Hk [Hr Hm]]]]]].
        -- now left.
        -- right. exists 0%nat, p, nv. rewrite Nat.add_0_r. auto.
        -- right. exists (S k), q, nv'. rewrite Nat.add_succ_r. auto.
      * intros [Hin|[[|k] [q [nv' [Hk [Hr Hm]]]]]].
        -- auto.
        -- simpl in Hk. injection Hk as <-. rewrite Nat.add_0_r in Hr.
           rewrite E in Hr. injection Hr as <-. left. right. assumption.
        -- right. exists k, q, nv'. rewrite Nat.add_succ_r in Hr. auto.
    + rewrite (IH _ _ _ H op). split.
      * intros [Hin|[k [q [nv' [Hk [Hr Hm]]]]]]; [now left|].
        right. exists (S k), q, nv'. rewrite Nat.add_succ_r. auto.
      * intros [Hin|[[|k] [q [nv' [Hk [Hr Hm]]]]]].
        -- auto.
        -- rewrite Nat.add_0_r in Hr. congruence.
        -- right. exists k, q, nv'. rewrite Nat.add_succ_r in Hr. auto.
Qed.

(** For distinct pairs the loop adds, for any property [q], at most as many
    operations with [q] as the snapshot holds. *)
Lemma promoteLoop_count q pairs results ops : forall i acc avail,
  NoDup pairs ->
  promoteLoop i pairs results ops acc = Ok avail ->
  (countIf q avail <= countIf q acc + countIf q (filter (pairAmong pairs) ops))%nat.
Proof.
  induction pairs as [|p pairs IH]; intros i acc avail Hnd H; simpl in H.
  - injection H as <-. lia.
  - inversion Hnd as [|? ? Hp Hnd']; subst.
    assert (Hstep : forall f,
      (forall x, f x = true -> pairOf x = p) ->
      (countIf q (filter f ops) + countIf q (filter (pairAmong pairs) ops)
       <= countIf q (filter (pairAmong (p :: pairs)) ops))%nat).
    { intros f Hf. apply countIf_disjoint_filters.
      - intros x Hx Hx'. apply Hf in Hx. unfold pairAmong in Hx'.
        apply existsb_pairEqb in Hx'. congruence.
      - intros x Hx. apply Hf in Hx. unfold pairAmong. simpl.
        apply orb_true_iff. left. now apply pairEqb_eq.
      - intros x Hx. unfold pairAmong in *. simpl. rewrite Hx. apply orb_true_r. }
    destruct (nth_error results i) as [[nv|err]|] eqn:E; [| |discriminate].
    + specialize (IH _ _ _ Hnd' H). rewrite countIf_app in IH.
      specialize (Hstep (matchesNonce (fst p) (snd p) nv)).
      assert (Hf : forall x, matchesNonce (fst p) (snd p) nv x = true -> pairOf x = p).
      { intros x Hx. apply matchesNonce_spec in Hx. destruct Hx as [-> _].
        now destruct p. }
      specialize (Hstep Hf). lia.
    + specialize (IH _ _ _ Hnd' H).
      specialize (Hstep (fun _ => false)).
      assert (Hf : forall x : UserOperationInfo, false = true -> pairOf x = p)
        by discriminate.
      specialize (Hstep Hf).
      assert (Hz : countIf q (filter (fun _ => false) ops) = 0%nat).
      { apply countIf_zero_iff. intros x Hx. apply filter_In in Hx. destruct Hx; discriminate. }
      lia.
Qed.

Lemma hasHash_true h op : hasHash h op = true <-> userOperationHash op = h.
Proof. unfold hasHash. apply String.eqb_eq. Qed.

Lemma In_hashes_countHash h ops : In h (hashes ops) <-> (1 <= countHash h ops)%nat.
Proof.
  unfold countHash, hashes. split.
  - intros H. apply in_map_iff in H. destruct H as [op [Hh Hin]].
    destruct (countIf (hasHash h) ops) eqn:E; [|lia].
    rewrite countIf_zero_iff in E. specialize (E op Hin).
    apply hasHash_true in Hh. congruence.
  - intros H. destruct (in_dec string_dec h (map userOperationHash ops)) as [|Hn]; [assumption|].
    assert (E : countIf (hasHash h) ops = 0%nat).
    { apply countIf_zero_iff. intros op Hin. destruct (hasHash h op) eqn:Hh; [|reflexivity].
      exfalso. apply Hn. apply in_map_iff. exists op. split; [|assumption].
      now apply hasHash_true. }
    lia.
Qed.

(** Taking out the first entry with hash [h] lowers the count of [h] by one
    and leaves the count of every other hash. *)
Lemma countHash_splice1 h h' ops i :
  findIndex (hasHash h) ops = Some i ->
  countHash h' ops
  = (countHash h' (splice1 i ops) + (if String.eqb h h' then 1 else 0))%nat.
Proof.
  intros H. destruct (findIndex_Some _ _ _ H) as [x [Hx Hp]].
  unfold countHash. rewrite (countIf_splice1 (hasHash h') ops i x Hx).
  apply hasHash_true in Hp. unfold hasHash. now rewrite Hp.
Qed.

Lemma countHash_findIndex_None h ops :
  findIndex (hasHash h) ops = None -> countHash h ops = 0%nat.
Proof.
  intros H. apply countIf_zero_iff. now apply findIndex_None.
Qed.

Lemma removeOutstanding_invariant st h :
  availableWithinOutstanding st -> availableWithinOutstanding (removeOutstanding st h).
Proof.
  intros Hinv h'. unfold removeOutstanding.
  destruct (findIndex (hasHash h) (outstandingUserOperations st)) as [i|] eqn:Ho;
    [|apply Hinv].
  pose proof (countHash_splice1 h h' _ _ Ho) as Co.
  destruct (findIndex (hasHash h) (avaiableOutstandingUserOperations st)) as [j|] eqn:Ha;
    simpl.
  - pose proof (countHash_splice1 h h' _ _ Ha) as Ca.
    specialize (Hinv h'). lia.
  - pose proof (countHash_findIndex_None _ _ Ha) as Ca.
    specialize (Hinv h'). destruct (String.eqb h h') eqn:E.
    + apply String.eqb_eq in E. subst h'. lia.
    + lia.
Qed.

(** Why senders have to be addresses: the key of a sender that holds an
    underscore parses to a pair of another sender, here to the pair of
    [opPlain], which is then queried and promoted twice; after
    [removeOutstanding] an entry of it is left behind in
    available-outstanding. *)
Remark underscore_sender_collides :
  allSendersAndNonceKeys [opPlain; opUnderscore]
  = Ok [("0xa"%string, 0); ("0xa"%string, 0)] /\
  let st := run [AddOutstanding opPlain; AddOutstanding opUnderscore;
                 UpdateAvailableUserOperations (oracleClient (fun _ _ => Success 0))
                   "0xEP"%string;
                 RemoveOutstanding "u1"%string] in
  outstandingUserOperations st = [opUnderscore] /\
  avaiableOutstandingUserOperations st = [opPlain].
Proof.
  split; [vm_compute; reflexivity|]. split; vm_compute; reflexivity.
Qed.

Lemma updateAvailableUserOperations_outstanding st publicClient ep :
  outstandingUserOperations (fst (updateAvailableUserOperations st publicClient ep))
  = outstandingUserOperations st.
Proof.
  unfold updateAvailableUserOperations.
  destruct (allSendersAndNonceKeys _) as [pairs|e]; [|reflexivity].
  destruct (multicall publicClient _) as [results|e]; [|reflexivity].
  destruct (promoteLoop _ _ _ _ _) as [avail|e]; reflexivity.
Qed.

Lemma updateAvailableUserOperations_invariant st publicClient ep :
  Forall wellFormedSender (outstandingUserOperations st) ->
  availableWithinOutstanding st ->
  availableWithinOutstanding (fst (updateAvailableUserOperations st publicClient ep)).
Proof.
  intros Hwf Hinv. unfold updateAvailableUserOperations, dumpOutstanding.
  rewrite (allSendersAndNonceKeys_wellFormed _ Hwf).
  destruct (multicall publicClient _) as [results|e]; [|exact Hinv].
  destruct (promoteLoop _ _ _ _ _) as [avail|e] eqn:E; [|exact Hinv].
  intros h. simpl.
  pose proof (promoteLoop_count (hasHash h) _ _ _ _ _ _
                (distinctPairs_NoDup _) E) as Hc.
  pose proof (countIf_filter_le
                (pairAmong (distinctPairs (outstandingUserOperations st)))
                (hasHash h) (outstandingUserOperations st)) as Hle.
  unfold countHash. simpl in Hc. lia.
Qed.

Lemma Forall_splice1 {A : Type} (P : A -> Prop) arr i :
  Forall P arr -> Forall P (splice1 i arr).
Proof.
  intros H. revert i. induction H as [|a arr Ha H IH]; intros [|i]; simpl;
    try constructor; auto.
Qed.

Lemma removeOutstanding_wellFormed st h :
  Forall wellFormedSender (outstandingUserOperations st) ->
  Forall wellFormedSender (outstandingUserOperations (removeOutstanding st h)).
Proof.
  intros H. unfold removeOutstanding.
  destruct (findIndex _ (outstandingUserOperations st)); [|assumption].
  destruct (findIndex _ (avaiableOutstandingUserOperations st)); simpl;
    now apply Forall_splice1.
Qed.

Lemma step_invariant st c :
  wellFormedCall c ->
  Forall wellFormedSender (outstandingUserOperations st) ->
  availableWithinOutstanding st ->
  Forall wellFormedSender (outstandingUserOperations (step st c)) /\
  availableWithinOutstanding (step st c).
Proof.
  intros Hc Hwf Hinv. destruct c; simpl.
  - split.
    + apply Forall_app. split; [assumption|]. constructor; [exact Hc|constructor].
    + intros h. simpl. unfold countHash. rewrite countIf_app. specialize (Hinv h).
      unfold countHash in Hinv. lia.
  - split; assumption.
  - split; assumption.
  - split; [now apply removeOutstanding_wellFormed|now apply removeOutstanding_invariant].
  - unfold removeProcessing. destruct (findIndex _ _); split; assumption.
  - unfold removeSubmitted. destruct (findIndex _ _); split; assumption.
  - split.
    + now rewrite updateAvailableUserOperations_outstanding.
    + now apply updateAvailableUserOperations_invariant.
Qed.

Lemma fold_step_invariant calls : forall st,
  Forall wellFormedCall calls ->
  Forall wellFormedSender (outstandingUserOperations st) ->
  availableWithinOutstanding st ->
  Forall wellFormedSender (outstandingUserOperations (fold_left step calls st)) /\
  availableWithinOutstanding (fold_left step calls st).
Proof.
  induction calls as [|c calls IH]; intros st Hcalls Hwf Hinv; simpl; [now split|].
  inversion Hcalls as [|? ? Hc Hcalls']; subst.
  destruct (step_invariant st c Hc Hwf Hinv) as [Hwf' Hinv'].
  now apply IH.
Qed.

Lemma run_invariant calls :
  Forall wellFormedCall calls ->
  Forall wellFormedSender (outstandingUserOperations (run calls)) /\
  availableWithinOutstanding (run calls).
Proof.
  intros Hcalls. apply fold_step_invariant; [assumption|constructor|].
  intros h. simpl. lia.
Qed.

Lemma promoteLoop_promoted pairs results ops avail :
  promoteLoop 0 pairs results ops [] = Ok avail ->
  forall op,
    In op avail <->
    In op ops /\
    exists i nv,
      nth_error pairs i = Some (pairOf op) /\
      nth_error results i = Some (Success nv) /\
      nonceValueOf op = nv.
Proof.
  intros H op. rewrite (promoteLoop_In _ _ _ _ _ _ H op). simpl. split.
  - intros [[]|(k & p & nv & Hk & Hr & Hin & Hm)].
    apply matchesNonce_spec in Hm. destruct Hm as [Hp Hv].
    split; [assumption|]. exists k, nv. rewrite Hp. destruct p. auto.
  - intros [Hin (i & nv & Hk & Hr & Hv)]. right.
    exists i, (pairOf op), nv. repeat split; auto.
    apply matchesNonce_spec. split; [now destruct (pairOf op)|assumption].
Qed.

(** C1: after a run of [updateAvailableUserOperations] whose multicall
    answered every call, the available-outstanding list holds exactly the
    operations of the outstanding snapshot whose [(sender, nonceKey)] pair
    got a successful result carrying their own nonce value; every operation
    of the snapshot belongs to exactly one queried pair; the operations of a
    pair whose call failed are not in the new list and are still in
    outstanding, which the run does not change.  Senders are addresses. *)
Theorem updateAvailableUserOperations_exact :
  forall st publicClient ep results,
    Forall wellFormedSender (outstandingUserOperations st) ->
    let pairs := distinctPairs (outstandingUserOperations st) in
    multicall publicClient (nonceContracts ep pairs) = Ok results ->
    (length pairs <= length results)%nat ->
    exists st',
      updateAvailableUserOperations st publicClient ep = (st', Ok tt) /\
      outstandingUserOperations st' = outstandingUserOperations st /\
      allSendersAndNonceKeys (outstandingUserOperations st) = Ok pairs /\
      NoDup pairs /\
      (forall op, In op (outstandingUserOperations st) -> In (pairOf op) pairs) /\
      (forall op,
          In op (avaiableOutstandingUserOperations st') <->
          In op (outstandingUserOperations st) /\
          exists i nv,
            nth_error pairs i = Some (pairOf op) /\
            nth_error results i = Some (Success nv) /\
            nonceValueOf op = nv) /\
      (forall op i err,
          In op (outstandingUserOperations st) ->
          nth_error pairs i = Some (pairOf op) ->
          nth_error results i = Some (Failure err) ->
          ~ In op (avaiableOutstandingUserOperations st') /\
          In op (outstandingUserOperations st')).
Proof.
  intros st publicClient ep results Hwf pairs Hcall Hlen.
  pose proof (allSendersAndNonceKeys_wellFormed _ Hwf) as Hpairs. fold pairs in Hpairs.
  unfold updateAvailableUserOperations, dumpOutstanding. rewrite Hpairs, Hcall.
  destruct (promoteLoop_returns pairs results (outstandingUserOperations st) 0 [])
    as [avail E]; [simpl; lia|].
  rewrite E. eexists. split; [reflexivity|]. simpl.
  assert (Hnd : NoDup pairs) by apply distinctPairs_NoDup.
  split; [reflexivity|]. split; [reflexivity|]. split; [assumption|]. split; [|split].
  - intros op Hin. apply distinctPairs_In. now exists op.
  - apply (promoteLoop_promoted _ _ _ _ E).
  - intros op i err Hin Hi Hr. split; [|assumption].
    intros Hav. apply (promoteLoop_promoted _ _ _ _ E) in Hav.
    destruct Hav as [_ (j & nv & Hj & Hrj & _)].
    assert (i = j).
    { apply (proj1 (NoDup_nth_error pairs) Hnd).
      - apply nth_error_Some. congruence.
      - congruence. }
    subst j. congruence.
Qed.

Lemma updateAvailableUserOperations_exact_witness :
  exists st',
    updateAvailableUserOperations sampleStore (oracleClient sampleOracle) "0xEP"%string
    = (st', Ok tt) /\
    outstandingUserOperations st' = [opB7; opA0; opB6; opC3] /\
    (In opB6 (avaiableOutstandingUserOperations st') /\
     ~ In opC3 (avaiableOutstandingUserOperations st')).
Proof.
  destruct (updateAvailableUserOperations_exact sampleStore (oracleClient sampleOracle)
              "0xEP"%string [Success 6; Success 0; Failure "execution reverted"])
    as (st' & Hrun & Hout & _ & _ & _ & Hiff & Hfail).
  - repeat constructor.
  - reflexivity.
  - vm_compute. lia.
  - exists st'. split; [exact Hrun|]. split; [exact Hout|]. split.
    + apply Hiff. split; [simpl; auto|]. exists 0%nat, 6. repeat split.
    + apply (Hfail opC3 2%nat "execution reverted"%string);
        [simpl; auto|reflexivity|reflexivity].
Defined.

(** C4: when the multicall fails as a whole, [updateAvailableUserOperations]
    throws that same error and the four lists of the store are what they
    were before the call. *)
Theorem updateAvailableUserOperations_multicall_failure :
  forall st publicClient ep pairs e,
    allSendersAndNonceKeys (dumpOutstanding st) = Ok pairs ->
    multicall publicClient (nonceContracts ep pairs) = Throw e ->
    forall st' r,
      updateAvailableUserOperations st publicClient ep = (st', r) ->
      r = Throw e /\
      avaiableOutstandingUserOperations st' = avaiableOutstandingUserOperations st /\
      outstandingUserOperations st' = outstandingUserOperations st /\
      processingUserOperations st' = processingUserOperations st /\
      submittedUserOperations st' = submittedUserOperations st.
Proof.
  intros st publicClient ep pairs e Hpairs Hcall st' r.
  unfold updateAvailableUserOperations. rewrite Hpairs, Hcall.
  intros [= <- <-]. repeat split.
Qed.

Lemma updateAvailableUserOperations_multicall_failure_witness :
  fst (updateAvailableUserOperations sampleStore
         (failingClient (JsError "HTTP request failed")) "0xEP"%string) = sampleStore /\
  snd (updateAvailableUserOperations sampleStore
         (failingClient (JsError "HTTP request failed")) "0xEP"%string)
  = Throw (JsError "HTTP request failed").
Proof.
  destruct (updateAvailableUserOperations_multicall_failure sampleStore
              (failingClient (JsError "HTTP request failed")) "0xEP"%string
              [("0xB"%string, 0); ("0xA"%string, 0); ("0xC"%string, 1)]
              (JsError "HTTP request failed") eq_refl eq_refl _ _ eq_refl)
    as (Hr & _).
  split; [reflexivity | exact Hr].
Defined.

Lemma invariant_subset st :
  availableWithinOutstanding st ->
  forall h,
    In h (hashes (avaiableOutstandingUserOperations st)) ->
    In h (hashes (outstandingUserOperations st)).
Proof.
  intros Hinv h Hin. apply In_hashes_countHash in Hin. apply In_hashes_countHash.
  specialize (Hinv h). lia.
Qed.

(** *** Overlapping reconciliations *)

Lemma updateAvailableUserOperations_start_resume st publicClient ep :
  updateAvailableUserOperations st publicClient ep
  = match startUpdate st publicClient ep with
    | Throw e => (st, Throw e)
    | Ok pending => resumeUpdate st pending
    end.
Proof.
  unfold updateAvailableUserOperations, startUpdate, resumeUpdate.
  destruct (allSendersAndNonceKeys (dumpOutstanding st)) as [pairs|e]; reflexivity.
Qed.

(** Calls that do not overlap are events of the [Invoke] kind. *)
Lemma fold_stepEvent_Invoke calls : forall s,
  fold_left stepEvent (map Invoke calls) s
  = {| store := fold_left step calls (store s); waiting := waiting s |}.
Proof.
  induction calls as [|c calls IH]; intros s; simpl; [now destruct s|].
  now rewrite IH.
Qed.

Lemma runEvents_Invoke calls : store (runEvents (map Invoke calls)) = run calls.
Proof.
  unfold runEvents. now rewrite fold_stepEvent_Invoke.
Qed.

Lemma step_outstanding_grows st c :
  (forall h, c <> RemoveOutstanding h) ->
  forall h,
    (countHash h (outstandingUserOperations st)
     <= countHash h (outstandingUserOperations (step st c)))%nat.
Proof.
  intros Hc h. destruct c; simpl.
  - unfold countHash. rewrite countIf_app. lia.
  - lia.
  - lia.
  - exfalso. now apply (Hc userOpHash).
  - unfold removeProcessing. destruct (findIndex _ _); simpl; lia.
  - unfold removeSubmitted. destruct (findIndex _ _); simpl; lia.
  - rewrite updateAvailableUserOperations_outstanding. lia.
Qed.

Lemma pendingWithin_grows st st' pending :
  (forall h, (countHash h (outstandingUserOperations st)
              <= countHash h (outstandingUserOperations st'))%nat) ->
  pendingWithin st pending -> pendingWithin st' pending.
Proof.
  intros Hle (Hwf & Hpairs & Hcount). split; [assumption|]. split; [assumption|].
  intros h. specialize (Hle h). specialize (Hcount h). lia.
Qed.

Lemma resumeUpdate_invariant st pending :
  pendingWithin st pending ->
  availableWithinOutstanding st ->
  outstandingUserOperations (fst (resumeUpdate st pending)) = outstandingUserOperations st /\
  availableWithinOutstanding (fst (resumeUpdate st pending)).
Proof.
  intros (Hwf & Hpairs & Hcount) Hinv. unfold resumeUpdate.
  destruct (pendingAnswer pending) as [results|e]; [|now split].
  destruct (promoteLoop _ _ _ _ _) as [avail|e] eqn:E; [|now split].
  split; [reflexivity|]. intros h. simpl. rewrite Hpairs in E.
  pose proof (promoteLoop_count (hasHash h) _ _ _ _ _ _
                (distinctPairs_NoDup _) E) as Hc.
  pose proof (countIf_filter_le (pairAmong (distinctPairs (pendingOps pending)))
                (hasHash h) (pendingOps pending)) as Hle.
  specialize (Hcount h). unfold countHash in *. simpl in Hc. lia.
Qed.

Lemma stepEvent_invariant s ev :
  wellFormedEvent ev ->
  match ev with
  | Invoke (RemoveOutstanding _) => waiting s = []
  | _ => True
  end ->
  scheduledInvariant s -> scheduledInvariant (stepEvent s ev).
Proof.
  intros Hev Hquiet (Hwf & Hinv & Hpend). destruct ev as [c|publicClient ep|i].
  - destruct (step_invariant (store s) c Hev Hwf Hinv) as [Hwf' Hinv'].
    split; [exact Hwf'|]. split; [exact Hinv'|]. cbn [stepEvent store waiting].
    destruct c;
      try (eapply Forall_impl; [|exact Hpend]; intros pending;
           apply pendingWithin_grows; apply step_outstanding_grows; discriminate).
    rewrite Hquiet. constructor.
  - cbn [stepEvent]. unfold startUpdate, dumpOutstanding.
    rewrite (allSendersAndNonceKeys_wellFormed _ Hwf). cbn [bind store waiting].
    split; [exact Hwf|]. split; [exact Hinv|].
    apply Forall_app. split; [exact Hpend|]. constructor; [|constructor].
    split; [exact Hwf|]. split; [reflexivity|]. intros h. cbn [pendingOps store]. lia.
  - cbn [stepEvent]. destruct (nth_error (waiting s) i) as [pending|] eqn:En;
      [|now repeat split].
    assert (Hp : pendingWithin (store s) pending).
    { rewrite Forall_forall in Hpend. apply Hpend. eapply nth_error_In. exact En. }
    destruct (resumeUpdate_invariant (store s) pending Hp Hinv) as [Hout Hinv'].
    unfold scheduledInvariant. cbn [store waiting].
    split; [now rewrite Hout|]. split; [exact Hinv'|].
    apply Forall_splice1. eapply Forall_impl; [|exact Hpend]. intros q.
    apply pendingWithin_grows. intros h. rewrite Hout. lia.
Qed.

Lemma fold_stepEvent_invariant events : forall s,
  Forall wellFormedEvent events ->
  noRemovalWhileWaiting s events ->
  scheduledInvariant s ->
  scheduledInvariant (fold_left stepEvent events s).
Proof.
  induction events as [|ev events IH]; intros s Hwf Hquiet Hinv; [exact Hinv|].
  inversion Hwf as [|? ? Hev Hwf']; subst. destruct Hquiet as [Hq Hquiet'].
  cbn [fold_left]. apply IH; [assumption|assumption|].
  now apply stepEvent_invariant.
Qed.

(** C2, as stated, fails in two ways.  A [removeOutstanding] that is called
    while a reconciliation waits for its multicall takes its operation out of
    outstanding, after which the reconciliation publishes that operation from
    its copy: hash [h2] ends in available-outstanding while outstanding is
    empty.  And of an operation admitted twice, [removeOutstanding] takes one
    entry out of each list, so that its hash is in available-outstanding
    still. *)
Lemma overlapping_removal_counterexample :
  let overlapped :=
    store (runEvents [Invoke (AddOutstanding opA0);
                      Start (oracleClient sampleOracle) "0xEP"%string;
                      Invoke (RemoveOutstanding "h2"%string);
                      Settle 0]) in
  let twice :=
    run [AddOutstanding opA0; AddOutstanding opA0;
         UpdateAvailableUserOperations (oracleClient sampleOracle) "0xEP"%string] in
  (hashes (avaiableOutstandingUserOperations overlapped) = ["h2"%string] /\
   hashes (outstandingUserOperations overlapped) = []) /\
  (hashes (avaiableOutstandingUserOperations twice) = ["h2"%string; "h2"%string] /\
   hashes (avaiableOutstandingUserOperations (removeOutstanding twice "h2"%string))
   = ["h2"%string]) /\
  ~ (forall events,
        Forall wellFormedEvent events ->
        forall h,
          In h (hashes (avaiableOutstandingUserOperations (store (runEvents events)))) ->
          In h (hashes (outstandingUserOperations (store (runEvents events))))).
Proof.
  split; [vm_compute; split; reflexivity|]. split; [vm_compute; split; reflexivity|].
  intros H.
  apply (H [Invoke (AddOutstanding opA0);
            Start (oracleClient sampleOracle) "0xEP"%string;
            Invoke (RemoveOutstanding "h2"%string);
            Settle 0%nat]
           ltac:(repeat constructor) "h2"%string).
  vm_compute. now left.
Qed.

(** C2, amended: starting from the empty store, after any succession of
    [addOutstanding] (of operations whose sender is an address),
    [addProcessing], [addSubmitted], [removeOutstanding], [removeProcessing],
    [removeSubmitted] and [updateAvailableUserOperations] calls, overlapping
    or not, in which no [removeOutstanding] is called while a reconciliation
    waits for its multicall, every hash present in available-outstanding is
    present in outstanding; and for a hash [h] present in
    available-outstanding, [removeOutstanding h] takes the first entry with
    hash [h] out of both lists, after which [h] is gone from
    available-outstanding when it was held there once; in any case no hash is
    left behind in available-outstanding that [removeOutstanding] has taken
    out of outstanding. *)
Theorem available_subset_outstanding :
  forall events : list Event,
    Forall wellFormedEvent events ->
    noRemovalWhileWaiting initialScheduled events ->
    let st := store (runEvents events) in
    (forall h,
        In h (hashes (avaiableOutstandingUserOperations st)) ->
        In h (hashes (outstandingUserOperations st))) /\
    (forall h h',
        In h' (hashes (avaiableOutstandingUserOperations (removeOutstanding st h))) ->
        In h' (hashes (outstandingUserOperations (removeOutstanding st h)))) /\
    (forall h,
        In h (hashes (avaiableOutstandingUserOperations st)) ->
        let st' := removeOutstanding st h in
        (exists pre op post,
            avaiableOutstandingUserOperations st = pre ++ op :: post /\
            userOperationHash op = h /\
            ~ In h (hashes pre) /\
            avaiableOutstandingUserOperations st' = pre ++ post) /\
        (exists pre op post,
            outstandingUserOperations st = pre ++ op :: post /\
            userOperationHash op = h /\
            ~ In h (hashes pre) /\
            outstandingUserOperations st' = pre ++ post) /\
        (countHash h (avaiableOutstandingUserOperations st) = 1%nat ->
         ~ In h (hashes (avaiableOutstandingUserOperations st')))).
Proof.
  intros events Hevents Hquiet st.
  assert (Hinv : availableWithinOutstanding st).
  { apply (fold_stepEvent_invariant events initialScheduled Hevents Hquiet).
    split; [constructor|]. split; [|constructor]. intros h. simpl. lia. }
  pose proof (invariant_subset st Hinv) as Hsub.
  split; [exact Hsub|]. split.
  { intros h. apply invariant_subset. now apply removeOutstanding_invariant. }
  intros h Hin st'.
  assert (Hpre : forall pre, (forall y, In y pre -> hasHash h y = false) ->
                             ~ In h (hashes pre)).
  { intros pre Hp Hh. apply in_map_iff in Hh. destruct Hh as [y [Hy Hyin]].
    apply hasHash_true in Hy. rewrite (Hp y Hyin) in Hy. discriminate. }
  destruct (findIndex (hasHash h) (outstandingUserOperations st)) as [i|] eqn:Ho.
  2:{ exfalso. apply Hsub in Hin. apply In_hashes_countHash in Hin.
      rewrite (countHash_findIndex_None _ _ Ho) in Hin. lia. }
  destruct (findIndex (hasHash h) (avaiableOutstandingUserOperations st)) as [j|] eqn:Ha.
  2:{ exfalso. apply In_hashes_countHash in Hin.
      rewrite (countHash_findIndex_None _ _ Ha) in Hin. lia. }
  assert (Hav' : avaiableOutstandingUserOperations st'
                 = splice1 j (avaiableOutstandingUserOperations st)).
  { unfold st', removeOutstanding. now rewrite Ho, Ha. }
  assert (Hout' : outstandingUserOperations st'
                  = splice1 i (outstandingUserOperations st)).
  { unfold st', removeOutstanding. now rewrite Ho, Ha. }
  split; [|split].
  - destruct (findIndex_splice1 _ _ _ Ha) as (pre & op & post & E & Hop & Hp & Hs).
    exists pre, op, post. rewrite Hav', Hs. repeat split; auto.
    now apply hasHash_true.
  - destruct (findIndex_splice1 _ _ _ Ho) as (pre & op & post & E & Hop & Hp & Hs).
    exists pre, op, post. rewrite Hout', Hs. repeat split; auto.
    now apply hasHash_true.
  - intros Hone Hstill. apply In_hashes_countHash in Hstill. rewrite Hav' in Hstill.
    pose proof (countHash_splice1 h h _ _ Ha) as Hc.
    rewrite String.eqb_refl in Hc. lia.
Qed.

Lemma available_subset_outstanding_witness :
  let st := store (runEvents
                     [Invoke (AddOutstanding opB6);
                      Start (oracleClient sampleOracle) "0xEP"%string;
                      Invoke (AddOutstanding opA0);
                      Settle 0]) in
  In "h3"%string (hashes (outstandingUserOperations st)) /\
  ~ In "h3"%string (hashes (avaiableOutstandingUserOperations (removeOutstanding st "h3"%string))).
Proof.
  intros st.
  destruct (available_subset_outstanding
              [Invoke (AddOutstanding opB6);
               Start (oracleClient sampleOracle) "0xEP"%string;
               Invoke (AddOutstanding opA0);
               Settle 0])
    as (Hsub & _ & Hrem).
  { repeat constructor. }
  { simpl. repeat split. }
  assert (Hin : In "h3"%string (hashes (avaiableOutstandingUserOperations st)))
    by (vm_compute; auto).
  split.
  - apply Hsub. exact Hin.
  - apply (Hrem "h3"%string Hin). reflexivity.
Defined.

(** *** Order of the published list *)

Lemma sameOp_true x y : sameOp x y = true <-> x = y.
Proof.
  unfold sameOp. destruct (UserOperationInfo_eq_dec x y); split; congruence.
Qed.

Lemma existsb_sameOp y l : existsb (sameOp y) l = true <-> In y l.
Proof.
  rewrite existsb_exists. split.
  - intros [z [Hz Hs]]. apply sameOp_true in Hs. now subst.
  - intros H. exists y. split; [assumption|]. now apply sameOp_true.
Qed.

Lemma appearsBefore_spec x y l :
  appearsBefore x y l = true <-> exists l1 l2 l3, l = l1 ++ x :: l2 ++ y :: l3.
Proof.
  induction l as [|z l IH]; simpl.
  - split; [discriminate|]. intros (l1 & l2 & l3 & H). destruct l1; discriminate.
  - rewrite orb_true_iff, andb_true_iff, sameOp_true, existsb_sameOp, IH. split.
    + intros [[-> Hy]|(l1 & l2 & l3 & ->)].
      * apply in_split in Hy. destruct Hy as (l2 & l3 & ->). now exists [], l2, l3.
      * now exists (z :: l1), l2, l3.
    + intros ([|z' l1] & l2 & l3 & H); simpl in H; injection H as -> ->.
      * left. split; [reflexivity|]. apply in_or_app. right. now left.
      * right. now exists l1, l2, l3.
Qed.

Lemma appearsBefore_filter f x y l :
  f x = true -> f y = true ->
  appearsBefore x y l = true -> appearsBefore x y (filter f l) = true.
Proof.
  intros Hx Hy H. apply appearsBefore_spec in H. destruct H as (l1 & l2 & l3 & ->).
  apply appearsBefore_spec.
  exists (filter f l1), (filter f l2), (filter f l3).
  rewrite filter_app. simpl. rewrite Hx, filter_app. simpl. now rewrite Hy.
Qed.

Lemma appearsBefore_within x y pre m post :
  appearsBefore x y m = true -> appearsBefore x y (pre ++ m ++ post) = true.
Proof.
  intros H. apply appearsBefore_spec in H. destruct H as (l1 & l2 & l3 & ->).
  apply appearsBefore_spec. exists (pre ++ l1), l2, (l3 ++ post).
  repeat (rewrite <- app_assoc; simpl). reflexivity.
Qed.

Lemma appearsBefore_app x y l m :
  appearsBefore x y (l ++ m) = true ->
  appearsBefore x y l = true \/ (In x l /\ In y m) \/ appearsBefore x y m = true.
Proof.
  induction l as [|z l IH]; simpl.
  - auto.
  - rewrite !orb_true_iff, !andb_true_iff, sameOp_true, !existsb_sameOp, in_app_iff.
    intros [[-> [Hy|Hy]]|H]; auto.
    destruct (IH H) as [H1|[[H1 H2]|H1]]; auto.
Qed.

(** The list the loop builds, block by block. *)
Lemma promoteLoop_blocks pairs results ops : forall i acc avail,
  promoteLoop i pairs results ops acc = Ok avail ->
  avail = acc ++ flat_map (promotedBlock ops) (combine pairs (skipn i results)).
Proof.
  induction pairs as [|p pairs IH]; intros i acc avail H; simpl in H.
  - injection H as <-. simpl. now rewrite app_nil_r.
  - rewrite nth_error_skipn_hd in H.
    pose proof (skipn_S_tl results i) as Ht.
    destruct (skipn i results) as [|r rs]; simpl in H; [discriminate|].
    cbn [tl] in Ht. destruct r as [nv|err].
    + apply IH in H. rewrite Ht in H. rewrite H. simpl.
      unfold promotedBlock at 2. simpl. now rewrite <- app_assoc.
    + apply IH in H. rewrite Ht in H. rewrite H. reflexivity.
Qed.

Lemma promotedBlock_In ops p r x :
  In x (promotedBlock ops (p, r)) ->
  pairOf x = p /\ exists nv, r = Success nv /\ nonceValueOf x = nv /\ In x ops.
Proof.
  unfold promotedBlock. simpl. destruct r as [nv|err]; [|intros []].
  intros H. apply filter_In in H. destruct H as [Hin Hm].
  apply matchesNonce_spec in Hm. destruct Hm as [Hp Hv].
  split; [now destruct p|]. exists nv. auto.
Qed.

Lemma combine_fst_unique {B : Type} (l : list SenderNonceKeyPair) : forall (l' : list B) p r r',
  NoDup l -> In (p, r) (combine l l') -> In (p, r') (combine l l') -> r = r'.
Proof.
  induction l as [|a l IH]; intros [|b l'] p r r' Hnd H1 H2; simpl in *; try contradiction.
  inversion Hnd as [|? ? Ha Hnd']; subst.
  destruct H1 as [H1|H1], H2 as [H2|H2].
  - congruence.
  - injection H1 as -> ->. apply in_combine_l in H2. contradiction.
  - injection H2 as -> ->. apply in_combine_l in H1. contradiction.
  - eapply IH; eauto.
Qed.

Lemma combine_fst_prefix {B : Type} (l : list SenderNonceKeyPair) : forall (l' : list B),
  exists rest, l = map fst (combine l l') ++ rest.
Proof.
  induction l as [|a l IH]; intros l'.
  - now exists [].
  - destruct l' as [|b l']; simpl.
    + now exists (a :: l).
    + destruct (IH l') as [rest Hr]. exists rest. now rewrite <- Hr.
Qed.

(** Two operations of different pairs that follow each other in the blocks
    come from pairs that follow each other in the list of pairs. *)
Lemma blocks_order ops x y : forall L,
  pairOf x <> pairOf y ->
  appearsBefore x y (flat_map (promotedBlock ops) L) = true ->
  exists P1 P2 P3, map fst L = P1 ++ pairOf x :: P2 ++ pairOf y :: P3.
Proof.
  intros L Hne. induction L as [|[p r] L IH]; simpl; [discriminate|].
  intros H. apply appearsBefore_app in H. destruct H as [H|[[Hx Hy]|H]].
  - exfalso. apply appearsBefore_spec in H. destruct H as (l1 & l2 & l3 & E).
    assert (Hx : In x (promotedBlock ops (p, r))).
    { rewrite E. apply in_or_app. right. now left. }
    assert (Hy : In y (promotedBlock ops (p, r))).
    { rewrite E. apply in_or_app. right. right. apply in_or_app. right. now left. }
    apply promotedBlock_In in Hx, Hy. destruct Hx as [Hx _], Hy as [Hy _]. congruence.
  - apply promotedBlock_In in Hx. destruct Hx as [Hx _].
    apply in_flat_map in Hy. destruct Hy as ([q r'] & Hq & Hy).
    apply promotedBlock_In in Hy. destruct Hy as [Hy _].
    apply in_split in Hq. destruct Hq as (L1 & L2 & ->).
    exists [], (map fst L1), (map fst L2). rewrite map_app. simpl. congruence.
  - destruct (IH H) as (P1 & P2 & P3 & E). exists (p :: P1), P2, P3.
    simpl. now rewrite E.
Qed.

Lemma findIndex_map {A B : Type} (h : A -> B) (f : B -> bool) l :
  findIndex f (map h l) = findIndex (fun x => f (h x)) l.
Proof.
  induction l as [|a l IH]; simpl; [reflexivity|]. now rewrite IH.
Qed.

(** C3, as stated, fails: with outstanding [opB7; opA0; opB6; opC3] and an
    oracle that promotes [opA0] and [opB6], the operation [opA0] was admitted
    before [opB6] but is published after it, because the pair of [opB6] made
    its first appearance (with [opB7]) before the pair of [opA0]. *)
Lemma admission_order_counterexample :
  ~ (forall st publicClient ep st' x y,
        Forall wellFormedSender (outstandingUserOperations st) ->
        updateAvailableUserOperations st publicClient ep = (st', Ok tt) ->
        In x (avaiableOutstandingUserOperations st') ->
        In y (avaiableOutstandingUserOperations st') ->
        appearsBefore x y (outstandingUserOperations st) = true ->
        appearsBefore x y (avaiableOutstandingUserOperations st') = true).
Proof.
  intros H.
  specialize (H sampleStore (oracleClient sampleOracle) "0xEP"%string
                {| outstandingUserOperations := [opB7; opA0; opB6; opC3];
                   avaiableOutstandingUserOperations := [opB6; opA0];
                   processingUserOperations := [];
                   submittedUserOperations := [] |}
                opA0 opB6).
  assert (Hf : appearsBefore opA0 opB6 [opB6; opA0] = false) by (vm_compute; reflexivity).
  simpl avaiableOutstandingUserOperations in H. rewrite Hf in H.
  assert (false = true); [|discriminate].
  apply H.
  - repeat constructor.
  - vm_compute. reflexivity.
  - simpl. auto.
  - simpl. auto.
  - vm_compute. reflexivity.
Qed.

(** C3, amended: [updateAvailableUserOperations] publishes the promoted
    operations grouped by [(sender, nonceKey)] pair.  Two promoted operations
    of one pair keep the relative order in which they were admitted to
    outstanding; of two promoted operations of different pairs, the one
    published first is the one whose pair makes its first appearance earlier
    in the outstanding snapshot. *)
Theorem updateAvailableUserOperations_order :
  forall st publicClient ep st',
    Forall wellFormedSender (outstandingUserOperations st) ->
    updateAvailableUserOperations st publicClient ep = (st', Ok tt) ->
    forall x y,
      In x (avaiableOutstandingUserOperations st') ->
      In y (avaiableOutstandingUserOperations st') ->
      (pairOf x = pairOf y ->
       appearsBefore x y (outstandingUserOperations st) = true ->
       appearsBefore x y (avaiableOutstandingUserOperations st') = true) /\
      (pairOf x <> pairOf y ->
       appearsBefore x y (avaiableOutstandingUserOperations st') = true ->
       exists a b,
         findIndex (hasPair (pairOf x)) (outstandingUserOperations st) = Some a /\
         findIndex (hasPair (pairOf y)) (outstandingUserOperations st) = Some b /\
         (a < b)%nat).
Proof.
  intros st publicClient ep st' Hwf.
  unfold updateAvailableUserOperations, dumpOutstanding.
  rewrite (allSendersAndNonceKeys_wellFormed _ Hwf).
  destruct (multicall publicClient _) as [results|e]; [|discriminate].
  destruct (promoteLoop _ _ _ _ _) as [avail|e] eqn:E; [|discriminate].
  intros [= <-]. simpl. apply promoteLoop_blocks in E. simpl in E.
  set (ops := outstandingUserOperations st) in *.
  set (pairs := distinctPairs ops) in *.
  set (L := combine pairs results) in *.
  intros x y Hx Hy. split.
  - intros Hpair Hbefore. rewrite E in Hx, Hy.
    apply in_flat_map in Hx, Hy.
    destruct Hx as ([p r] & HpL & Hx), Hy as ([q r'] & HqL & Hy).
    pose proof (promotedBlock_In _ _ _ _ Hx) as (Hpx & nv & -> & Hvx & _).
    pose proof (promotedBlock_In _ _ _ _ Hy) as (Hqy & nv' & -> & Hvy & _).
    assert (Hqp : q = p) by congruence. rewrite Hqp in HqL, Hy.
    assert (Hr : Success nv = Success nv').
    { exact (combine_fst_unique pairs results p _ _ (distinctPairs_NoDup _) HpL HqL). }
    injection Hr as <-.
    apply in_split in HpL. destruct HpL as (L1 & L2 & HL).
    rewrite E, HL, flat_map_app. simpl.
    apply appearsBefore_within. unfold promotedBlock. simpl.
    apply appearsBefore_filter; [| |assumption].
    + apply matchesNonce_spec. split; [now destruct p|assumption].
    + apply matchesNonce_spec. split; [destruct p; simpl; congruence|assumption].
  - intros Hne Hbefore. rewrite E in Hbefore.
    destruct (blocks_order ops x y L Hne Hbefore) as (P1 & P2 & P3 & HP).
    destruct (combine_fst_prefix pairs results) as [rest Hrest].
    fold L in Hrest. rewrite HP in Hrest.
    destruct (fold_setAdd_order pairEqb pairEqb_eq (map pairOf ops) [])
      as (t & Ht & _ & Hord).
    simpl in Ht.
    assert (Hpairs : pairs = t) by exact Ht.
    destruct (Hord P1 (pairOf x) P2 (pairOf y) (P3 ++ rest)) as (a & b & Ha & Hb & Hab).
    { rewrite <- Hpairs, Hrest. repeat (rewrite <- app_assoc; simpl). reflexivity. }
    exists a, b. rewrite findIndex_map in Ha, Hb. auto.
Qed.

Lemma updateAvailableUserOperations_order_witness :
  exists a b,
    findIndex (hasPair (pairOf opB6)) [opB7; opA0; opB6; opC3] = Some a /\
    findIndex (hasPair (pairOf opA0)) [opB7; opA0; opB6; opC3] = Some b /\
    (a < b)%nat.
Proof.
  refine (proj2 (updateAvailableUserOperations_order sampleStore
                   (oracleClient sampleOracle) "0xEP"%string
                   {| outstandingUserOperations := [opB7; opA0; opB6; opC3];
                      avaiableOutstandingUserOperations := [opB6; opA0];
                      processingUserOperations := [];
                      submittedUserOperations := [] |}
                   _ _ opB6 opA0 _ _) _ _).
  - repeat constructor.
  - vm_compute. reflexivity.
  - simpl. auto.
  - simpl. auto.
  - vm_compute. discriminate.
  - vm_compute. reflexivity.
Defined.

End MempoolFacts.

(** ** Gas-price manager *)

Section GasPriceFacts.
Import Utils GasPriceManager.

(** *** Bump and floors *)

(** C5, as stated, fails.  On Polygon with a bump of 120 and a gas-station
    answer of 50 gwei / 20 gwei the source raises the priority fee to the
    31 gwei floor first and bumps afterwards (37.2 gwei), where bumping first
    and flooring afterwards gives 31 gwei; on Celo the source in addition
    lifts the priority fee to the max fee. *)
Lemma bump_then_floor_counterexample :
  bumpTheGasPrice polygonConfig
    {| maxFeePerGas := gwei 50; maxPriorityFeePerGas := gwei 20 |}
  = {| maxFeePerGas := gwei 60; maxPriorityFeePerGas := 37200000000 |} /\
  bumpThenFloor polygonConfig
    {| maxFeePerGas := gwei 50; maxPriorityFeePerGas := gwei 20 |}
  = {| maxFeePerGas := gwei 60; maxPriorityFeePerGas := gwei 31 |} /\
  bumpTheGasPrice celoConfig
    {| maxFeePerGas := gwei 20; maxPriorityFeePerGas := gwei 10 |}
  = {| maxFeePerGas := gwei 20; maxPriorityFeePerGas := gwei 20 |} /\
  bumpThenFloor celoConfig
    {| maxFeePerGas := gwei 20; maxPriorityFeePerGas := gwei 10 |}
  = {| maxFeePerGas := gwei 20; maxPriorityFeePerGas := gwei 10 |} /\
  ~ (forall config gasPrice,
        bumpTheGasPrice config gasPrice = bumpThenFloor config gasPrice).
Proof.
  repeat split; try (vm_compute; reflexivity).
  intros H.
  specialize (H polygonConfig
                {| maxFeePerGas := gwei 50; maxPriorityFeePerGas := gwei 20 |}).
  vm_compute in H. discriminate.
Qed.

Lemma getDefaultGasFee_chainFloor config : getDefaultGasFee config = chainFloor config.
Proof. reflexivity. Qed.

(** C5, amended: on every chain other than Celo, Celo-Alfajores, DFK and
    Avalanche, [bumpTheGasPrice] applies the floors first and multiplies
    afterwards: the priority fee is raised to the chain floor (31 gwei on
    Polygon, 1 gwei on Mumbai, 0 elsewhere), the max fee is raised to that
    priority fee, and both are then multiplied by [gasPriceBump / 100] with
    truncation.  On Polygon with a bump of 120, the pair 50 gwei / 40 gwei
    becomes 60 gwei / 48 gwei. *)
Theorem bumpTheGasPrice_floor_then_bump :
  forall config gasPrice,
    chainId config <> ChainId.celo ->
    chainId config <> ChainId.celoAlfajores ->
    chainId config <> ChainId.dfk ->
    chainId config <> ChainId.avalanche ->
    let priority := Z.max (maxPriorityFeePerGas gasPrice) (chainFloor config) in
    let maxFee := Z.max (maxFeePerGas gasPrice) priority in
    bumpTheGasPrice config gasPrice
    = {| maxFeePerGas := Z.quot (maxFee * gasPriceBump config) 100;
         maxPriorityFeePerGas := Z.quot (priority * gasPriceBump config) 100 |} /\
    (chainId config = ChainId.Polygon ->
     gasPriceBump config = 120 ->
     bumpTheGasPrice config
       {| maxFeePerGas := gwei 50; maxPriorityFeePerGas := gwei 40 |}
     = {| maxFeePerGas := gwei 60; maxPriorityFeePerGas := gwei 48 |}).
Proof.
  intros config gasPrice Hcelo Half Hdfk Hava priority maxFee.
  apply Z.eqb_neq in Hcelo, Half, Hdfk, Hava.
  unfold bumpTheGasPrice. rewrite Hcelo, Half, Hdfk, Hava. simpl.
  split; [reflexivity|].
  intros Hpoly Hbump. unfold getDefaultGasFee, maxBigInt. rewrite Hpoly, Hbump. simpl.
  vm_compute. reflexivity.
Qed.

Lemma bumpTheGasPrice_floor_then_bump_witness :
  bumpTheGasPrice polygonConfig
    {| maxFeePerGas := gwei 50; maxPriorityFeePerGas := gwei 40 |}
  = {| maxFeePerGas := gwei 60; maxPriorityFeePerGas := gwei 48 |}.
Proof.
  refine (proj2 (bumpTheGasPrice_floor_then_bump polygonConfig
                   {| maxFeePerGas := gwei 50; maxPriorityFeePerGas := gwei 40 |}
                   _ _ _ _) eq_refl eq_refl);
    vm_compute; discriminate.
Defined.

(** *** Next base fee *)

(** What [getNextBaseFee] computes from a block with a non-zero base fee and
    a non-zero gas target. *)
Lemma getNextBaseFee_branches w block b :
  getBlock w = Ok block ->
  baseFeePerGas block = Some b ->
  b <> 0 ->
  Z.quot (gasLimit block) 2 <> 0 ->
  let u := gasUsed block in
  let T := Z.quot (gasLimit block) 2 in
  getNextBaseFee w =
  Ok (if u =? T then b
      else if u >? T then b + Z.max (Z.quot (Z.quot (b * (u - T)) T) 8) 1
      else b - Z.quot (Z.quot (b * (u - T)) T) 8).
Proof.
  intros Hblock Hb Hb0 HT u T. unfold getNextBaseFee. rewrite Hblock. simpl.
  rewrite Hb. apply Z.eqb_neq in Hb0. rewrite Hb0. simpl.
  fold u T. destruct (u =? T); [reflexivity|].
  unfold bigintDiv. apply Z.eqb_neq in HT. fold T in HT. rewrite HT.
  destruct (u >? T); reflexivity.
Qed.

(** Below the target the source does not lower the base fee: it subtracts a
    delta computed from [gasUsed - gasTarget], which is negative there, and
    so returns [b + b * (T - u) / T / 8]. *)
Lemma getNextBaseFee_below_target w block b :
  getBlock w = Ok block ->
  baseFeePerGas block = Some b ->
  0 < b ->
  let u := gasUsed block in
  let T := Z.quot (gasLimit block) 2 in
  u < T ->
  0 < T ->
  getNextBaseFee w = Ok (b + Z.quot (Z.quot (b * (T - u)) T) 8) /\
  b <= b + Z.quot (Z.quot (b * (T - u)) T) 8.
Proof.
  intros Hblock Hb Hpos u T Hu HT.
  rewrite (getNextBaseFee_branches w block b Hblock Hb); [|lia|fold T; lia].
  fold u T.
  assert (E1 : (u =? T) = false) by (apply Z.eqb_neq; lia).
  assert (E2 : (u >? T) = false) by (rewrite Z.gtb_ltb; apply Z.ltb_ge; lia).
  rewrite E1, E2.
  assert (Hneg : b * (u - T) = - (b * (T - u))) by lia.
  rewrite Hneg, Z.quot_opp_l, Z.quot_opp_l by lia.
  assert (Hq : 0 <= Z.quot (Z.quot (b * (T - u)) T) 8).
  { apply Z.quot_pos; [|lia]. apply Z.quot_pos; [|lia]. nia. }
  split; [f_equal; lia | lia].
Qed.

(** C6 at a block with base fee 1 gwei, no gas used and gas limit
    30 000 000: the formula of the specification gives 0.875 gwei, the source
    returns 1.125 gwei. *)
Theorem getNextBaseFee_empty_block :
  getNextBaseFee quietWorld = Ok 1125000000 /\
  nextBaseFeeFormula 1000000000 0 30000000 = 875000000.
Proof.
  split.
  - pose proof (getNextBaseFee_below_target quietWorld
                  {| baseFeePerGas := Some 1000000000; gasUsed := 0; gasLimit := 30000000 |}
                  1000000000 eq_refl eq_refl) as H.
    simpl in H. destruct H as [H _]; [lia| | |exact H]; vm_compute; reflexivity.
  - vm_compute. reflexivity.
Qed.

(** At and above the target the source follows the formula. *)
Lemma getNextBaseFee_at_or_above_target w block b :
  getBlock w = Ok block ->
  baseFeePerGas block = Some b ->
  b <> 0 ->
  Z.quot (gasLimit block) 2 <> 0 ->
  Z.quot (gasLimit block) 2 <= gasUsed block ->
  getNextBaseFee w = Ok (nextBaseFeeFormula b (gasUsed block) (gasLimit block)).
Proof.
  intros Hblock Hb Hb0 HT Hu.
  rewrite (getNextBaseFee_branches w block b Hblock Hb Hb0 HT).
  unfold nextBaseFeeFormula.
  destruct (gasUsed block =? Z.quot (gasLimit block) 2) eqn:E1; [reflexivity|].
  assert (E2 : (gasUsed block >? Z.quot (gasLimit block) 2) = true).
  { apply Z.eqb_neq in E1. rewrite Z.gtb_ltb. apply Z.ltb_lt. lia. }
  now rewrite E2.
Qed.

(** *** Estimation without an estimator *)

Lemma sumFirstRewards_nonNegative rows :
  Forall (fun row => row <> [] /\ Forall (fun r => 0 <= r) row) rows ->
  forall acc, exists total, sumFirstRewards rows acc = Ok total /\ acc <= total.
Proof.
  induction 1 as [|row rows [Hne Hrow] _ IH]; intros acc; simpl.
  - exists acc. split; [reflexivity|lia].
  - destruct row as [|r0 row]; [contradiction|].
    inversion Hrow; subst.
    destruct (IH (r0 + acc)) as [total [Ht Hle]]. exists total. split; [assumption|lia].
Qed.

(** C10: when the EIP-1559 estimator yields neither fee and no fee-history
    reward is negative, the fallback priority fee, capped at the missing max
    fee taken as 0, is 0; [estimateGasPrice] then returns the next base fee
    as [maxFeePerGas] and its 200th part as [maxPriorityFeePerGas]. *)
Theorem estimateGasPrice_without_estimator :
  forall w feeHistory nextBaseFee,
    yieldsNeitherFee (estimateFeesPerGas w) ->
    getFeeHistory w = Ok feeHistory ->
    rewardsNonNegative feeHistory ->
    getNextBaseFee w = Ok nextBaseFee ->
    getFallBackMaxPriorityFeePerGas w 0 = Ok 0 /\
    estimateGasPrice w
    = Ok {| maxFeePerGas := nextBaseFee;
            maxPriorityFeePerGas := Z.quot nextBaseFee 200 |}.
Proof.
  intros w feeHistory nextBaseFee Hest Hhist Hrew Hnext.
  assert (Hfb : getFallBackMaxPriorityFeePerGas w 0 = Ok 0).
  { unfold getFallBackMaxPriorityFeePerGas. rewrite Hhist. simpl.
    unfold rewardsNonNegative in Hrew. destruct (reward feeHistory) as [rows|];
      [|reflexivity].
    destruct (sumFirstRewards_nonNegative rows Hrew 0) as [total [Ht Hle]].
    rewrite Ht. simpl. unfold minBigInt. f_equal.
    assert (0 <= Z.quot total 10) by (apply Z.quot_pos; lia). lia. }
  split; [assumption|].
  unfold estimateGasPrice.
  assert (Hfees : feesMaxFeePerGas
                    match estimateFeesPerGas w with
                    | Ok f => f
                    | Throw _ => {| feesMaxFeePerGas := None;
                                    feesMaxPriorityFeePerGas := None |}
                    end = None /\
                  feesMaxPriorityFeePerGas
                    match estimateFeesPerGas w with
                    | Ok f => f
                    | Throw _ => {| feesMaxFeePerGas := None;
                                    feesMaxPriorityFeePerGas := None |}
                    end = None).
  { unfold yieldsNeitherFee in Hest. destruct (estimateFeesPerGas w); [assumption|].
    split; reflexivity. }
  destruct Hfees as [-> ->]. rewrite Hfb. simpl. rewrite Hnext. simpl.
  rewrite Z.add_0_r. reflexivity.
Qed.

Lemma estimateGasPrice_without_estimator_witness :
  estimateGasPrice quietWorld
  = Ok {| maxFeePerGas := 1125000000; maxPriorityFeePerGas := 5625000 |}.
Proof.
  refine (proj2 (estimateGasPrice_without_estimator quietWorld
                   {| reward := Some [[3]; [0]; [12]; [5]] |} 1125000000
                   I eq_refl _ _)).
  - unfold rewardsNonNegative. simpl.
    repeat constructor; try discriminate; try lia.
  - vm_compute. reflexivity.
Defined.

(** *** Validation against the window minima *)

Lemma fold_min_spec queue : forall init,
  let m := fold_left (fun acc cur => minBigInt (fee cur) acc) queue init in
  (m = init \/ In m (map fee queue)) /\ m <= init /\
  (forall v, In v (map fee queue) -> m <= v).
Proof.
  induction queue as [|e queue IH]; intros init; simpl.
  - split; [now left|]. split; [lia|]. intros v [].
  - destruct (IH (minBigInt (fee e) init)) as (Hin & Hle & Hall).
    unfold minBigInt in *. split; [|split].
    + destruct Hin as [Hin|Hin]; [|now right; right].
      rewrite Hin.
      destruct (Z.min_spec (fee e) init) as [[_ E]|[_ E]]; rewrite E; auto.
    + lia.
    + intros v [<-|Hv]; [lia|]. now apply Hall.
Qed.

Lemma reduceFees_minimum queue :
  queue <> [] ->
  exists m, reduceFees minBigInt queue = Ok m /\ isMinimumOf m (map fee queue).
Proof.
  destruct queue as [|first rest]; [contradiction|]. intros _.
  eexists. split; [reflexivity|].
  destruct (fold_min_spec (first :: rest) (fee first)) as (Hin & Hle & Hall).
  split; [|exact Hall].
  destruct Hin as [->|Hin]; [now left|assumption].
Qed.

Lemma getMinMaxFeePerGas_nonEmpty config w state :
  queueMaxFeePerGas state <> [] ->
  getMinMaxFeePerGas config w state = (state, reduceFees minBigInt (queueMaxFeePerGas state)).
Proof.
  intros H. unfold getMinMaxFeePerGas, bindM, getsM, liftM, retM.
  destruct (queueMaxFeePerGas state) as [|e q] eqn:E; [contradiction|]. simpl.
  now rewrite E.
Qed.

Lemma getMinMaxPriorityFeePerGas_nonEmpty config w state :
  queueMaxPriorityFeePerGas state <> [] ->
  getMinMaxPriorityFeePerGas config w state
  = (state, reduceFees minBigInt (queueMaxPriorityFeePerGas state)).
Proof.
  intros H. unfold getMinMaxPriorityFeePerGas, bindM, getsM, liftM, retM.
  destruct (queueMaxPriorityFeePerGas state) as [|e q] eqn:E; [contradiction|]. simpl.
  now rewrite E.
Qed.

(** C7: with both fee windows non-empty, [validateGasPrice] returns exactly
    when the proposed [maxFeePerGas] and [maxPriorityFeePerGas] are at least
    the minima stored in their windows, both minima divided by 10^9 first
    when [chainType] is ["hedera"]; otherwise it throws an [RpcError] whose
    message carries the minimum that is violated (that of [maxFeePerGas] when
    both are).  The call leaves the state as it is. *)
Theorem validateGasPrice_iff :
  forall config w state gasPrice,
    queueMaxFeePerGas state <> [] ->
    queueMaxPriorityFeePerGas state <> [] ->
    exists minFee minPriority,
      isMinimumOf minFee (map fee (queueMaxFeePerGas state)) /\
      isMinimumOf minPriority (map fee (queueMaxPriorityFeePerGas state)) /\
      let scale (m : Z) :=
        if String.eqb (chainType config) "hedera" then Z.quot m (10 ^ 9) else m in
      let outcome := validateGasPrice config w gasPrice state in
      fst outcome = state /\
      (snd outcome = Ok tt <->
       scale minFee <= maxFeePerGas gasPrice /\
       scale minPriority <= maxPriorityFeePerGas gasPrice) /\
      (maxFeePerGas gasPrice < scale minFee ->
       let msg := maxFeeTooLowMessage (scale minFee) (maxFeePerGas gasPrice) in
       snd outcome = Throw (RpcError msg) /\
       embeds msg (bigintToString (scale minFee))) /\
      (scale minFee <= maxFeePerGas gasPrice ->
       maxPriorityFeePerGas gasPrice < scale minPriority ->
       let msg :=
         maxPriorityFeeTooLowMessage (scale minPriority) (maxPriorityFeePerGas gasPrice) in
       snd outcome = Throw (RpcError msg) /\
       embeds msg (bigintToString (scale minPriority))).
Proof.
  intros config w state gasPrice HF HP.
  destruct (reduceFees_minimum _ HF) as (minFee & EF & HminF).
  destruct (reduceFees_minimum _ HP) as (minPriority & EP & HminP).
  exists minFee, minPriority. split; [assumption|]. split; [assumption|].
  intros scale outcome.
  assert (Hout : outcome =
            if maxFeePerGas gasPrice <? scale minFee then
              (state, Throw (RpcError (maxFeeTooLowMessage (scale minFee)
                                         (maxFeePerGas gasPrice))))
            else if maxPriorityFeePerGas gasPrice <? scale minPriority then
              (state, Throw (RpcError (maxPriorityFeeTooLowMessage (scale minPriority)
                                         (maxPriorityFeePerGas gasPrice))))
            else (state, Ok tt)).
  { unfold outcome, validateGasPrice, bindM.
    rewrite (getMinMaxFeePerGas_nonEmpty config w state HF), EF.
    rewrite (getMinMaxPriorityFeePerGas_nonEmpty config w state HP), EP.
    fold (scale minFee) (scale minPriority).
    destruct (maxFeePerGas gasPrice <? scale minFee); [reflexivity|].
    destruct (maxPriorityFeePerGas gasPrice <? scale minPriority); reflexivity. }
  rewrite Hout. clear Hout outcome.
  destruct (maxFeePerGas gasPrice <? scale minFee) eqn:E1;
    [apply Z.ltb_lt in E1 | apply Z.ltb_ge in E1].
  - simpl. split; [reflexivity|]. split; [|split].
    + split; [discriminate|lia].
    + intros _. split; [reflexivity|].
      unfold maxFeeTooLowMessage, embeds. eexists _, _. reflexivity.
    + lia.
  - destruct (maxPriorityFeePerGas gasPrice <? scale minPriority) eqn:E2;
      [apply Z.ltb_lt in E2 | apply Z.ltb_ge in E2]; simpl.
    + split; [reflexivity|]. split; [|split].
      * split; [discriminate|lia].
      * lia.
      * intros _ _. split; [reflexivity|].
        unfold maxPriorityFeeTooLowMessage, embeds. eexists _, _. reflexivity.
    + split; [reflexivity|]. split; [|split].
      * split; [lia|reflexivity].
      * lia.
      * lia.
Qed.

Lemma validateGasPrice_iff_witness :
  snd (validateGasPrice hederaConfig quietWorld
         {| maxFeePerGas := 2; maxPriorityFeePerGas := 1 |} sampleState) = Ok tt.
Proof.
  destruct (validateGasPrice_iff hederaConfig quietWorld sampleState
              {| maxFeePerGas := 2; maxPriorityFeePerGas := 1 |})
    as (minFee & minPriority & HF & HP & _ & Hiff & _).
  - discriminate.
  - discriminate.
  - apply Hiff. destruct HF as [HinF HallF], HP as [HinP HallP].
    assert (EF : minFee = 2000000000).
    { destruct HinF as [<-|[<-|[]]]; [|reflexivity].
      specialize (HallF 2000000000 (or_intror (or_introl eq_refl))).
      vm_compute in HallF. exfalso. apply HallF. reflexivity. }
    assert (EP : minPriority = 1000000000).
    { destruct HinP as [<-|[<-|[]]]; [|reflexivity].
      specialize (HallP 1000000000 (or_intror (or_introl eq_refl))).
      vm_compute in HallP. exfalso. apply HallP. reflexivity. }
    rewrite EF, EP. vm_compute. split; discriminate.
Defined.

(** *** Fee queues *)

Lemma nonDecreasing_tl l : nonDecreasing l -> nonDecreasing (tl l).
Proof.
  destruct l as [|x [|y l]]; simpl; tauto.
Qed.

Lemma nonDecreasing_snoc l t :
  nonDecreasing l -> Forall (fun x => x <= t) l -> nonDecreasing (l ++ [t]).
Proof.
  induction l as [|x l IH]; intros Hs Hb; [exact I|].
  inversion Hb as [|? ? Hx Hb']; subst.
  destruct l as [|y l].
  - simpl. split; [assumption|exact I].
  - destruct Hs as [Hxy Hs]. split; [assumption|]. now apply IH.
Qed.

Lemma nonDecreasing_front l x : nonDecreasing (l ++ [x]) -> nonDecreasing l.
Proof.
  induction l as [|a l IH]; intros H; [exact I|].
  destruct l as [|b l]; [exact I|].
  destruct H as [Hab H]. split; [assumption|]. now apply IH.
Qed.

Lemma lastOrNull_None {A : Type} (arr : list A) : lastOrNull arr = None -> arr = [].
Proof.
  unfold lastOrNull. intros H. apply nth_error_None in H.
  destruct arr; [reflexivity|]. simpl in H. lia.
Qed.

Lemma lastOrNull_Some {A : Type} (arr : list A) (x : A) :
  lastOrNull arr = Some x -> arr = removelast arr ++ [x].
Proof.
  unfold lastOrNull. intros H.
  destruct arr as [|a arr]; [discriminate|].
  destruct (exists_last (l := a :: arr)) as (front & y & E); [discriminate|].
  rewrite E in *. rewrite removelast_last.
  rewrite length_app in H. simpl in H.
  rewrite nth_error_app2 in H by lia.
  replace (length front + 1 - 1 - length front)%nat with 0%nat in H by lia.
  simpl in H. congruence.
Qed.

Lemma timestamps_tl queue : timestamps (tl queue) = tl (timestamps queue).
Proof. now destruct queue. Qed.

Section OneQueue.
Variables slice maxQueueSize0 : Z.
Hypothesis capacity : 1 <= maxQueueSize0.

(** Appending, after the eviction of the oldest entry of a full queue. *)
Lemma push_settled queue fee0 lo now :
  lo <= now ->
  queueSettled maxQueueSize0 lo queue ->
  queueSettled maxQueueSize0 now
    ((if Z.of_nat (length queue) >=? maxQueueSize0 then snd (shift queue) else queue)
       ++ [newEntry fee0 now]).
Proof.
  intros Hlo [[Hlen Hsorted] Hbound].
  assert (Hbound' : Forall (fun e => timestamp e <= now) queue).
  { eapply Forall_impl; [|exact Hbound]. simpl. intros e He. lia. }
  assert (Hkeep : forall q',
             Z.of_nat (length q') < maxQueueSize0 ->
             nonDecreasing (timestamps q') ->
             Forall (fun e => timestamp e <= now) q' ->
             queueSettled maxQueueSize0 now (q' ++ [newEntry fee0 now])).
  { intros q' Hl Hs Hb. split; [split|].
    - rewrite length_app. simpl. lia.
    - unfold timestamps. rewrite map_app. simpl. apply nonDecreasing_snoc; [assumption|].
      apply Forall_map. exact Hb.
    - apply Forall_app. split; [assumption|]. constructor; [simpl; lia|constructor]. }
  destruct (Z.of_nat (length queue) >=? maxQueueSize0) eqn:E.
  - apply Hkeep.
    + destruct queue as [|e queue]; simpl in *; lia.
    + replace (snd (shift queue)) with (tl queue) by now destruct queue.
      rewrite timestamps_tl. now apply nonDecreasing_tl.
    + destruct queue as [|e queue]; simpl; [constructor|]. now inversion Hbound'.
  - apply Hkeep; try assumption. rewrite Z.geb_leb in E. apply Z.leb_gt in E. lia.
Qed.

Lemma saveEntry_settled queue fee0 lo now :
  lo <= now ->
  queueSettled maxQueueSize0 lo queue ->
  queueSettled maxQueueSize0 now (saveEntry slice maxQueueSize0 queue fee0 now).
Proof.
  intros Hlo Hq. unfold saveEntry.
  destruct (lastOrNull queue) as [last|] eqn:El; [|now apply (push_settled _ _ lo)].
  destruct (now - timestamp last >=? slice); [now apply (push_settled _ _ lo)|].
  destruct Hq as [[Hlen Hsorted] Hbound].
  assert (Hbound' : Forall (fun e => timestamp e <= now) queue).
  { eapply Forall_impl; [|exact Hbound]. simpl. intros e He. lia. }
  destruct (fee0 <? fee last); [|repeat split; assumption].
  apply lastOrNull_Some in El. unfold setLast.
  set (front := removelast queue) in *.
  assert (Hf : Forall (fun e => timestamp e <= now) front).
  { rewrite El in Hbound'. apply Forall_app in Hbound'. tauto. }
  split; [split|].
  - rewrite El in Hlen. rewrite length_app in *. simpl in *. lia.
  - unfold timestamps. rewrite map_app. simpl. apply nonDecreasing_snoc.
    + rewrite El in Hsorted. unfold timestamps in Hsorted. rewrite map_app in Hsorted.
      simpl in Hsorted. now apply nonDecreasing_front in Hsorted.
    + apply Forall_map. exact Hf.
  - apply Forall_app. split; [assumption|]. constructor; [simpl; lia|constructor].
Qed.

Lemma queueSettled_later queue lo now :
  lo <= now ->
  queueSettled maxQueueSize0 lo queue -> queueSettled maxQueueSize0 now queue.
Proof.
  intros Hlo [Hwf Hbound]. split; [assumption|].
  eapply Forall_impl; [|exact Hbound]. simpl. intros e He. lia.
Qed.

End OneQueue.

(** [saveEntry] obeys the insertion rule, whatever the capacity. *)
Lemma saveEntry_insertionRule slice maxQueueSize0 queue fee0 timestamp0 :
  insertionRule slice maxQueueSize0 queue fee0 timestamp0
    (saveEntry slice maxQueueSize0 queue fee0 timestamp0).
Proof.
  unfold insertionRule, saveEntry.
  destruct (lastOrNull queue) as [last|] eqn:El.
  - assert (Hne : queue <> []) by (intros ->; discriminate).
    destruct (timestamp0 - timestamp last >=? slice) eqn:Es;
      rewrite Z.geb_leb in Es; [apply Z.leb_le in Es | apply Z.leb_gt in Es].
    + split; [lia|]. intros _.
      destruct (Z.of_nat (length queue) >=? maxQueueSize0) eqn:Ec;
        rewrite Z.geb_leb in Ec; [apply Z.leb_le in Ec | apply Z.leb_gt in Ec].
      * split; [lia|]. intros _. now destruct queue.
      * split; [reflexivity|lia].
    + split; [|lia]. intros _.
      destruct (fee0 <? fee last) eqn:Ef;
        [apply Z.ltb_lt in Ef | apply Z.ltb_ge in Ef].
      * split; [reflexivity|lia].
      * split; [lia|reflexivity].
  - apply lastOrNull_None in El. subst queue. simpl.
    destruct (0 >=? maxQueueSize0); reflexivity.
Qed.

Section SaveSequences.
Variable maxQueueSize0 : Z.
Variable step : list Entry -> Z * Z -> list Entry.
Hypothesis step_settled :
  forall queue s lo,
    lo <= snd s ->
    queueSettled maxQueueSize0 lo queue ->
    queueSettled maxQueueSize0 (snd s) (step queue s).

Lemma fold_step_settled saves : forall queue lo,
  queueSettled maxQueueSize0 lo queue ->
  nonDecreasing (lo :: map snd saves) ->
  queueWellFormed maxQueueSize0 (fold_left step saves queue).
Proof.
  induction saves as [|s saves IH]; intros queue lo Hq Hsorted; simpl.
  - apply Hq.
  - destruct Hsorted as [Hlo Hsorted].
    apply (IH _ (snd s)); [|exact Hsorted]. now apply (step_settled _ _ lo).
Qed.

Lemma fold_step_from_empty saves :
  1 <= maxQueueSize0 ->
  nonDecreasing (map snd saves) ->
  queueWellFormed maxQueueSize0 (fold_left step saves []).
Proof.
  intros Hcap Hsorted. destruct saves as [|s saves].
  - simpl. repeat split; simpl; lia.
  - apply (fold_step_settled (s :: saves) [] (snd s)).
    + repeat split; simpl; try lia. constructor.
    + split; [lia|exact Hsorted].
Qed.

End SaveSequences.

Lemma saveAny_settled maxQueueSize0 queue s lo :
  1 <= maxQueueSize0 ->
  lo <= snd s ->
  queueSettled maxQueueSize0 lo queue ->
  queueSettled maxQueueSize0 (snd s) (saveAny maxQueueSize0 queue s).
Proof.
  intros Hcap Hlo Hq. now apply (saveEntry_settled 1000 _ Hcap _ _ lo).
Qed.

Lemma saveNonZero_settled maxQueueSize0 queue s lo :
  1 <= maxQueueSize0 ->
  lo <= snd s ->
  queueSettled maxQueueSize0 lo queue ->
  queueSettled maxQueueSize0 (snd s) (saveNonZero maxQueueSize0 queue s).
Proof.
  intros Hcap Hlo Hq. unfold saveNonZero. destruct (fst s =? 0).
  - now apply (queueSettled_later _ _ lo).
  - now apply (saveEntry_settled queueValidity _ Hcap _ _ lo).
Qed.

(** Each queue of the state sees the saves addressed to it, and only those. *)
Lemma fold_applySave_queues saves : forall state,
  let final := fold_left applySave saves state in
  maxQueueSize final = maxQueueSize state /\
  queueBaseFeePerGas final
  = fold_left (saveAny (maxQueueSize state)) (baseFeeSaves saves)
      (queueBaseFeePerGas state) /\
  queueMaxFeePerGas final
  = fold_left (saveAny (maxQueueSize state)) (maxFeeSaves saves)
      (queueMaxFeePerGas state) /\
  queueMaxPriorityFeePerGas final
  = fold_left (saveAny (maxQueueSize state)) (maxPriorityFeeSaves saves)
      (queueMaxPriorityFeePerGas state).
Proof.
  induction saves as [|s saves IH]; intros state; simpl.
  - repeat split.
  - destruct (IH (applySave state s)) as (Hm & HB & HF & HP).
    rewrite Hm, HB, HF, HP. destruct s; simpl; repeat split.
Qed.

Lemma fold_applyArbitrumSave_queues saves : forall m,
  let final := fold_left applyArbitrumSave saves m in
  arbMaxQueueSize final = arbMaxQueueSize m /\
  queueL1BaseFee final
  = fold_left (saveNonZero (arbMaxQueueSize m)) (l1Saves saves) (queueL1BaseFee m) /\
  queueL2BaseFee final
  = fold_left (saveNonZero (arbMaxQueueSize m)) (l2Saves saves) (queueL2BaseFee m).
Proof.
  induction saves as [|s saves IH]; intros m; simpl.
  - repeat split.
  - destruct (IH (applyArbitrumSave m s)) as (Hm & H1 & H2).
    rewrite Hm, H1, H2.
    destruct s as [v t|v t]; simpl; unfold saveL1BaseFee, saveL2BaseFee, saveNonZero;
      simpl; destruct (v =? 0); simpl; repeat split.
Qed.

(** C8, as stated, fails on the Arbitrum queues: a save of the value 0 is
    ignored there.  With L1 queue [(5, t=0)], saving 0 at t = 15000 (one
    slice later) does not append, and saving 0 at t = 100 (same slice,
    strictly lower value) does not overwrite. *)
Lemma arbitrum_zero_save_counterexample :
  saveL1BaseFee sampleArbitrumManager 0 15000 = sampleArbitrumManager /\
  saveL1BaseFee sampleArbitrumManager 0 100 = sampleArbitrumManager /\
  ~ (forall m baseFee now,
        insertionRule queueValidity (arbMaxQueueSize m) (queueL1BaseFee m) baseFee now
          (queueL1BaseFee (saveL1BaseFee m baseFee now))).
Proof.
  split; [reflexivity|]. split; [reflexivity|].
  intros H. specialize (H sampleArbitrumManager 0 15000).
  unfold insertionRule in H. simpl in H. destruct H as [_ H].
  assert (Hs : queueValidity <= 15000 - 0) by (vm_compute; discriminate).
  destruct (H Hs) as [H1 _].
  assert (Hl : 1 < 3) by lia. specialize (H1 Hl). discriminate.
Qed.

(** C8, amended: with [maxQueueSize >= 1], after any sequence of saves
    starting from empty queues, every fee queue and every Arbitrum queue whose
    own saves came with non-decreasing timestamps holds at most
    [maxQueueSize] entries with non-decreasing timestamps.  Each save into a
    fee queue follows the insertion rule with a slice of 1000 ms; each save
    of a non-zero value into an Arbitrum queue follows it with a slice of
    15 000 ms; a save of the value 0 into an Arbitrum queue changes
    nothing. *)
Theorem fee_queue_saves :
  forall config,
    1 <= gasPriceExpiry config ->
    (forall saves,
        let state := fold_left applySave saves (initialState config) in
        (nonDecreasing (map snd (baseFeeSaves saves)) ->
         queueWellFormed (gasPriceExpiry config) (queueBaseFeePerGas state)) /\
        (nonDecreasing (map snd (maxFeeSaves saves)) ->
         queueWellFormed (gasPriceExpiry config) (queueMaxFeePerGas state)) /\
        (nonDecreasing (map snd (maxPriorityFeeSaves saves)) ->
         queueWellFormed (gasPriceExpiry config) (queueMaxPriorityFeePerGas state))) /\
    (forall saves,
        let m := fold_left applyArbitrumSave saves
                   (createArbitrumManager (gasPriceExpiry config)) in
        (nonDecreasing (map snd (l1Saves saves)) ->
         queueWellFormed (gasPriceExpiry config) (queueL1BaseFee m)) /\
        (nonDecreasing (map snd (l2Saves saves)) ->
         queueWellFormed (gasPriceExpiry config) (queueL2BaseFee m))) /\
    (forall state value timestamp0,
        insertionRule 1000 (maxQueueSize state) (queueBaseFeePerGas state)
          value timestamp0
          (queueBaseFeePerGas (saveBaseFeePerGas state value timestamp0)) /\
        insertionRule 1000 (maxQueueSize state) (queueMaxFeePerGas state)
          value timestamp0
          (queueMaxFeePerGas (saveMaxFeePerGas state value timestamp0)) /\
        insertionRule 1000 (maxQueueSize state) (queueMaxPriorityFeePerGas state)
          value timestamp0
          (queueMaxPriorityFeePerGas (saveMaxPriorityFeePerGas state value timestamp0))) /\
    (forall m baseFee now,
        (baseFee <> 0 ->
         insertionRule 15000 (arbMaxQueueSize m) (queueL1BaseFee m) baseFee now
           (queueL1BaseFee (saveL1BaseFee m baseFee now)) /\
         insertionRule 15000 (arbMaxQueueSize m) (queueL2BaseFee m) baseFee now
           (queueL2BaseFee (saveL2BaseFee m baseFee now))) /\
        (baseFee = 0 ->
         saveL1BaseFee m baseFee now = m /\ saveL2BaseFee m baseFee now = m)).
Proof.
  intros config Hcap. split; [|split; [|split]].
  - intros saves state.
    destruct (fold_applySave_queues saves (initialState config)) as (_ & HB & HF & HP).
    fold state in HB, HF, HP. rewrite HB, HF, HP. simpl.
    split; [|split]; intros Hsorted;
      (apply fold_step_from_empty; [|exact Hcap|exact Hsorted]);
      intros queue s lo; apply saveAny_settled; exact Hcap.
  - intros saves m.
    destruct (fold_applyArbitrumSave_queues saves
                (createArbitrumManager (gasPriceExpiry config))) as (_ & H1 & H2).
    fold m in H1, H2. rewrite H1, H2. simpl.
    split; intros Hsorted;
      (apply fold_step_from_empty; [|exact Hcap|exact Hsorted]);
      intros queue s lo; apply saveNonZero_settled; exact Hcap.
  - intros state value timestamp0. repeat split; apply saveEntry_insertionRule.
  - intros m baseFee now. split.
    + intros Hnz. apply Z.eqb_neq in Hnz. unfold saveL1BaseFee, saveL2BaseFee.
      rewrite Hnz. simpl. split; apply saveEntry_insertionRule.
    + intros ->. split; reflexivity.
Qed.

Lemma fee_queue_saves_witness :
  let state := fold_left applySave
                 [SaveMaxFeePerGas 10 0; SaveMaxFeePerGas 8 500; SaveMaxFeePerGas 9 1500]
                 (initialState polygonConfig) in
  queueMaxFeePerGas state = [newEntry 8 500; newEntry 9 1500] /\
  queueWellFormed 3 (queueMaxFeePerGas state).
Proof.
  intros state. split; [reflexivity|].
  assert (Hcap : 1 <= gasPriceExpiry polygonConfig) by (vm_compute; discriminate).
  destruct (fee_queue_saves polygonConfig Hcap) as [Hseq _].
  refine (proj1 (proj2 (Hseq [SaveMaxFeePerGas 10 0; SaveMaxFeePerGas 8 500;
                              SaveMaxFeePerGas 9 1500])) _).
  simpl. lia.
Defined.

End GasPriceFacts.

(** ** Local sender manager *)

Section SenderManagerFacts.
Import SenderManager.

Lemma getWallets_drains ws : forall m,
  availableWallets m = ws ->
  semaphore m = length ws ->
  availableWallets (getWallets (length ws) m) = [] /\
  semaphore (getWallets (length ws) m) = 0%nat.
Proof.
  induction ws as [|wallet ws IH]; intros m Hav Hsem; simpl.
  - auto.
  - assert (E : snd (getWallet m)
               = {| wallets := wallets m; availableWallets := ws;
                    semaphore := length ws |}).
    { unfold getWallet. rewrite Hsem, Hav. reflexivity. }
    rewrite E. apply IH; reflexivity.
Qed.

Lemma drained_empty config :
  availableWallets (drained config) = [] /\ semaphore (drained config) = 0%nat.
Proof.
  unfold drained. apply getWallets_drains; reflexivity.
Qed.

(** C9, as stated, fails: after the pool of [walletA] and [walletB] has been
    drained and [walletA], then [walletB] have been pushed back, the next
    [getWallet] resolves to [walletA], the wallet pushed first. *)
Lemma lifo_counterexample :
  fst (getWallet (pushWallet (pushWallet (drained twoWallets) walletA) walletB))
  = Resolved walletA /\
  walletA <> walletB /\
  ~ (forall config w1 w2,
        fst (getWallet (pushWallet (pushWallet (drained config) w1) w2)) = Resolved w2).
Proof.
  split; [vm_compute; reflexivity|]. split; [discriminate|].
  intros H. specialize (H twoWallets walletA walletB). vm_compute in H. discriminate.
Qed.

(** C9, amended: the local backend hands out wallets in FIFO (queue) order.
    After one [getWallet] per wallet the pool is empty, and if [w1] and then
    [w2] are returned by [pushWallet], the next [getWallet] resolves to [w1],
    the wallet pushed first. *)
Theorem local_pool_fifo :
  forall config w1 w2,
    availableWallets (drained config) = [] /\
    fst (getWallet (pushWallet (pushWallet (drained config) w1) w2)) = Resolved w1.
Proof.
  intros config w1 w2. destruct (drained_empty config) as [Hav Hsem].
  split; [assumption|].
  unfold getWallet, pushWallet. simpl. rewrite Hav. simpl.
  destruct (sameAccount w2 w1 || false); reflexivity.
Qed.

End SenderManagerFacts.

(** * Further properties *)

(** ** Mempool store: removal, clearing, reconciliation, gauge *)

Section MempoolCoverage.
Import Mempool.

Lemma findIndex_snoc {A : Type} (p : A -> bool) (arr : list A) (x : A) :
  (forall y, In y arr -> p y = false) ->
  p x = true ->
  findIndex p (arr ++ [x]) = Some (length arr).
Proof.
  induction arr as [|a arr IH]; intros Hall Hx; simpl.
  - now rewrite Hx.
  - rewrite (Hall a (or_introl eq_refl)). rewrite IH; auto.
    intros y Hy. apply Hall. now right.
Qed.

Lemma splice1_snoc {A : Type} (arr : list A) (x : A) :
  splice1 (length arr) (arr ++ [x]) = arr.
Proof.
  induction arr as [|a arr IH]; simpl; [reflexivity|]. now rewrite IH.
Qed.

Lemma notIn_hashes h ops :
  ~ In h (hashes ops) -> forall y, In y ops -> hasHash h y = false.
Proof.
  intros Hn y Hy. destruct (hasHash h y) eqn:E; [|reflexivity].
  exfalso. apply Hn. apply in_map_iff. exists y. split; [|assumption].
  now apply hasHash_true.
Qed.

Lemma notIn_submittedHashes h ops :
  ~ In h (submittedHashes ops) ->
  forall y, In y ops -> hasHash h (submittedUserOperation y) = false.
Proof.
  intros Hn y Hy. destruct (hasHash h (submittedUserOperation y)) eqn:E; [|reflexivity].
  exfalso. apply Hn. unfold submittedHashes. apply in_map_iff. exists y.
  split; [|assumption]. now apply hasHash_true.
Qed.

(** X1: removing a hash that a list does not hold changes nothing at all;
    for [removeOutstanding] this is so even when available-outstanding still
    holds the hash. *)
Theorem remove_absent_hash :
  forall st h,
    (~ In h (hashes (outstandingUserOperations st)) -> removeOutstanding st h = st) /\
    (~ In h (hashes (processingUserOperations st)) -> removeProcessing st h = st) /\
    (~ In h (submittedHashes (submittedUserOperations st)) -> removeSubmitted st h = st).
Proof.
  intros st h. split; [|split]; intros Hn.
  - unfold removeOutstanding.
    now rewrite (proj2 (findIndex_None _ _) (notIn_hashes _ _ Hn)).
  - unfold removeProcessing.
    now rewrite (proj2 (findIndex_None _ _) (notIn_hashes _ _ Hn)).
  - unfold removeSubmitted.
    now rewrite (proj2 (findIndex_None _ _) (notIn_submittedHashes _ _ Hn)).
Qed.

Lemma remove_absent_hash_witness :
  removeOutstanding sampleStore "h9"%string = sampleStore /\
  removeProcessing sampleStore "h1"%string = sampleStore.
Proof.
  destruct (remove_absent_hash sampleStore "h9"%string) as (Ho & _ & _).
  destruct (remove_absent_hash sampleStore "h1"%string) as (_ & Hp & _).
  split.
  - apply Ho. vm_compute. intuition discriminate.
  - apply Hp. simpl. intros [].
Defined.

(** X2: admitting an operation under a hash the list does not hold yet and
    removing that hash again gives back the store as it was (for outstanding:
    provided available-outstanding does not hold the hash either). *)
Theorem add_remove_round_trip :
  forall st,
    (forall op,
        ~ In (userOperationHash op) (hashes (outstandingUserOperations st)) ->
        ~ In (userOperationHash op) (hashes (avaiableOutstandingUserOperations st)) ->
        removeOutstanding (addOutstanding st op) (userOperationHash op) = st) /\
    (forall op,
        ~ In (userOperationHash op) (hashes (processingUserOperations st)) ->
        removeProcessing (addProcessing st op) (userOperationHash op) = st) /\
    (forall op,
        ~ In (userOperationHash (submittedUserOperation op))
             (submittedHashes (submittedUserOperations st)) ->
        removeSubmitted (addSubmitted st op)
          (userOperationHash (submittedUserOperation op)) = st).
Proof.
  intros st. split; [|split].
  - intros op Ho Ha. unfold removeOutstanding, addOutstanding. simpl.
    rewrite (findIndex_snoc _ _ op (notIn_hashes _ _ Ho)) by now apply hasHash_true.
    rewrite (proj2 (findIndex_None _ _) (notIn_hashes _ _ Ha)).
    rewrite splice1_snoc. now destruct st.
  - intros op Hp. unfold removeProcessing, addProcessing. simpl.
    rewrite (findIndex_snoc _ _ op (notIn_hashes _ _ Hp)) by now apply hasHash_true.
    rewrite splice1_snoc. now destruct st.
  - intros op Hs. unfold removeSubmitted, addSubmitted. simpl.
    rewrite (findIndex_snoc _ _ op (notIn_submittedHashes _ _ Hs))
      by now apply hasHash_true.
    rewrite splice1_snoc. now destruct st.
Qed.

Lemma add_remove_round_trip_witness :
  removeProcessing (addProcessing sampleStore opA0) "h2"%string = sampleStore.
Proof.
  destruct (add_remove_round_trip sampleStore) as (_ & Hp & _).
  apply (Hp opA0). simpl. intros [].
Defined.

(** X3: [clear("outstanding")] leaves available-outstanding as it is, and no
    [removeOutstanding] can take anything out of it afterwards; the next
    reconciliation whose (empty) multicall answers publishes the empty list. *)
Theorem clear_outstanding_keeps_available :
  forall st,
    let cleared := clear st ClearOutstanding in
    avaiableOutstandingUserOperations cleared = avaiableOutstandingUserOperations st /\
    (forall h, removeOutstanding cleared h = cleared) /\
    (forall publicClient ep results,
        multicall publicClient [] = Ok results ->
        updateAvailableUserOperations cleared publicClient ep
        = (withoutOutstanding st, Ok tt)).
Proof.
  intros st cleared. split; [reflexivity|]. split.
  - intros h. reflexivity.
  - intros publicClient ep results Hcall.
    unfold updateAvailableUserOperations. simpl. rewrite Hcall. reflexivity.
Qed.

Lemma clear_outstanding_keeps_available_witness :
  updateAvailableUserOperations (clear sampleStore ClearOutstanding)
    (oracleClient sampleOracle) "0xEP"%string
  = (withoutOutstanding sampleStore, Ok tt).
Proof.
  destruct (clear_outstanding_keeps_available sampleStore) as (_ & _ & H).
  apply (H (oracleClient sampleOracle) "0xEP"%string []). reflexivity.
Defined.

(** X4: a reconciliation repeated against the same client changes nothing
    any more: it leaves the store it produced and ends the same way. *)
Theorem reconciliation_idempotent :
  forall st publicClient ep,
    let first := updateAvailableUserOperations st publicClient ep in
    updateAvailableUserOperations (fst first) publicClient ep = first.
Proof.
  intros st publicClient ep first. unfold first, updateAvailableUserOperations.
  unfold dumpOutstanding.
  destruct (allSendersAndNonceKeys (outstandingUserOperations st)) as [pairs|e] eqn:Ep.
  2:{ simpl. now rewrite Ep. }
  destruct (multicall publicClient (nonceContracts ep pairs)) as [results|e] eqn:Em.
  2:{ simpl. now rewrite Ep, Em. }
  destruct (promoteLoop 0 pairs results (outstandingUserOperations st) [])
    as [avail|e] eqn:El.
  2:{ simpl. now rewrite Ep, Em, El. }
  simpl. now rewrite Ep, Em, El.
Qed.

(** X5: whatever the client answers, a reconciliation leaves outstanding,
    processing and submitted as they are; when it throws, for whatever
    reason, available-outstanding is unchanged as well; when it returns,
    every operation it publishes is an operation of outstanding. *)
Theorem reconciliation_frame :
  forall st publicClient ep,
    let st' := fst (updateAvailableUserOperations st publicClient ep) in
    let r := snd (updateAvailableUserOperations st publicClient ep) in
    outstandingUserOperations st' = outstandingUserOperations st /\
    processingUserOperations st' = processingUserOperations st /\
    submittedUserOperations st' = submittedUserOperations st /\
    (forall e, r = Throw e -> st' = st) /\
    (r = Ok tt ->
     forall op, In op (avaiableOutstandingUserOperations st') ->
                In op (outstandingUserOperations st)).
Proof.
  intros st publicClient ep. unfold updateAvailableUserOperations, dumpOutstanding.
  destruct (allSendersAndNonceKeys _) as [pairs|e]; simpl.
  2:{ repeat split; auto. discriminate. }
  destruct (multicall publicClient _) as [results|e]; simpl.
  2:{ repeat split; auto. discriminate. }
  destruct (promoteLoop _ _ _ _ _) as [avail|e] eqn:El; simpl.
  2:{ repeat split; auto. discriminate. }
  repeat split; try discriminate.
  intros _ op Hop. apply (promoteLoop_In _ _ _ _ _ _ El) in Hop.
  destruct Hop as [[]|(k & p & nv & _ & _ & Hin & _)]. exact Hin.
Qed.

Lemma countIf_count_occ (x : UserOperationInfo) ops :
  countIf (fun y => sameOp y x) ops = count_occ UserOperationInfo_eq_dec ops x.
Proof.
  unfold countIf, sameOp. induction ops as [|y ops IH]; simpl; [reflexivity|].
  destruct (UserOperationInfo_eq_dec y x); simpl; now rewrite IH.
Qed.

Lemma countIf_all {A : Type} (arr : list A) : countIf (fun _ => true) arr = length arr.
Proof.
  unfold countIf. induction arr as [|a arr IH]; simpl; [reflexivity|]. now rewrite IH.
Qed.

Lemma published_counts q st publicClient ep st' :
  Forall wellFormedSender (outstandingUserOperations st) ->
  updateAvailableUserOperations st publicClient ep = (st', Ok tt) ->
  (countIf q (avaiableOutstandingUserOperations st')
   <= countIf q (outstandingUserOperations st))%nat.
Proof.
  intros Hwf. unfold updateAvailableUserOperations, dumpOutstanding.
  rewrite (allSendersAndNonceKeys_wellFormed _ Hwf).
  destruct (multicall publicClient _) as [results|e]; [|discriminate].
  destruct (promoteLoop _ _ _ _ _) as [avail|e] eqn:E; [|discriminate].
  intros [= <-]. simpl.
  pose proof (promoteLoop_count q _ _ _ _ _ _ (distinctPairs_NoDup _) E) as Hc.
  pose proof (countIf_filter_le
                (pairAmong (distinctPairs (outstandingUserOperations st)))
                q (outstandingUserOperations st)) as Hle.
  simpl in Hc. lia.
Qed.

(** X6: a reconciliation publishes no operation more often than outstanding
    holds it: the published list is no longer than outstanding, and it is
    free of repetitions when outstanding is.  Senders are addresses. *)
Theorem published_within_outstanding :
  forall st publicClient ep st',
    Forall wellFormedSender (outstandingUserOperations st) ->
    updateAvailableUserOperations st publicClient ep = (st', Ok tt) ->
    (forall op,
        (count_occ UserOperationInfo_eq_dec (avaiableOutstandingUserOperations st') op
         <= count_occ UserOperationInfo_eq_dec (outstandingUserOperations st) op)%nat) /\
    (length (avaiableOutstandingUserOperations st')
     <= length (outstandingUserOperations st))%nat /\
    (NoDup (outstandingUserOperations st) ->
     NoDup (avaiableOutstandingUserOperations st')).
Proof.
  intros st publicClient ep st' Hwf Hrun.
  assert (Hocc : forall op,
    (count_occ UserOperationInfo_eq_dec (avaiableOutstandingUserOperations st') op
     <= count_occ UserOperationInfo_eq_dec (outstandingUserOperations st) op)%nat).
  { intros op. rewrite <- !countIf_count_occ.
    exact (published_counts _ _ _ _ _ Hwf Hrun). }
  split; [exact Hocc|]. split.
  - rewrite <- !countIf_all. exact (published_counts _ _ _ _ _ Hwf Hrun).
  - intros Hnd. apply (NoDup_count_occ UserOperationInfo_eq_dec). intros op.
    specialize (Hocc op).
    pose proof (proj1 (NoDup_count_occ UserOperationInfo_eq_dec _) Hnd op). lia.
Qed.

Lemma published_within_outstanding_witness :
  NoDup [opB6; opA0].
Proof.
  refine (proj2 (proj2 (published_within_outstanding sampleStore
                          (oracleClient sampleOracle) "0xEP"%string
                          {| outstandingUserOperations := [opB7; opA0; opB6; opC3];
                             avaiableOutstandingUserOperations := [opB6; opA0];
                             processingUserOperations := [];
                             submittedUserOperations := [] |} _ _)) _).
  - repeat constructor.
  - vm_compute. reflexivity.
  - repeat constructor; simpl; intuition discriminate.
Defined.

(** X7: against a client that answers every [getNonce] call from an oracle,
    the reconciliation always returns, and it publishes exactly the
    operations of outstanding whose nonce value is the one the oracle holds
    for their sender and nonce key.  Senders are addresses. *)
Theorem reconciliation_against_oracle :
  forall st getNonce ep,
    Forall wellFormedSender (outstandingUserOperations st) ->
    exists st',
      updateAvailableUserOperations st (oracleClient getNonce) ep = (st', Ok tt) /\
      forall op,
        In op (avaiableOutstandingUserOperations st') <->
        In op (outstandingUserOperations st) /\
        getNonce (fst (pairOf op)) (snd (pairOf op)) = Success (nonceValueOf op).
Proof.
  intros st getNonce ep Hwf.
  unfold updateAvailableUserOperations, dumpOutstanding.
  rewrite (allSendersAndNonceKeys_wellFormed _ Hwf).
  set (ops := outstandingUserOperations st).
  set (pairs := distinctPairs ops).
  set (answer := fun p : SenderNonceKeyPair => getNonce (fst p) (snd p)).
  assert (Hres : multicall (oracleClient getNonce) (nonceContracts ep pairs)
                 = Ok (map answer pairs)).
  { unfold oracleClient, nonceContracts. simpl. now rewrite map_map. }
  rewrite Hres.
  destruct (promoteLoop_returns pairs (map answer pairs) ops 0 []) as [avail E].
  { rewrite length_map. simpl. lia. }
  rewrite E. eexists. split; [reflexivity|]. simpl. intros op.
  rewrite (promoteLoop_promoted _ _ _ _ E op). split.
  - intros [Hin (i & nv & Hi & Hr & Hv)]. split; [assumption|].
    rewrite nth_error_map, Hi in Hr. cbn [option_map] in Hr. injection Hr as Hr.
    rewrite Hv. exact Hr.
  - intros [Hin Ho]. split; [assumption|].
    assert (Hp : In (pairOf op) pairs) by (apply distinctPairs_In; now exists op).
    apply In_nth_error in Hp. destruct Hp as [i Hi].
    exists i, (nonceValueOf op). split; [assumption|]. split; [|reflexivity].
    rewrite nth_error_map, Hi. cbn [option_map]. f_equal. exact Ho.
Qed.

Lemma reconciliation_against_oracle_witness :
  exists st',
    updateAvailableUserOperations sampleStore (oracleClient sampleOracle) "0xEP"%string
    = (st', Ok tt) /\
    In opA0 (avaiableOutstandingUserOperations st').
Proof.
  destruct (reconciliation_against_oracle sampleStore sampleOracle "0xEP"%string)
    as (st' & Hrun & Hiff).
  - repeat constructor.
  - exists st'. split; [exact Hrun|]. apply Hiff. split; [simpl; auto|reflexivity].
Defined.

(** *** The gauge *)

Lemma findIndex_length_splice1 {A : Type} (p : A -> bool) arr i :
  findIndex p arr = Some i -> length arr = S (length (splice1 i arr)).
Proof.
  intros H. destruct (findIndex_splice1 _ _ _ H) as (pre & x & post & -> & _ & _ & ->).
  rewrite !length_app. simpl. lia.
Qed.

Lemma updateAvailableUserOperations_others st publicClient ep :
  processingUserOperations (fst (updateAvailableUserOperations st publicClient ep))
  = processingUserOperations st /\
  submittedUserOperations (fst (updateAvailableUserOperations st publicClient ep))
  = submittedUserOperations st.
Proof.
  unfold updateAvailableUserOperations.
  destruct (allSendersAndNonceKeys _) as [pairs|e]; [|now split].
  destruct (multicall publicClient _) as [results|e]; [|now split].
  destruct (promoteLoop _ _ _ _ _) as [avail|e]; now split.
Qed.

(** What one call does to the three lengths and the three gauge values. *)
Lemma stepMetered_lengths st g c :
  let st' := stepAny st c in
  let g' := meter st g c in
  outstandingGauge g - Z.of_nat (length (outstandingUserOperations st))
  <= outstandingGauge g' - Z.of_nat (length (outstandingUserOperations st')) /\
  processingGauge g - Z.of_nat (length (processingUserOperations st))
  <= processingGauge g' - Z.of_nat (length (processingUserOperations st')) /\
  submittedGauge g - Z.of_nat (length (submittedUserOperations st))
  <= submittedGauge g' - Z.of_nat (length (submittedUserOperations st')) /\
  (isPlain c ->
   processingGauge g - Z.of_nat (length (processingUserOperations st))
   = processingGauge g' - Z.of_nat (length (processingUserOperations st')) /\
   submittedGauge g - Z.of_nat (length (submittedUserOperations st))
   = submittedGauge g' - Z.of_nat (length (submittedUserOperations st'))).
Proof.
  destruct c as [c|from]; simpl.
  - destruct c as [op|op|op|h|h|h|pc ep]; simpl.
    + rewrite length_app. simpl. repeat split; lia.
    + rewrite length_app. simpl. repeat split; lia.
    + rewrite length_app. simpl. repeat split; lia.
    + unfold removeOutstanding.
      destruct (findIndex (hasHash h) (outstandingUserOperations st)) as [i|] eqn:Eo;
        [|repeat split; lia].
      pose proof (findIndex_length_splice1 _ _ _ Eo) as Hl.
      destruct (findIndex (hasHash h) (avaiableOutstandingUserOperations st));
        simpl; repeat split; lia.
    + unfold removeProcessing.
      destruct (findIndex (hasHash h) (processingUserOperations st)) as [i|] eqn:Ep;
        [|repeat split; lia].
      pose proof (findIndex_length_splice1 _ _ _ Ep) as Hl. simpl. repeat split; lia.
    + unfold removeSubmitted.
      destruct (findIndex _ (submittedUserOperations st)) as [i|] eqn:Es;
        [|repeat split; lia].
      pose proof (findIndex_length_splice1 _ _ _ Es) as Hl. simpl. repeat split; lia.
    + rewrite updateAvailableUserOperations_outstanding.
      destruct (updateAvailableUserOperations_others st pc ep) as [-> ->].
      repeat split; lia.
  - destruct from; simpl; repeat split; try lia; contradiction.
Qed.

Lemma fold_stepMetered_lengths calls : forall sg,
  let final := fold_left stepMetered calls sg in
  outstandingGauge (snd sg) - Z.of_nat (length (outstandingUserOperations (fst sg)))
  <= outstandingGauge (snd final)
     - Z.of_nat (length (outstandingUserOperations (fst final))) /\
  processingGauge (snd sg) - Z.of_nat (length (processingUserOperations (fst sg)))
  <= processingGauge (snd final)
     - Z.of_nat (length (processingUserOperations (fst final))) /\
  submittedGauge (snd sg) - Z.of_nat (length (submittedUserOperations (fst sg)))
  <= submittedGauge (snd final)
     - Z.of_nat (length (submittedUserOperations (fst final))) /\
  (Forall isPlain calls ->
   processingGauge (snd sg) - Z.of_nat (length (processingUserOperations (fst sg)))
   = processingGauge (snd final)
     - Z.of_nat (length (processingUserOperations (fst final))) /\
   submittedGauge (snd sg) - Z.of_nat (length (submittedUserOperations (fst sg)))
   = submittedGauge (snd final)
     - Z.of_nat (length (submittedUserOperations (fst final)))).
Proof.
  induction calls as [|c calls IH]; intros sg; simpl.
  - repeat split; lia.
  - destruct (stepMetered_lengths (fst sg) (snd sg) c) as (Ho & Hp & Hs & Heq).
    change (meter (fst sg) (snd sg) c) with (snd (stepMetered sg c)) in Ho, Hp, Hs, Heq.
    change (stepAny (fst sg) c) with (fst (stepMetered sg c)) in Ho, Hp, Hs, Heq.
    destruct (IH (stepMetered sg c)) as (Ho' & Hp' & Hs' & Heq').
    split; [lia|]. split; [lia|]. split; [lia|].
    intros Hplain. inversion Hplain as [|? ? Hc Hcalls]; subst.
    destruct (Heq Hc) as [E1 E2]. destruct (Heq' Hcalls) as [E1' E2'].
    split; lia.
Qed.

(** X8: from the empty store on, each gauge value is at least the length of
    its list; without [clear] the processing and submitted values are exactly
    the lengths.  The outstanding value can stay above: removing an operation
    that is in outstanding but not in available-outstanding shortens the list
    and leaves the gauge where it was. *)
Theorem gauge_tracks_store :
  forall calls,
    let st := fst (runMetered calls) in
    let g := snd (runMetered calls) in
    Z.of_nat (length (outstandingUserOperations st)) <= outstandingGauge g /\
    Z.of_nat (length (processingUserOperations st)) <= processingGauge g /\
    Z.of_nat (length (submittedUserOperations st)) <= submittedGauge g /\
    (Forall isPlain calls ->
     processingGauge g = Z.of_nat (length (processingUserOperations st)) /\
     submittedGauge g = Z.of_nat (length (submittedUserOperations st))) /\
    (forall h,
        In h (hashes (outstandingUserOperations st)) ->
        ~ In h (hashes (avaiableOutstandingUserOperations st)) ->
        length (outstandingUserOperations st)
        = S (length (outstandingUserOperations (removeOutstanding st h))) /\
        outstandingGauge (meter st g (Plain (RemoveOutstanding h))) = outstandingGauge g).
Proof.
  intros calls st g.
  destruct (fold_stepMetered_lengths calls (emptyStore, zeroGauges))
    as (Ho & Hp & Hs & Heq).
  fold (runMetered calls) in Ho, Hp, Hs, Heq. fold st g in Ho, Hp, Hs, Heq.
  simpl in Ho, Hp, Hs, Heq.
  split; [lia|]. split; [lia|]. split; [lia|]. split.
  - intros Hplain. destruct (Heq Hplain). split; lia.
  - intros h Ho' Ha'.
    destruct (findIndex (hasHash h) (outstandingUserOperations st)) as [i|] eqn:Eo.
    2:{ exfalso. apply In_hashes_countHash in Ho'.
        rewrite (countHash_findIndex_None _ _ Eo) in Ho'. lia. }
    pose proof (proj2 (findIndex_None _ _) (notIn_hashes _ _ Ha')) as Ea.
    split.
    + unfold removeOutstanding. rewrite Eo, Ea. simpl.
      exact (findIndex_length_splice1 _ _ _ Eo).
    + simpl. now rewrite Eo, Ea.
Qed.

Lemma gauge_tracks_store_witness :
  let calls := [Plain (AddOutstanding opA0); Plain (AddProcessing opB6);
                Plain (RemoveOutstanding "h2"%string)] in
  outstandingUserOperations (fst (runMetered calls)) = [] /\
  outstandingGauge (snd (runMetered calls)) = 1 /\
  processingGauge (snd (runMetered calls)) = 1.
Proof.
  intros calls. split; [reflexivity|]. split; [reflexivity|].
  destruct (gauge_tracks_store calls) as (_ & _ & _ & Heq & _).
  destruct Heq as [Hp _]; [repeat constructor|]. rewrite Hp. reflexivity.
Defined.

End MempoolCoverage.

(** ** Gas-price manager: bump, sources, history, creation *)

Section GasPriceCoverage.
Import Utils GasPriceManager.

Lemma chainFloor_nonneg config : 0 <= chainFloor config.
Proof.
  unfold chainFloor. destruct (chainId config =? ChainId.Polygon); [vm_compute; discriminate|].
  destruct (chainId config =? ChainId.Mumbai); [vm_compute; discriminate|lia].
Qed.

Lemma bumped_at_least a bump : 0 <= a -> 100 <= bump -> a <= Z.quot (a * bump) 100.
Proof.
  intros Ha Hb.
  replace a with (Z.quot (a * 100) 100) at 1 by (apply Z.quot_mul; lia).
  apply Z.quot_le_mono; [lia|nia].
Qed.

Lemma bumped_monotone a c bump :
  a <= c -> 0 <= bump -> Z.quot (a * bump) 100 <= Z.quot (c * bump) 100.
Proof.
  intros Hac Hb. apply Z.quot_le_mono; [lia|nia].
Qed.

(** The fees before the chain overrides. *)
Lemma bumpTheGasPrice_cases config gasPrice :
  let priority := Z.max (maxPriorityFeePerGas gasPrice) (chainFloor config) in
  let maxFee := Z.max (maxFeePerGas gasPrice) priority in
  let bumpedFee := Z.quot (maxFee * gasPriceBump config) 100 in
  let bumpedPriority := Z.quot (priority * gasPriceBump config) 100 in
  bumpTheGasPrice config gasPrice =
  if (chainId config =? ChainId.celo) || (chainId config =? ChainId.celoAlfajores) then
    {| maxFeePerGas := Z.max bumpedFee bumpedPriority;
       maxPriorityFeePerGas := Z.max bumpedFee bumpedPriority |}
  else if chainId config =? ChainId.dfk then
    {| maxFeePerGas := Z.max 5000000000 bumpedFee;
       maxPriorityFeePerGas := Z.max 5000000000 bumpedPriority |}
  else if chainId config =? ChainId.avalanche then
    {| maxFeePerGas := Z.max 1500000000 bumpedFee;
       maxPriorityFeePerGas := Z.max 1500000000 bumpedPriority |}
  else {| maxFeePerGas := bumpedFee; maxPriorityFeePerGas := bumpedPriority |}.
Proof. reflexivity. Qed.

Lemma bumpTheGasPrice_bounds :
  forall config gasPrice,
    100 <= gasPriceBump config ->
    let bumped := bumpTheGasPrice config gasPrice in
    maxFeePerGas gasPrice <= maxFeePerGas bumped /\
    maxPriorityFeePerGas gasPrice <= maxPriorityFeePerGas bumped /\
    chainFloor config <= maxPriorityFeePerGas bumped /\
    maxPriorityFeePerGas bumped <= maxFeePerGas bumped.
Proof.
  intros config gasPrice Hbump bumped. unfold bumped.
  rewrite bumpTheGasPrice_cases.
  pose proof (chainFloor_nonneg config) as Hfloor.
  set (priority := Z.max (maxPriorityFeePerGas gasPrice) (chainFloor config)).
  set (maxFee := Z.max (maxFeePerGas gasPrice) priority).
  assert (Hp : 0 <= priority) by (unfold priority; lia).
  assert (Hm : priority <= maxFee) by (unfold maxFee; lia).
  pose proof (bumped_at_least priority _ Hp Hbump) as Bp.
  pose proof (bumped_at_least maxFee (gasPriceBump config) ltac:(lia) Hbump) as Bm.
  pose proof (bumped_monotone priority maxFee (gasPriceBump config) Hm ltac:(lia)) as Bmono.
  assert (H1 : maxFeePerGas gasPrice <= maxFee) by (unfold maxFee; lia).
  assert (H2 : maxPriorityFeePerGas gasPrice <= priority) by (unfold priority; lia).
  assert (H3 : chainFloor config <= priority) by (unfold priority; lia).
  destruct ((chainId config =? ChainId.celo) || (chainId config =? ChainId.celoAlfajores));
    [simpl; lia|].
  destruct (chainId config =? ChainId.dfk); [simpl; lia|].
  destruct (chainId config =? ChainId.avalanche); simpl; lia.
Qed.

(** X9: with [gasPriceBump >= 100], on every chain, [bumpTheGasPrice] lowers
    neither fee, returns a priority fee of at least the chain floor, and
    never returns a priority fee above the max fee. *)
Theorem bumpTheGasPrice_never_lowers :
  forall config gasPrice,
    100 <= gasPriceBump config ->
    let bumped := bumpTheGasPrice config gasPrice in
    maxFeePerGas gasPrice <= maxFeePerGas bumped /\
    maxPriorityFeePerGas gasPrice <= maxPriorityFeePerGas bumped /\
    chainFloor config <= maxPriorityFeePerGas bumped /\
    maxPriorityFeePerGas bumped <= maxFeePerGas bumped.
Proof. exact bumpTheGasPrice_bounds. Qed.

Lemma bumpTheGasPrice_never_lowers_witness :
  gwei 31 <= maxPriorityFeePerGas
               (bumpTheGasPrice polygonConfig
                  {| maxFeePerGas := gwei 5; maxPriorityFeePerGas := gwei 2 |}).
Proof.
  refine (proj1 (proj2 (proj2 (bumpTheGasPrice_never_lowers polygonConfig
            {| maxFeePerGas := gwei 5; maxPriorityFeePerGas := gwei 2 |} _)))).
  vm_compute. discriminate.
Defined.

(** X10: the chain overrides hold whatever the bump: on Celo and
    Celo-Alfajores the two fees returned are equal, on DFK both are at least
    5 gwei, on Avalanche both are at least 1.5 gwei. *)
Theorem bumpTheGasPrice_chain_overrides :
  forall config gasPrice,
    let bumped := bumpTheGasPrice config gasPrice in
    (chainId config = ChainId.celo \/ chainId config = ChainId.celoAlfajores ->
     maxFeePerGas bumped = maxPriorityFeePerGas bumped) /\
    (chainId config = ChainId.dfk ->
     gwei 5 <= maxFeePerGas bumped /\ gwei 5 <= maxPriorityFeePerGas bumped) /\
    (chainId config = ChainId.avalanche ->
     ONE_AND_A_HALF_GWEI <= maxFeePerGas bumped /\
     ONE_AND_A_HALF_GWEI <= maxPriorityFeePerGas bumped).
Proof.
  intros config gasPrice bumped. unfold bumped. rewrite bumpTheGasPrice_cases.
  split; [|split].
  - intros [H|H]; rewrite H; reflexivity.
  - intros H. rewrite H. simpl. change (gwei 5) with 5000000000. lia.
  - intros H. rewrite H. simpl. unfold ONE_AND_A_HALF_GWEI. lia.
Qed.

Lemma bumpTheGasPrice_chain_overrides_witness :
  maxFeePerGas (bumpTheGasPrice celoConfig
                  {| maxFeePerGas := gwei 10; maxPriorityFeePerGas := gwei 12 |})
  = maxPriorityFeePerGas
      (bumpTheGasPrice celoConfig
         {| maxFeePerGas := gwei 10; maxPriorityFeePerGas := gwei 12 |}).
Proof.
  refine (proj1 (bumpTheGasPrice_chain_overrides celoConfig
            {| maxFeePerGas := gwei 10; maxPriorityFeePerGas := gwei 12 |}) _).
  left. reflexivity.
Defined.

(** X11: with [gasPriceBump >= 100], every quote [innerGetGasPrice] returns
    is the bump of the estimate of the source it took: the gas station on
    Polygon and Mumbai when it answers, otherwise
    [getLegacyTransactionGasPrice] under [legacyTransactions] and
    [estimateGasPrice] without; its priority fee is at least the chain floor
    and at most its max fee. *)
Theorem innerGetGasPrice_quote :
  forall config w quote,
    100 <= gasPriceBump config ->
    innerGetGasPrice config w = Ok quote ->
    (exists estimate,
        quote = bumpTheGasPrice config estimate /\
        match (if (chainId config =? ChainId.polygon)
                  || (chainId config =? ChainId.polygonMumbai)
               then getPolygonGasPriceParameters w else None) with
        | Some polygonEstimate => estimate = polygonEstimate
        | None =>
            if legacyTransactions config
            then getLegacyTransactionGasPrice w = Ok estimate
            else estimateGasPrice w = Ok estimate
        end) /\
    chainFloor config <= maxPriorityFeePerGas quote /\
    maxPriorityFeePerGas quote <= maxFeePerGas quote.
Proof.
  intros config w quote Hbump Hq.
  assert (Hmax : forall estimate a b,
            a <= maxFeePerGas estimate -> b <= maxPriorityFeePerGas estimate ->
            {| maxFeePerGas :=
                 maxBigInt (maxFeePerGas (bumpTheGasPrice config estimate)) a;
               maxPriorityFeePerGas :=
                 maxBigInt (maxPriorityFeePerGas (bumpTheGasPrice config estimate)) b |}
            = bumpTheGasPrice config estimate).
  { intros estimate a b Ha Hb.
    destruct (bumpTheGasPrice_bounds config estimate Hbump) as (H1 & H2 & _).
    destruct (bumpTheGasPrice config estimate) as [f p] eqn:E. simpl in *.
    unfold maxBigInt. f_equal; lia. }
  assert (Hzero : forall estimate,
            {| maxFeePerGas :=
                 maxBigInt (maxFeePerGas (bumpTheGasPrice config estimate)) 0;
               maxPriorityFeePerGas :=
                 maxBigInt (maxPriorityFeePerGas (bumpTheGasPrice config estimate)) 0 |}
            = bumpTheGasPrice config estimate).
  { intros estimate.
    destruct (bumpTheGasPrice_bounds config estimate Hbump) as (_ & _ & H3 & H4).
    pose proof (chainFloor_nonneg config).
    destruct (bumpTheGasPrice config estimate) as [f p] eqn:E. simpl in *.
    unfold maxBigInt. f_equal; lia. }
  assert (Hfrom : exists estimate,
             quote = bumpTheGasPrice config estimate /\
             match (if (chainId config =? ChainId.polygon)
                       || (chainId config =? ChainId.polygonMumbai)
                    then getPolygonGasPriceParameters w else None) with
             | Some polygonEstimate => estimate = polygonEstimate
             | None =>
                 if legacyTransactions config
                 then getLegacyTransactionGasPrice w = Ok estimate
                 else estimateGasPrice w = Ok estimate
             end).
  { unfold innerGetGasPrice in Hq.
    assert (Hrest :
      (if legacyTransactions config
       then legacy <- getLegacyTransactionGasPrice w ;;
            Ok {| maxFeePerGas :=
                    maxBigInt (maxFeePerGas (bumpTheGasPrice config legacy)) 0;
                  maxPriorityFeePerGas :=
                    maxBigInt (maxPriorityFeePerGas (bumpTheGasPrice config legacy)) 0 |}
       else estimatedPrice <- estimateGasPrice w ;;
            Ok {| maxFeePerGas :=
                    maxBigInt (maxFeePerGas (bumpTheGasPrice config estimatedPrice))
                              (maxFeePerGas estimatedPrice);
                  maxPriorityFeePerGas :=
                    maxBigInt (maxPriorityFeePerGas (bumpTheGasPrice config estimatedPrice))
                              (maxPriorityFeePerGas estimatedPrice) |}) = Ok quote ->
      exists estimate,
        quote = bumpTheGasPrice config estimate /\
        (if legacyTransactions config
         then getLegacyTransactionGasPrice w = Ok estimate
         else estimateGasPrice w = Ok estimate)).
    { destruct (legacyTransactions config).
      - destruct (getLegacyTransactionGasPrice w) as [legacy|e]; simpl; [|discriminate].
        intros [= <-]. exists legacy. split; [apply Hzero|reflexivity].
      - destruct (estimateGasPrice w) as [estimatedPrice|e]; simpl; [|discriminate].
        intros [= <-]. exists estimatedPrice. split; [apply Hmax; lia|reflexivity]. }
    destruct ((chainId config =? ChainId.polygon) || (chainId config =? ChainId.polygonMumbai)).
    - destruct (getPolygonGasPriceParameters w) as [polygonEstimate|].
      + injection Hq as <-. exists polygonEstimate. split; [|reflexivity].
        rewrite Hzero. now destruct polygonEstimate.
      + now apply Hrest.
    - now apply Hrest. }
  split; [exact Hfrom|]. destruct Hfrom as [estimate [-> _]].
  destruct (bumpTheGasPrice_bounds config estimate Hbump) as (_ & _ & H3 & H4).
  split; assumption.
Qed.

Lemma innerGetGasPrice_quote_witness :
  innerGetGasPrice legacyConfig legacyWorld
  = Ok (bumpTheGasPrice legacyConfig
          {| maxFeePerGas := 2000000000; maxPriorityFeePerGas := 2000000000 |}) /\
  innerGetGasPrice polygonConfig legacyWorld
  = Ok (bumpTheGasPrice polygonConfig
          {| maxFeePerGas := gwei 50; maxPriorityFeePerGas := gwei 40 |}).
Proof.
  assert (Hlegacy : 100 <= gasPriceBump legacyConfig) by (vm_compute; discriminate).
  assert (Hpolygon : 100 <= gasPriceBump polygonConfig) by (vm_compute; discriminate).
  split.
  - destruct (innerGetGasPrice_quote legacyConfig legacyWorld _ Hlegacy eq_refl)
      as [(estimate & Hq & Hsource) _].
    vm_compute in Hsource. injection Hsource as <-. vm_compute. reflexivity.
  - destruct (innerGetGasPrice_quote polygonConfig legacyWorld _ Hpolygon eq_refl)
      as [(estimate & Hq & Hsource) _].
    vm_compute. reflexivity.
Defined.

(** *** The fee sources *)

(** X12: [getLegacyTransactionGasPrice] returns the gas price of the legacy
    estimator, as both fees, whenever the estimator gives one, whatever
    [getGasPrice] would answer; only when the estimator throws or gives none
    does it return the answer of [getGasPrice], as both fees, or throw the
    error of [getGasPrice].  A failure of the estimator is never passed on. *)
Theorem getLegacyTransactionGasPrice_sources :
  forall w,
    (forall g,
        estimateFeesPerGasLegacy w = Ok (Some g) ->
        getLegacyTransactionGasPrice w
        = Ok {| maxFeePerGas := g; maxPriorityFeePerGas := g |}) /\
    ((forall g, estimateFeesPerGasLegacy w <> Ok (Some g)) ->
     (forall g,
         rpcGetGasPrice w = Ok g ->
         getLegacyTransactionGasPrice w
         = Ok {| maxFeePerGas := g; maxPriorityFeePerGas := g |}) /\
     (forall e,
         rpcGetGasPrice w = Throw e ->
         getLegacyTransactionGasPrice w = Throw e)).
Proof.
  intros w. unfold getLegacyTransactionGasPrice. split.
  - intros g ->. reflexivity.
  - intros Hnone.
    destruct (estimateFeesPerGasLegacy w) as [[g0|]|e0];
      [exfalso; now apply (Hnone g0)| |];
      (split; [intros g ->|intros e ->]; reflexivity).
Qed.

Lemma getLegacyTransactionGasPrice_sources_witness :
  getLegacyTransactionGasPrice legacyWorld
  = Ok {| maxFeePerGas := 2000000000; maxPriorityFeePerGas := 2000000000 |} /\
  getLegacyTransactionGasPrice quietWorld
  = Ok {| maxFeePerGas := 1000000000; maxPriorityFeePerGas := 1000000000 |}.
Proof.
  split.
  - apply (proj1 (getLegacyTransactionGasPrice_sources legacyWorld)). reflexivity.
  - apply (proj2 (getLegacyTransactionGasPrice_sources quietWorld)).
    + intros g. discriminate.
    + reflexivity.
Defined.

Lemma getFallBackMaxPriorityFeePerGas_capped_bound :
  forall w gasPrice fallback,
    getFallBackMaxPriorityFeePerGas w gasPrice = Ok fallback ->
    fallback <= gasPrice.
Proof.
  intros w gasPrice fallback. unfold getFallBackMaxPriorityFeePerGas.
  destruct (getFeeHistory w) as [feeHistory|e]; simpl; [|discriminate].
  destruct (reward feeHistory) as [rows|]; [|intros [= <-]; lia].
  destruct (sumFirstRewards rows 0) as [total|e]; simpl; [|discriminate].
  intros [= <-]. unfold minBigInt. lia.
Qed.

(** X13: the fallback priority fee never exceeds the cap it is given,
    whatever the fee history holds. *)
Theorem getFallBackMaxPriorityFeePerGas_capped :
  forall w gasPrice fallback,
    getFallBackMaxPriorityFeePerGas w gasPrice = Ok fallback ->
    fallback <= gasPrice.
Proof. exact getFallBackMaxPriorityFeePerGas_capped_bound. Qed.

Lemma getFallBackMaxPriorityFeePerGas_capped_witness :
  getFallBackMaxPriorityFeePerGas quietWorld 1 = Ok 1 /\ 1 <= 1.
Proof.
  split; [reflexivity|].
  apply (getFallBackMaxPriorityFeePerGas_capped quietWorld 1 1). reflexivity.
Defined.

(** X14: a priority fee of zero leaves [estimateGasPrice] only next to a max
    fee of less than 200 wei in absolute value; and when the estimator
    supplies a non-negative max fee but no priority fee, the max fee is kept
    and the priority fee returned does not exceed it. *)
Theorem estimateGasPrice_priority :
  forall w quote,
    estimateGasPrice w = Ok quote ->
    (maxPriorityFeePerGas quote = 0 -> -200 < maxFeePerGas quote < 200) /\
    (forall f,
        estimateFeesPerGas w
        = Ok {| feesMaxFeePerGas := Some f; feesMaxPriorityFeePerGas := None |} ->
        0 <= f ->
        maxFeePerGas quote = f /\ maxPriorityFeePerGas quote <= f).
Proof.
  intros w quote. unfold estimateGasPrice.
  set (fees := match estimateFeesPerGas w with
               | Ok f => f
               | Throw _ => {| feesMaxFeePerGas := None; feesMaxPriorityFeePerGas := None |}
               end).
  destruct (match feesMaxPriorityFeePerGas fees with
            | Some p => Ok p
            | None => getFallBackMaxPriorityFeePerGas w
                        match feesMaxFeePerGas fees with Some f => f | None => 0 end
            end) as [p1|e] eqn:Ep; simpl; [|discriminate].
  destruct (match feesMaxFeePerGas fees with
            | Some f => Ok f
            | None => nextBaseFee <- getNextBaseFee w ;; Ok (nextBaseFee + p1)
            end) as [f1|e] eqn:Ef; simpl; [|discriminate].
  intros [= <-]. simpl. split.
  - destruct (p1 =? 0) eqn:E0.
    + intros Hq. split.
      * destruct (Z_lt_le_dec (-200) f1) as [|Hle]; [assumption|].
        assert (Z.quot f1 200 <= Z.quot (-200) 200) by (apply Z.quot_le_mono; lia).
        change (Z.quot (-200) 200) with (-1) in H. lia.
      * destruct (Z_lt_le_dec f1 200) as [|Hle]; [assumption|].
        assert (Z.quot 200 200 <= Z.quot f1 200) by (apply Z.quot_le_mono; lia).
        change (Z.quot 200 200) with 1 in H. lia.
    + intros Hq. apply Z.eqb_neq in E0. contradiction.
  - intros f Hest Hf. unfold fees in Ep, Ef. rewrite Hest in Ep, Ef. simpl in Ep, Ef.
    injection Ef as <-. split; [reflexivity|].
    apply getFallBackMaxPriorityFeePerGas_capped_bound in Ep.
    destruct (p1 =? 0); [|assumption].
    assert (Z.quot f 200 <= Z.quot f 1) by (apply Z.quot_le_compat_l; lia).
    rewrite Z.quot_1_r in H. assumption.
Qed.

Lemma estimateGasPrice_priority_witness :
  estimateGasPrice quietWorld
  = Ok {| maxFeePerGas := 1125000000; maxPriorityFeePerGas := 5625000 |} /\
  (5625000 = 0 -> -200 < 1125000000 < 200).
Proof.
  split; [reflexivity|].
  exact (proj1 (estimateGasPrice_priority quietWorld
                  {| maxFeePerGas := 1125000000; maxPriorityFeePerGas := 5625000 |}
                  eq_refl)).
Defined.

(** *** The next base fee at its edges *)

(** X15: for a block with a positive base fee and a positive gas target,
    [getNextBaseFee] returns a value that is never below the base fee of the
    block, and strictly above it when the block used more than its target. *)
Theorem getNextBaseFee_never_below :
  forall w block b,
    getBlock w = Ok block ->
    baseFeePerGas block = Some b ->
    0 < b ->
    0 < Z.quot (gasLimit block) 2 ->
    exists next,
      getNextBaseFee w = Ok next /\ b <= next /\
      (Z.quot (gasLimit block) 2 < gasUsed block -> b < next).
Proof.
  intros w block b Hblock Hb Hpos HT.
  destruct (Z_lt_le_dec (gasUsed block) (Z.quot (gasLimit block) 2)) as [Hlt|Hge].
  - destruct (getNextBaseFee_below_target w block b Hblock Hb Hpos Hlt HT) as [E Hle].
    eexists. split; [exact E|]. split; [exact Hle|lia].
  - rewrite (getNextBaseFee_branches w block b Hblock Hb) by lia.
    cbv zeta.
    destruct (gasUsed block =? Z.quot (gasLimit block) 2) eqn:E1.
    + apply Z.eqb_eq in E1. eexists. split; [reflexivity|]. split; lia.
    + apply Z.eqb_neq in E1.
      assert (E2 : (gasUsed block >? Z.quot (gasLimit block) 2) = true)
        by (rewrite Z.gtb_ltb; apply Z.ltb_lt; lia).
      rewrite E2. eexists. split; [reflexivity|]. split; lia.
Qed.

Lemma getNextBaseFee_never_below_witness :
  exists next,
    getNextBaseFee legacyWorld = Ok next /\ 1000000000 <= next /\
    (Z.quot 30000000 2 < 20000000 -> 1000000000 < next).
Proof.
  apply (getNextBaseFee_never_below legacyWorld
           {| baseFeePerGas := Some 1000000000; gasUsed := 20000000;
              gasLimit := 30000000 |} 1000000000);
    [reflexivity | reflexivity | lia | vm_compute; reflexivity].
Defined.

(** X16: when the gas limit of the latest block is below 2 the gas target
    is 0; [getNextBaseFee] then returns the current base fee for a block that
    used no gas and fails with the [RangeError] of a division by zero for any
    other block. *)
Theorem getNextBaseFee_zero_target :
  forall w block b,
    getBlock w = Ok block ->
    baseFeePerGas block = Some b ->
    b <> 0 ->
    Z.quot (gasLimit block) 2 = 0 ->
    getNextBaseFee w = if gasUsed block =? 0 then Ok b else Throw RangeError.
Proof.
  intros w block b Hblock Hb Hb0 HT. unfold getNextBaseFee.
  rewrite Hblock. simpl. rewrite Hb. apply Z.eqb_neq in Hb0. rewrite Hb0. simpl.
  rewrite HT. destruct (gasUsed block =? 0); [reflexivity|].
  unfold bigintDiv. simpl. now destruct (gasUsed block >? 0).
Qed.

Lemma getNextBaseFee_zero_target_witness :
  getNextBaseFee
    {| estimateFeesPerGas := Throw (JsError "method not found");
       estimateFeesPerGasLegacy := Throw (JsError "method not found");
       rpcGetGasPrice := Ok 7;
       getFeeHistory := Throw (JsError "method not found");
       getBlock := Ok {| baseFeePerGas := Some 7; gasUsed := 21000; gasLimit := 1 |};
       gasStation := None;
       dateNow := 0 |}
  = Throw RangeError.
Proof.
  apply (getNextBaseFee_zero_target _
           {| baseFeePerGas := Some 7; gasUsed := 21000; gasLimit := 1 |} 7);
    [reflexivity | reflexivity | lia | reflexivity].
Defined.

(** *** The fee windows *)

Lemma lastOrNull_snoc {A : Type} (arr : list A) (x : A) :
  lastOrNull (arr ++ [x]) = Some x.
Proof.
  unfold lastOrNull. rewrite length_app. simpl.
  rewrite nth_error_app2 by lia.
  replace (length arr + 1 - 1 - length arr)%nat with 0%nat by lia. reflexivity.
Qed.

Lemma saveEntry_last slice maxQueueSize0 queue fee0 timestamp0 :
  exists e,
    lastOrNull (saveEntry slice maxQueueSize0 queue fee0 timestamp0) = Some e /\
    fee e <= fee0 /\
    (e = newEntry fee0 timestamp0 \/ lastOrNull queue = Some e).
Proof.
  unfold saveEntry.
  destruct (lastOrNull queue) as [last|] eqn:El.
  - destruct (timestamp0 - timestamp last >=? slice).
    + exists (newEntry fee0 timestamp0). rewrite lastOrNull_snoc.
      split; [reflexivity|]. split; [simpl; lia|now left].
    + destruct (fee0 <? fee last) eqn:Ef.
      * exists (newEntry fee0 timestamp0). unfold setLast. rewrite lastOrNull_snoc.
        split; [reflexivity|]. split; [simpl; lia|now left].
      * apply Z.ltb_ge in Ef. exists last. rewrite El. auto.
  - exists (newEntry fee0 timestamp0). rewrite lastOrNull_snoc.
    split; [reflexivity|]. split; [simpl; lia|now left].
Qed.

Lemma lastOrNull_In {A : Type} (arr : list A) (x : A) :
  lastOrNull arr = Some x -> In x arr.
Proof.
  intros H. apply lastOrNull_Some in H. rewrite H. apply in_or_app. right. now left.
Qed.

Lemma saveEntry_nonEmpty slice maxQueueSize0 queue fee0 timestamp0 :
  saveEntry slice maxQueueSize0 queue fee0 timestamp0 <> [].
Proof.
  destruct (saveEntry_last slice maxQueueSize0 queue fee0 timestamp0) as (e & He & _).
  intros E. rewrite E in He. discriminate.
Qed.

Lemma saveEntry_minimum slice maxQueueSize0 queue fee0 timestamp0 :
  exists m,
    reduceFees minBigInt (saveEntry slice maxQueueSize0 queue fee0 timestamp0) = Ok m /\
    m <= fee0.
Proof.
  destruct (reduceFees_minimum (saveEntry slice maxQueueSize0 queue fee0 timestamp0)
              (saveEntry_nonEmpty _ _ _ _ _)) as (m & Hm & _ & Hall).
  destruct (saveEntry_last slice maxQueueSize0 queue fee0 timestamp0) as (e & He & Hle & _).
  exists m. split; [exact Hm|].
  specialize (Hall (fee e) (in_map fee _ _ (lastOrNull_In _ _ He))). lia.
Qed.

Lemma updateGasPrice_returns config w state quote :
  innerGetGasPrice config w = Ok quote ->
  updateGasPrice config w state
  = (saveMaxPriorityFeePerGas
       (saveMaxFeePerGas state (maxFeePerGas quote) (dateNow w))
       (maxPriorityFeePerGas quote) (dateNow w),
     Ok quote).
Proof.
  intros H. unfold updateGasPrice, bindM, liftM, modifyM, retM. now rewrite H.
Qed.

Lemma updateGasPrice_throws config w state e :
  innerGetGasPrice config w = Throw e ->
  updateGasPrice config w state = (state, Throw e).
Proof.
  intros H. unfold updateGasPrice, bindM, liftM. now rewrite H.
Qed.

Lemma updateGasPrice_inversion config w state state' quote :
  updateGasPrice config w state = (state', Ok quote) ->
  innerGetGasPrice config w = Ok quote /\
  state' = saveMaxPriorityFeePerGas
             (saveMaxFeePerGas state (maxFeePerGas quote) (dateNow w))
             (maxPriorityFeePerGas quote) (dateNow w).
Proof.
  destruct (innerGetGasPrice config w) as [q|e] eqn:E.
  - rewrite (updateGasPrice_returns _ _ _ _ E). intros [= <- <-]. auto.
  - rewrite (updateGasPrice_throws _ _ _ _ E). discriminate.
Qed.

(** X17: a quote that [updateGasPrice] has just returned passes
    [validateGasPrice], whatever the windows held before, and the check leaves
    the state alone; on a [hedera] chain this needs the two fees of the quote
    to be non-negative. *)
Theorem fresh_quote_validates :
  forall config w w' state state' quote,
    updateGasPrice config w state = (state', Ok quote) ->
    (String.eqb (chainType config) "hedera" = true ->
     0 <= maxFeePerGas quote /\ 0 <= maxPriorityFeePerGas quote) ->
    validateGasPrice config w' quote state' = (state', Ok tt).
Proof.
  intros config w w' state state' quote Hupdate Hhedera.
  apply updateGasPrice_inversion in Hupdate. destruct Hupdate as [_ ->].
  set (state' := saveMaxPriorityFeePerGas _ _ _).
  destruct (saveEntry_minimum 1000 (maxQueueSize state) (queueMaxFeePerGas state)
              (maxFeePerGas quote) (dateNow w)) as (mf & Hmf & Hlef).
  destruct (saveEntry_minimum 1000 (maxQueueSize state) (queueMaxPriorityFeePerGas state)
              (maxPriorityFeePerGas quote) (dateNow w)) as (mp & Hmp & Hlep).
  assert (Hscale : forall m v, m <= v -> 0 <= v -> Z.quot m (10 ^ 9) <= v).
  { intros m v Hm Hv.
    assert (Z.quot m (10 ^ 9) <= Z.quot v (10 ^ 9)) by (apply Z.quot_le_mono; lia).
    assert (Z.quot v (10 ^ 9) <= Z.quot v 1) by (apply Z.quot_le_compat_l; lia).
    rewrite Z.quot_1_r in *. lia. }
  unfold validateGasPrice, bindM.
  rewrite getMinMaxFeePerGas_nonEmpty by apply saveEntry_nonEmpty.
  change (queueMaxFeePerGas state')
    with (saveEntry 1000 (maxQueueSize state) (queueMaxFeePerGas state)
            (maxFeePerGas quote) (dateNow w)).
  rewrite Hmf.
  rewrite getMinMaxPriorityFeePerGas_nonEmpty by apply saveEntry_nonEmpty.
  change (queueMaxPriorityFeePerGas state')
    with (saveEntry 1000 (maxQueueSize state) (queueMaxPriorityFeePerGas state)
            (maxPriorityFeePerGas quote) (dateNow w)).
  rewrite Hmp.
  destruct (String.eqb (chainType config) "hedera") eqn:Eh.
  - destruct (Hhedera eq_refl) as [Hf Hp].
    assert (E1 : (maxFeePerGas quote <? Z.quot mf (10 ^ 9)) = false)
      by (apply Z.ltb_ge; apply Hscale; assumption).
    assert (E2 : (maxPriorityFeePerGas quote <? Z.quot mp (10 ^ 9)) = false)
      by (apply Z.ltb_ge; apply Hscale; assumption).
    rewrite E1, E2. reflexivity.
  - assert (E1 : (maxFeePerGas quote <? mf) = false) by (apply Z.ltb_ge; assumption).
    assert (E2 : (maxPriorityFeePerGas quote <? mp) = false) by (apply Z.ltb_ge; assumption).
    rewrite E1, E2. reflexivity.
Qed.

Lemma fresh_quote_validates_witness :
  validateGasPrice polygonConfig quietWorld
    {| maxFeePerGas := 37200000000; maxPriorityFeePerGas := 37200000000 |}
    (fst (updateGasPrice polygonConfig quietWorld sampleState))
  = (fst (updateGasPrice polygonConfig quietWorld sampleState), Ok tt).
Proof.
  apply (fresh_quote_validates polygonConfig quietWorld quietWorld sampleState);
    [vm_compute; reflexivity | discriminate].
Defined.

(** X18: with a refresh interval set, [getGasPrice] answers from the
    windows without asking the chain: right after an [updateGasPrice] it
    returns fees that do not exceed the quote just fetched, and leaves the
    state as it is. *)
Theorem getGasPrice_cached_after_update :
  forall config w w' state state' quote,
    gasPriceRefreshInterval config <> 0 ->
    updateGasPrice config w state = (state', Ok quote) ->
    exists cached,
      getGasPrice config w' state' = (state', Ok cached) /\
      maxFeePerGas cached <= maxFeePerGas quote /\
      maxPriorityFeePerGas cached <= maxPriorityFeePerGas quote.
Proof.
  intros config w w' state state' quote Hinterval Hupdate.
  apply updateGasPrice_inversion in Hupdate. destruct Hupdate as [_ ->].
  destruct (saveEntry_last 1000 (maxQueueSize state) (queueMaxFeePerGas state)
              (maxFeePerGas quote) (dateNow w)) as (ef & Hef & Hlef & _).
  destruct (saveEntry_last 1000 (maxQueueSize state) (queueMaxPriorityFeePerGas state)
              (maxPriorityFeePerGas quote) (dateNow w)) as (ep & Hep & Hlep & _).
  exists {| maxFeePerGas := fee ef; maxPriorityFeePerGas := fee ep |}.
  split; [|split; assumption].
  unfold getGasPrice. apply Z.eqb_neq in Hinterval. rewrite Hinterval.
  unfold bindM, getsM, liftM, retM, lastFee. cbn [queueMaxPriorityFeePerGas
    queueMaxFeePerGas saveMaxPriorityFeePerGas saveMaxFeePerGas maxQueueSize].
  rewrite Hep, Hef. reflexivity.
Qed.

Lemma getGasPrice_cached_after_update_witness :
  exists cached,
    getGasPrice cachedConfig legacyWorld
      (fst (updateGasPrice cachedConfig quietWorld sampleState))
    = (fst (updateGasPrice cachedConfig quietWorld sampleState), Ok cached) /\
    maxFeePerGas cached <= 1125000000 /\
    maxPriorityFeePerGas cached <= 5625000.
Proof.
  apply (getGasPrice_cached_after_update cachedConfig quietWorld legacyWorld sampleState
           (fst (updateGasPrice cachedConfig quietWorld sampleState))
           {| maxFeePerGas := 1125000000; maxPriorityFeePerGas := 5625000 |});
    [discriminate | vm_compute; reflexivity].
Defined.

(** *** Creation of the manager *)

Lemma saveEntry_empty slice maxQueueSize0 fee0 timestamp0 :
  saveEntry slice maxQueueSize0 [] fee0 timestamp0 = [newEntry fee0 timestamp0].
Proof.
  unfold saveEntry. simpl. now destruct (0 >=? maxQueueSize0).
Qed.

Lemma updateBaseFee_inversion w state state' b :
  updateBaseFee w state = (state', Ok b) ->
  exists block,
    getBlock w = Ok block /\ baseFeePerGas block = Some b /\
    state' = saveBaseFeePerGas state b (dateNow w).
Proof.
  unfold updateBaseFee, bindM, liftM, modifyM, retM, throwM.
  destruct (getBlock w) as [block|e]; [|discriminate].
  destruct (baseFeePerGas block) as [b0|] eqn:Eb; [|discriminate].
  intros [= <- <-]. exists block. auto.
Qed.

(** X19: a manager that [createGasPriceManager] returns holds exactly one
    entry in each fee window, the quote fetched at creation with its
    timestamp; its base-fee window holds the base fee of the latest block,
    or nothing under [legacyTransactions]; the Arbitrum queues are empty; and
    with a refresh interval set, [getGasPrice] returns the creation quote. *)
Theorem createGasPriceManager_initial :
  forall config wGas wBase manager,
    createGasPriceManager config wGas wBase = Ok manager ->
    exists quote,
      innerGetGasPrice config wGas = Ok quote /\
      queueMaxFeePerGas (managerState manager)
      = [newEntry (maxFeePerGas quote) (dateNow wGas)] /\
      queueMaxPriorityFeePerGas (managerState manager)
      = [newEntry (maxPriorityFeePerGas quote) (dateNow wGas)] /\
      (if legacyTransactions config
       then queueBaseFeePerGas (managerState manager) = []
       else exists block b,
           getBlock wBase = Ok block /\ baseFeePerGas block = Some b /\
           queueBaseFeePerGas (managerState manager) = [newEntry b (dateNow wBase)]) /\
      queueL1BaseFee (arbitrumManager manager) = [] /\
      queueL2BaseFee (arbitrumManager manager) = [] /\
      (gasPriceRefreshInterval config <> 0 ->
       forall w, getGasPrice config w (managerState manager)
                 = (managerState manager, Ok quote)).
Proof.
  intros config wGas wBase manager. unfold createGasPriceManager.
  destruct (updateGasPrice config wGas (initialState config)) as [state1 [quote|e]] eqn:Eg;
    [|discriminate].
  apply updateGasPrice_inversion in Eg. destruct Eg as [Hquote ->].
  assert (Hcached : forall st,
             queueMaxFeePerGas st = [newEntry (maxFeePerGas quote) (dateNow wGas)] ->
             queueMaxPriorityFeePerGas st
             = [newEntry (maxPriorityFeePerGas quote) (dateNow wGas)] ->
             gasPriceRefreshInterval config <> 0 ->
             forall w, getGasPrice config w st = (st, Ok quote)).
  { intros st Hf Hp Hi w. unfold getGasPrice. apply Z.eqb_neq in Hi. rewrite Hi.
    unfold bindM, getsM, liftM, retM, lastFee. rewrite Hp, Hf. simpl.
    now destruct quote. }
  set (state1 := saveMaxPriorityFeePerGas _ _ _).
  assert (Hf : queueMaxFeePerGas state1 = [newEntry (maxFeePerGas quote) (dateNow wGas)])
    by apply saveEntry_empty.
  assert (Hp : queueMaxPriorityFeePerGas state1
               = [newEntry (maxPriorityFeePerGas quote) (dateNow wGas)])
    by apply saveEntry_empty.
  destruct (legacyTransactions config) eqn:El.
  - intros [= <-]. exists quote.
    cbn [managerState arbitrumManager createArbitrumManager queueL1BaseFee queueL2BaseFee].
    split; [assumption|]. split; [assumption|]. split; [assumption|].
    split; [reflexivity|]. split; [reflexivity|]. split; [reflexivity|].
    now apply Hcached.
  - destruct (updateBaseFee wBase state1) as [state2 [b|e]] eqn:Eb; [|discriminate].
    apply updateBaseFee_inversion in Eb. destruct Eb as (block & Hblock & Hb & ->).
    intros [= <-]. exists quote.
    cbn [managerState arbitrumManager createArbitrumManager queueL1BaseFee queueL2BaseFee].
    split; [assumption|]. split; [assumption|]. split; [assumption|].
    split; [exists block, b; split; [assumption|]; split; [assumption|];
            apply saveEntry_empty|].
    split; [reflexivity|]. split; [reflexivity|].
    now apply Hcached.
Qed.

Lemma createGasPriceManager_initial_witness :
  exists quote,
    innerGetGasPrice cachedConfig quietWorld = Ok quote /\
    queueMaxFeePerGas (managerState
      {| managerState :=
           {| maxQueueSize := 3;
              queueBaseFeePerGas := [newEntry 1000000000 1700000000000];
              queueMaxFeePerGas := [newEntry 1125000000 1700000000000];
              queueMaxPriorityFeePerGas := [newEntry 5625000 1700000000000] |};
         arbitrumManager := createArbitrumManager 3 |})
    = [newEntry (maxFeePerGas quote) (dateNow quietWorld)].
Proof.
  destruct (createGasPriceManager_initial cachedConfig quietWorld legacyWorld
              {| managerState :=
                   {| maxQueueSize := 3;
                      queueBaseFeePerGas := [newEntry 1000000000 1700000000000];
                      queueMaxFeePerGas := [newEntry 1125000000 1700000000000];
                      queueMaxPriorityFeePerGas := [newEntry 5625000 1700000000000] |};
                 arbitrumManager := createArbitrumManager 3 |}
              eq_refl) as (quote & Hq & Hf & _).
  exists quote. split; assumption.
Defined.

(** X20: [createGasPriceManager] returns a manager exactly when the first
    quote could be fetched and, unless [legacyTransactions] is set, the latest
    block could be read and carries a base fee. *)
Theorem createGasPriceManager_succeeds_iff :
  forall config wGas wBase,
    (exists manager, createGasPriceManager config wGas wBase = Ok manager) <->
    (exists quote, innerGetGasPrice config wGas = Ok quote) /\
    (legacyTransactions config = false ->
     exists block b, getBlock wBase = Ok block /\ baseFeePerGas block = Some b).
Proof.
  intros config wGas wBase. unfold createGasPriceManager. split.
  - intros [manager H].
    destruct (updateGasPrice config wGas (initialState config)) as [state1 [quote|e]] eqn:Eg;
      [|discriminate].
    apply updateGasPrice_inversion in Eg. destruct Eg as [Hquote _].
    split; [now exists quote|]. intros El. rewrite El in H.
    destruct (updateBaseFee wBase state1) as [state2 [b|e]] eqn:Eb; [|discriminate].
    apply updateBaseFee_inversion in Eb. destruct Eb as (block & Hblock & Hb & _).
    now exists block, b.
  - intros [[quote Hquote] Hbase].
    rewrite (updateGasPrice_returns _ _ _ _ Hquote).
    destruct (legacyTransactions config); [eexists; reflexivity|].
    destruct (Hbase eq_refl) as (block & b & Hblock & Hb).
    unfold updateBaseFee, bindM, liftM, modifyM, retM. rewrite Hblock, Hb.
    eexists. reflexivity.
Qed.

(** X21: under [legacyTransactions] the manager never gets a base fee: its
    [getBaseFee] and [getMaxBaseFeePerGas] fail with the [RpcError] of
    [getBaseFee] on every call after creation, and leave the state alone. *)
Theorem legacy_manager_has_no_base_fee :
  forall config wGas wBase manager w,
    legacyTransactions config = true ->
    createGasPriceManager config wGas wBase = Ok manager ->
    let unavailable := RpcError "baseFee is not available for legacy transactions" in
    getBaseFee config w (managerState manager) = (managerState manager, Throw unavailable) /\
    getMaxBaseFeePerGas config w (managerState manager)
    = (managerState manager, Throw unavailable).
Proof.
  intros config wGas wBase manager w Hlegacy Hcreate unavailable.
  assert (Hempty : queueBaseFeePerGas (managerState manager) = []).
  { revert Hcreate. unfold createGasPriceManager.
    destruct (updateGasPrice config wGas (initialState config)) as [state1 [quote|e]] eqn:Eg;
      [|discriminate].
    apply updateGasPrice_inversion in Eg. destruct Eg as [_ ->].
    rewrite Hlegacy. intros [= <-]. reflexivity. }
  assert (Hbase : getBaseFee config w (managerState manager)
                  = (managerState manager, Throw unavailable)).
  { unfold getBaseFee. rewrite Hlegacy. reflexivity. }
  split; [exact Hbase|].
  unfold getMaxBaseFeePerGas, bindM, getsM. rewrite Hempty. simpl.
  unfold bindM. rewrite Hbase. reflexivity.
Qed.

Lemma legacy_manager_has_no_base_fee_witness :
  getMaxBaseFeePerGas legacyConfig quietWorld
    {| maxQueueSize := 3;
       queueBaseFeePerGas := [];
       queueMaxFeePerGas := [newEntry 2200000000 1700000000000];
       queueMaxPriorityFeePerGas := [newEntry 2200000000 1700000000000] |}
  = ({| maxQueueSize := 3;
        queueBaseFeePerGas := [];
        queueMaxFeePerGas := [newEntry 2200000000 1700000000000];
        queueMaxPriorityFeePerGas := [newEntry 2200000000 1700000000000] |},
     Throw (RpcError "baseFee is not available for legacy transactions")).
Proof.
  exact (proj2 (legacy_manager_has_no_base_fee legacyConfig legacyWorld quietWorld
                  {| managerState :=
                       {| maxQueueSize := 3;
                          queueBaseFeePerGas := [];
                          queueMaxFeePerGas := [newEntry 2200000000 1700000000000];
                          queueMaxPriorityFeePerGas :=
                            [newEntry 2200000000 1700000000000] |};
                     arbitrumManager := createArbitrumManager 3 |}
                  quietWorld eq_refl eq_refl)).
Defined.

(** *** Maxima and the Arbitrum queues *)

Lemma fold_max_spec queue : forall init,
  let m := fold_left (fun acc cur => maxBigInt (fee cur) acc) queue init in
  (m = init \/ In m (map fee queue)) /\ init <= m /\
  (forall v, In v (map fee queue) -> v <= m).
Proof.
  induction queue as [|e queue IH]; intros init; simpl.
  - split; [now left|]. split; [lia|]. intros v [].
  - destruct (IH (maxBigInt (fee e) init)) as (Hin & Hle & Hall).
    unfold maxBigInt in *. split; [|split].
    + destruct Hin as [Hin|Hin]; [|now right; right].
      rewrite Hin.
      destruct (Z.max_spec (fee e) init) as [[_ E]|[_ E]]; rewrite E; auto.
    + lia.
    + intros v [<-|Hv]; [lia|]. now apply Hall.
Qed.

(** X22: with a base fee stored, [getMaxBaseFeePerGas] returns the largest
    base fee of the window, asks nothing of the chain and leaves the state
    alone. *)
Theorem getMaxBaseFeePerGas_window :
  forall config w state,
    queueBaseFeePerGas state <> [] ->
    exists m,
      getMaxBaseFeePerGas config w state = (state, Ok m) /\
      In m (map fee (queueBaseFeePerGas state)) /\
      forall v, In v (map fee (queueBaseFeePerGas state)) -> v <= m.
Proof.
  intros config w state Hne.
  unfold getMaxBaseFeePerGas, bindM, getsM, liftM, retM.
  destruct (queueBaseFeePerGas state) as [|first rest] eqn:E; [contradiction|].
  cbn [length Nat.eqb]. rewrite E. cbn [reduceFees].
  destruct (fold_max_spec (first :: rest) (fee first)) as (Hin & _ & Hall).
  eexists. split; [reflexivity|]. split; [|exact Hall].
  destruct Hin as [->|Hin]; [now left|assumption].
Qed.

Lemma getMaxBaseFeePerGas_window_witness :
  exists m,
    getMaxBaseFeePerGas cachedConfig quietWorld
      (saveBaseFeePerGas (saveBaseFeePerGas sampleState 9 0) 4 1000)
    = (saveBaseFeePerGas (saveBaseFeePerGas sampleState 9 0) 4 1000, Ok m) /\
    In m [9; 4] /\ forall v, In v [9; 4] -> v <= m.
Proof.
  apply (getMaxBaseFeePerGas_window cachedConfig quietWorld
           (saveBaseFeePerGas (saveBaseFeePerGas sampleState 9 0) 4 1000)).
  discriminate.
Defined.

Lemma getMinL1BaseFee_spec m :
  queueL1BaseFee m <> [] ->
  In (getMinL1BaseFee m) (map fee (queueL1BaseFee m)) /\
  forall v, In v (map fee (queueL1BaseFee m)) -> getMinL1BaseFee m <= v.
Proof.
  unfold getMinL1BaseFee. destruct (queueL1BaseFee m) as [|first rest]; [contradiction|].
  intros _. destruct (fold_min_spec (first :: rest) (fee first)) as (Hin & _ & Hall).
  split; [|exact Hall]. destruct Hin as [->|Hin]; [now left|assumption].
Qed.

Lemma getMaxL1BaseFee_spec m :
  queueL1BaseFee m <> [] ->
  In (getMaxL1BaseFee m) (map fee (queueL1BaseFee m)) /\
  forall v, In v (map fee (queueL1BaseFee m)) -> v <= getMaxL1BaseFee m.
Proof.
  unfold getMaxL1BaseFee. destruct (queueL1BaseFee m) as [|first rest]; [contradiction|].
  intros _. destruct (fold_max_spec (first :: rest) (fee first)) as (Hin & _ & Hall).
  split; [|exact Hall]. destruct Hin as [->|Hin]; [now left|assumption].
Qed.

Lemma getMaxL2BaseFee_spec m :
  queueL2BaseFee m <> [] ->
  In (getMaxL2BaseFee m) (map fee (queueL2BaseFee m)) /\
  forall v, In v (map fee (queueL2BaseFee m)) -> v <= getMaxL2BaseFee m.
Proof.
  unfold getMaxL2BaseFee. destruct (queueL2BaseFee m) as [|first rest]; [contradiction|].
  intros _. destruct (fold_max_spec (first :: rest) (fee first)) as (Hin & _ & Hall).
  split; [|exact Hall]. destruct Hin as [->|Hin]; [now left|assumption].
Qed.

(** X23: the L1 bounds of the Arbitrum manager are ordered: the minimum never
    exceeds the maximum, every stored L1 base fee lies between the two, and
    without stored fees the bounds are 1 and the largest 128-bit value. *)
Theorem arbitrum_l1_bounds :
  forall m,
    getMinL1BaseFee m <= getMaxL1BaseFee m /\
    (forall e, In e (queueL1BaseFee m) ->
               getMinL1BaseFee m <= fee e <= getMaxL1BaseFee m) /\
    (queueL1BaseFee m = [] -> getMinL1BaseFee m = 1 /\ getMaxL1BaseFee m = 2 ^ 128 - 1).
Proof.
  intros m. destruct (queueL1BaseFee m) as [|first rest] eqn:E.
  - unfold getMinL1BaseFee, getMaxL1BaseFee. rewrite E.
    split; [unfold maxUint128; lia|]. split; [intros e []|]. intros _. split; reflexivity.
  - assert (Hne : queueL1BaseFee m <> []) by (rewrite E; discriminate).
    destruct (getMinL1BaseFee_spec m Hne) as [_ Hmin].
    destruct (getMaxL1BaseFee_spec m Hne) as [_ Hmax].
    rewrite E in Hmin, Hmax.
    assert (Hbetween : forall e, In e (first :: rest) ->
                                 getMinL1BaseFee m <= fee e <= getMaxL1BaseFee m).
    { intros e He. split; [apply Hmin|apply Hmax]; now apply in_map. }
    split; [|split; [exact Hbetween|discriminate]].
    specialize (Hbetween first (or_introl eq_refl)). lia.
Qed.

Lemma Forall_removelast {A : Type} (P : A -> Prop) (l : list A) :
  Forall P l -> Forall P (removelast l).
Proof.
  induction 1 as [|x l Hx Hl IH]; [constructor|].
  simpl. destruct l; [constructor|]. constructor; assumption.
Qed.

Lemma Forall_tl {A : Type} (P : A -> Prop) (l : list A) :
  Forall P l -> Forall P (tl l).
Proof.
  intros H. destruct H; [constructor|assumption].
Qed.

Lemma saveEntry_Forall (P : Entry -> Prop) slice maxQueueSize0 queue fee0 timestamp0 :
  Forall P queue ->
  P (newEntry fee0 timestamp0) ->
  Forall P (saveEntry slice maxQueueSize0 queue fee0 timestamp0).
Proof.
  intros Hq Hnew. unfold saveEntry.
  assert (Hpush : Forall P ((if Z.of_nat (length queue) >=? maxQueueSize0
                             then snd (shift queue) else queue)
                              ++ [newEntry fee0 timestamp0])).
  { apply Forall_app. split; [|now constructor].
    destruct (Z.of_nat (length queue) >=? maxQueueSize0); [|assumption].
    destruct queue; [constructor|]. simpl. now inversion Hq. }
  destruct (lastOrNull queue) as [last|]; [|exact Hpush].
  destruct (timestamp0 - timestamp last >=? slice); [exact Hpush|].
  destruct (fee0 <? fee last); [|assumption].
  unfold setLast. apply Forall_app. split; [now apply Forall_removelast|now constructor].
Qed.

Lemma applyArbitrumSave_nonZero m s :
  Forall (fun e => fee e <> 0) (queueL1BaseFee m) ->
  Forall (fun e => fee e <> 0) (queueL2BaseFee m) ->
  Forall (fun e => fee e <> 0) (queueL1BaseFee (applyArbitrumSave m s)) /\
  Forall (fun e => fee e <> 0) (queueL2BaseFee (applyArbitrumSave m s)).
Proof.
  intros H1 H2. destruct s as [v now|v now]; simpl.
  - unfold saveL1BaseFee. destruct (v =? 0) eqn:Ev; [auto|]. apply Z.eqb_neq in Ev.
    simpl. split; [|assumption]. now apply saveEntry_Forall.
  - unfold saveL2BaseFee. destruct (v =? 0) eqn:Ev; [auto|]. apply Z.eqb_neq in Ev.
    simpl. split; [assumption|]. now apply saveEntry_Forall.
Qed.

Lemma fold_applyArbitrumSave_nonZero saves : forall m,
  Forall (fun e => fee e <> 0) (queueL1BaseFee m) ->
  Forall (fun e => fee e <> 0) (queueL2BaseFee m) ->
  Forall (fun e => fee e <> 0) (queueL1BaseFee (fold_left applyArbitrumSave saves m)) /\
  Forall (fun e => fee e <> 0) (queueL2BaseFee (fold_left applyArbitrumSave saves m)).
Proof.
  induction saves as [|s saves IH]; intros m H1 H2; simpl; [auto|].
  destruct (applyArbitrumSave_nonZero m s H1 H2). now apply IH.
Qed.

(** X24: whatever base fees are saved, in whatever order and at whatever
    times, the Arbitrum manager never stores a zero and never reports one:
    its three bounds are non-zero after every sequence of saves. *)
Theorem arbitrum_bounds_never_zero :
  forall maxQueueSize0 saves,
    let m := fold_left applyArbitrumSave saves (createArbitrumManager maxQueueSize0) in
    Forall (fun e => fee e <> 0) (queueL1BaseFee m) /\
    Forall (fun e => fee e <> 0) (queueL2BaseFee m) /\
    getMinL1BaseFee m <> 0 /\ getMaxL1BaseFee m <> 0 /\ getMaxL2BaseFee m <> 0.
Proof.
  intros maxQueueSize0 saves m.
  destruct (fold_applyArbitrumSave_nonZero saves (createArbitrumManager maxQueueSize0))
    as [H1 H2]; [constructor|constructor|]. fold m in H1, H2.
  assert (Hin : forall q v, Forall (fun e => fee e <> 0) q -> In v (map fee q) -> v <> 0).
  { intros q v Hq Hv. apply in_map_iff in Hv. destruct Hv as (e & <- & He).
    rewrite Forall_forall in Hq. now apply Hq. }
  split; [assumption|]. split; [assumption|]. split; [|split].
  - destruct (queueL1BaseFee m) as [|first rest] eqn:E.
    + unfold getMinL1BaseFee. rewrite E. lia.
    + apply (Hin (queueL1BaseFee m)); [now rewrite E|].
      apply getMinL1BaseFee_spec. rewrite E. discriminate.
  - destruct (queueL1BaseFee m) as [|first rest] eqn:E.
    + unfold getMaxL1BaseFee. rewrite E. unfold maxUint128. lia.
    + apply (Hin (queueL1BaseFee m)); [now rewrite E|].
      apply getMaxL1BaseFee_spec. rewrite E. discriminate.
  - destruct (queueL2BaseFee m) as [|first rest] eqn:E.
    + unfold getMaxL2BaseFee. rewrite E. unfold maxUint128. lia.
    + apply (Hin (queueL2BaseFee m)); [now rewrite E|].
      apply getMaxL2BaseFee_spec. rewrite E. discriminate.
Qed.

(** X25: a non-zero L1 base fee that has just been saved bounds the minimum
    from above, while the maximum may stay below it: within one validity
    slice the queue keeps only the lowest value saved. *)
Theorem arbitrum_saved_fee_bounds_minimum :
  forall m baseFee now,
    baseFee <> 0 ->
    getMinL1BaseFee (saveL1BaseFee m baseFee now) <= baseFee /\
    (forall last,
        lastOrNull (queueL1BaseFee m) = Some last ->
        now - timestamp last < 15000 ->
        fee last <= baseFee ->
        saveL1BaseFee m baseFee now = m).
Proof.
  intros m baseFee now Hnz. apply Z.eqb_neq in Hnz. split.
  - unfold saveL1BaseFee. rewrite Hnz.
    set (m' := {| arbMaxQueueSize := _; queueL1BaseFee := _; queueL2BaseFee := _ |}).
    assert (Hne : queueL1BaseFee m' <> []) by apply saveEntry_nonEmpty.
    destruct (getMinL1BaseFee_spec m' Hne) as [_ Hmin].
    destruct (saveEntry_last queueValidity (arbMaxQueueSize m) (queueL1BaseFee m)
                baseFee now) as (e & He & Hle & _).
    specialize (Hmin (fee e) (in_map fee _ _ (lastOrNull_In _ _ He))). lia.
  - intros last Hlast Hslice Hfee. unfold saveL1BaseFee. rewrite Hnz.
    unfold saveEntry. rewrite Hlast.
    assert (E1 : (now - timestamp last >=? queueValidity) = false)
      by (rewrite Z.geb_leb; apply Z.leb_gt; exact Hslice).
    assert (E2 : (baseFee <? fee last) = false) by (apply Z.ltb_ge; exact Hfee).
    rewrite E1, E2. now destruct m.
Qed.

Lemma arbitrum_saved_fee_bounds_minimum_witness :
  getMinL1BaseFee (saveL1BaseFee sampleArbitrumManager 9 100) <= 9 /\
  saveL1BaseFee sampleArbitrumManager 9 100 = sampleArbitrumManager /\
  getMaxL1BaseFee (saveL1BaseFee sampleArbitrumManager 9 100) = 5.
Proof.
  assert (Hnz : 9 <> 0) by lia.
  destruct (arbitrum_saved_fee_bounds_minimum sampleArbitrumManager 9 100 Hnz)
    as [Hmin Hsame].
  split; [exact Hmin|]. split; [|reflexivity].
  apply (Hsame (newEntry 5 0)); [reflexivity | simpl; lia | simpl; lia].
Defined.

End GasPriceCoverage.

(** ** Sender managers: pool size, semaphore, Redis queue *)

Section SenderManagerCoverage.
Import SenderManager.

(** X26: [getAvailableWallets] returns a prefix of the configured executor
    keys: the first [maxExecutors] of them when that bound is set, all of
    them when it is not or when it is not below their number. *)
Theorem getAvailableWallets_bounded :
  forall config,
    let pool := getAvailableWallets config in
    pool = firstn (length pool) (executorPrivateKeys config) /\
    (forall n, maxExecutors config = Some n ->
               length pool = Nat.min n (length (executorPrivateKeys config))) /\
    (maxExecutors config = None -> pool = executorPrivateKeys config).
Proof.
  intros config pool. unfold pool, getAvailableWallets.
  destruct (maxExecutors config) as [n|].
  - destruct (n <? length (executorPrivateKeys config))%nat eqn:E.
    + apply Nat.ltb_lt in E. split; [|split; [|discriminate]].
      * rewrite length_firstn, Nat.min_l by lia. reflexivity.
      * intros n0 [= <-]. apply length_firstn.
    + apply Nat.ltb_ge in E. split; [|split; [|discriminate]].
      * now rewrite firstn_all.
      * intros n0 [= <-]. lia.
  - split; [now rewrite firstn_all|]. split; [discriminate|reflexivity].
Qed.

Lemma poolStep_balanced m c :
  semaphore m = length (availableWallets m) ->
  match c with
  | GetWallet => semaphore m <> 0%nat
  | PushWallet wallet => existsb (sameAccount wallet) (availableWallets m) = false
  end ->
  semaphore (poolStep m c) = length (availableWallets (poolStep m c)) /\
  wallets (poolStep m c) = wallets m /\
  match c with
  | GetWallet => exists wallet, fst (getWallet m) = Resolved wallet
  | PushWallet _ => True
  end.
Proof.
  intros Hbal Hc. destruct c as [|wallet]; simpl.
  - unfold getWallet. destruct (semaphore m) as [|value] eqn:Es; [contradiction|].
    destruct (availableWallets m) as [|first rest] eqn:Ea; [discriminate|].
    simpl in *. split; [lia|]. split; [reflexivity|]. now exists first.
  - rewrite Hc. rewrite length_app. simpl. split; [lia|]. split; [reflexivity|exact I].
Qed.

Lemma orderlyRun_balanced calls : forall m,
  semaphore m = length (availableWallets m) ->
  orderlyRun m calls ->
  semaphore (fold_left poolStep calls m)
  = length (availableWallets (fold_left poolStep calls m)) /\
  wallets (fold_left poolStep calls m) = wallets m /\
  Forall (fun outcome => exists wallet, outcome = Resolved wallet) (poolOutcomes m calls).
Proof.
  induction calls as [|c calls IH]; intros m Hbal Hrun.
  - simpl. auto.
  - destruct Hrun as [Hc Hrest].
    destruct (poolStep_balanced m c Hbal Hc) as (Hbal' & Hw & Hout).
    destruct (IH (poolStep m c) Hbal' Hrest) as (Hb & Hws & Hall).
    cbn [fold_left]. split; [exact Hb|]. split; [congruence|].
    destruct c as [|wallet]; simpl; [|exact Hall].
    constructor; [exact Hout|exact Hall].
Qed.

(** X27: as long as every [pushWallet] gives back a wallet that is not in
    the pool at that moment, the semaphore of the local manager equals the
    number of available wallets; every [getWallet] that does not have to wait
    then resolves to a wallet, and ["no more wallets"] is never thrown. *)
Theorem orderly_pool_never_rejects :
  forall config calls,
    orderlyRun (createLocalSenderManager config) calls ->
    let m := fold_left poolStep calls (createLocalSenderManager config) in
    semaphore m = length (availableWallets m) /\
    getAllWallets m = getAvailableWallets config /\
    Forall (fun outcome => exists wallet, outcome = Resolved wallet)
           (poolOutcomes (createLocalSenderManager config) calls) /\
    (forall e, fst (getWallet m) <> Rejected e).
Proof.
  intros config calls Hrun m.
  destruct (orderlyRun_balanced calls (createLocalSenderManager config) eq_refl Hrun)
    as (Hbal & Hw & Hall).
  fold m in Hbal, Hw. split; [exact Hbal|]. split; [exact Hw|]. split; [exact Hall|].
  intros e. unfold getWallet. destruct (semaphore m) as [|value]; [discriminate|].
  destruct (availableWallets m); [discriminate|]. discriminate.
Qed.

Lemma orderly_pool_never_rejects_witness :
  poolOutcomes (createLocalSenderManager twoWallets)
    [GetWallet; GetWallet; PushWallet walletB; GetWallet; PushWallet walletA]
  = [Resolved walletA; Resolved walletB; Resolved walletB] /\
  forall e,
    fst (getWallet
           (fold_left poolStep
              [GetWallet; GetWallet; PushWallet walletB; GetWallet; PushWallet walletA]
              (createLocalSenderManager twoWallets)))
    <> Rejected e.
Proof.
  split; [reflexivity|].
  apply (orderly_pool_never_rejects twoWallets
           [GetWallet; GetWallet; PushWallet walletB; GetWallet; PushWallet walletA]).
  simpl. repeat split; discriminate.
Defined.

Lemma getWallets_surplus ws : forall m surplus,
  availableWallets m = ws ->
  semaphore m = (length ws + surplus)%nat ->
  availableWallets (getWallets (length ws) m) = [] /\
  semaphore (getWallets (length ws) m) = surplus /\
  wallets (getWallets (length ws) m) = wallets m.
Proof.
  induction ws as [|wallet ws IH]; intros m surplus Hav Hsem; simpl.
  - auto.
  - assert (E : snd (getWallet m)
               = {| wallets := wallets m; availableWallets := ws;
                    semaphore := (length ws + surplus)%nat |}).
    { unfold getWallet. rewrite Hsem, Hav. reflexivity. }
    rewrite E.
    exact (IH {| wallets := wallets m; availableWallets := ws;
                 semaphore := (length ws + surplus)%nat |} surplus eq_refl eq_refl).
Qed.

(** X28: giving back a wallet object that is already in the pool raises the
    semaphore without adding a wallet; once the pool has been handed out, the
    next [getWallet] is let through by the semaphore, finds no wallet and
    throws ["no more wallets"], and so does every one after it. *)
Theorem double_push_exhausts_pool :
  forall m wallet,
    semaphore m = length (availableWallets m) ->
    existsb (sameAccount wallet) (availableWallets m) = true ->
    let m1 := pushWallet m wallet in
    let m2 := getWallets (length (availableWallets m)) m1 in
    availableWallets m1 = availableWallets m /\
    semaphore m1 = S (length (availableWallets m)) /\
    availableWallets m2 = [] /\
    getWallet m2 = (Rejected (JsError "no more wallets"), m2).
Proof.
  intros m wallet Hbal Hin m1 m2.
  assert (Hav : availableWallets m1 = availableWallets m)
    by (unfold m1, pushWallet; simpl; now rewrite Hin).
  assert (Hsem : semaphore m1 = (length (availableWallets m) + 1)%nat)
    by (unfold m1, pushWallet; simpl; lia).
  destruct (getWallets_surplus (availableWallets m) m1 1%nat Hav Hsem) as (He & Hs & _).
  fold m2 in He, Hs.
  split; [exact Hav|]. split; [lia|]. split; [exact He|].
  unfold getWallet. rewrite Hs, He. reflexivity.
Qed.

Lemma double_push_exhausts_pool_witness :
  fst (getWallet (getWallets 2 (pushWallet (createLocalSenderManager twoWallets) walletA)))
  = Rejected (JsError "no more wallets") /\
  availableWallets (pushWallet (createLocalSenderManager twoWallets) walletA')
  = [walletA; walletB; walletA'].
Proof.
  destruct (double_push_exhausts_pool (createLocalSenderManager twoWallets) walletA
              eq_refl eq_refl) as (_ & _ & _ & H).
  split; [exact (f_equal fst H)|reflexivity].
Defined.

(** *** The Redis backend *)

Lemma rpop_rpush redis entry : rpop (rpush redis entry) = (Some entry, redis).
Proof.
  unfold rpop, rpush. now rewrite lastOrNull_snoc, removelast_last.
Qed.

Lemma poll_rpush attempts redis entry :
  entry <> EmptyString ->
  poll (S attempts) (rpush redis entry) = (Some entry, redis).
Proof.
  intros Hne. cbn [poll]. rewrite rpop_rpush.
  apply String.eqb_neq in Hne. now rewrite Hne.
Qed.

(** The attempts of [redisGetWallet] suffice: the loop is left polling only
    when the list holds nothing but empty strings, all of which it drops. *)
Lemma poll_exhausts attempts : forall redis redis1,
  (length redis < attempts)%nat ->
  poll attempts redis = (None, redis1) ->
  redis1 = [] /\ Forall (fun entry => entry = EmptyString) redis.
Proof.
  induction attempts as [|k IH]; intros redis redis1 Hlen; [lia|].
  cbn [poll]. unfold rpop.
  destruct (lastOrNull redis) as [entry|] eqn:El.
  - pose proof (lastOrNull_Some _ _ El) as E.
    destruct (String.eqb entry EmptyString) eqn:Ee; [|discriminate].
    apply String.eqb_eq in Ee. intros H.
    assert (Hlen' : (length (removelast redis) < k)%nat).
    { rewrite E, length_app in Hlen. simpl in Hlen. lia. }
    destruct (IH _ _ Hlen' H) as [-> Hall]. split; [reflexivity|].
    rewrite E. apply Forall_app. split; [exact Hall|]. now constructor.
  - apply lastOrNull_None in El. subst redis. intros [= <-]. split; constructor.
Qed.

Lemma find_by_address pool : forall wallet,
  NoDup (map address pool) ->
  In wallet pool ->
  find (fun w => String.eqb (address w) (address wallet)) pool = Some wallet.
Proof.
  induction pool as [|first pool IH]; intros wallet Hnd Hin; [contradiction|].
  simpl. inversion Hnd as [|? ? Hnotin Hnd']; subst.
  destruct Hin as [->|Hin].
  - now rewrite String.eqb_refl.
  - destruct (String.eqb (address first) (address wallet)) eqn:E.
    + apply String.eqb_eq in E. exfalso. apply Hnotin. rewrite E. now apply in_map.
    + now apply IH.
Qed.

Lemma find_unknown_address pool walletAddress :
  ~ In walletAddress (map address pool) ->
  find (fun w => String.eqb (address w) walletAddress) pool = None.
Proof.
  induction pool as [|first pool IH]; intros Hn; [reflexivity|].
  simpl. destruct (String.eqb (address first) walletAddress) eqn:E.
  - apply String.eqb_eq in E. exfalso. apply Hn. now left.
  - apply IH. intros H. apply Hn. now right.
Qed.

Lemma redisGetWallet_rpush pool redis walletAddress :
  walletAddress <> EmptyString ->
  redisGetWallet pool (rpush redis walletAddress)
  = match find (fun w => String.eqb (address w) walletAddress) pool with
    | Some wallet => (Resolved wallet, redis)
    | None => (Rejected (JsError "wallet not found"), redis)
    end.
Proof.
  intros Hne. unfold redisGetWallet. now rewrite poll_rpush.
Qed.

Lemma redisGetWallets_in_order pool : forall handed,
  NoDup (map address pool) ->
  (forall wallet, In wallet handed -> In wallet pool /\ address wallet <> EmptyString) ->
  redisGetWallets (length handed) pool (rev (map address handed))
  = (map Resolved handed, []).
Proof.
  intros handed Hnd. induction handed as [|wallet handed IH]; intros Hall; [reflexivity|].
  destruct (Hall wallet (or_introl eq_refl)) as [Hin Hne].
  cbn [length redisGetWallets map rev].
  change (rev (map address handed) ++ [address wallet])
    with (rpush (rev (map address handed)) (address wallet)).
  rewrite (redisGetWallet_rpush _ _ _ Hne), (find_by_address _ _ Hnd Hin).
  rewrite IH; [reflexivity|]. intros w Hw. apply Hall. now right.
Qed.

(** X29: on an empty Redis list a manager with a non-empty pool of distinct,
    non-empty addresses fills the list so that its wallets are handed out in
    the order of the configuration, one per [getWallet], after which the list
    is empty and [getWallet] keeps polling; a list that is not empty is taken
    over as it is. *)
Theorem redis_queue_initial_order :
  forall config,
    getAvailableWallets config <> [] ->
    addressable (getAvailableWallets config) ->
    let pool := getAvailableWallets config in
    exists redis,
      createRedisSenderManager config [] = Ok (pool, redis) /\
      redisGetWallets (length pool) pool redis = (map Resolved pool, []) /\
      redisGetWallet pool [] = (Waiting, []) /\
      (forall leftover,
          leftover <> [] ->
          createRedisSenderManager config leftover = Ok (pool, leftover)).
Proof.
  intros config Hne [Hnd Haddr] pool. fold pool in Hne, Hnd, Haddr.
  exists (rev (map address pool)). split; [|split; [|split]].
  - unfold createRedisSenderManager, createRedisQueue, lpush. fold pool. simpl.
    destruct pool as [|first rest]; [contradiction|]. simpl. now rewrite app_nil_r.
  - apply redisGetWallets_in_order; [exact Hnd|].
    intros wallet Hin. split; [exact Hin|].
    rewrite Forall_forall in Haddr. now apply Haddr.
  - reflexivity.
  - intros leftover Hl. unfold createRedisSenderManager, createRedisQueue. fold pool.
    destruct leftover; [contradiction|]. reflexivity.
Qed.

Lemma redis_queue_initial_order_witness :
  exists redis,
    createRedisSenderManager twoWallets [] = Ok ([walletA; walletB], redis) /\
    redisGetWallets 2 [walletA; walletB] redis
    = ([Resolved walletA; Resolved walletB], []).
Proof.
  assert (Hne : getAvailableWallets twoWallets <> []) by discriminate.
  assert (Haddr : addressable (getAvailableWallets twoWallets)).
  { split.
    - repeat constructor; simpl; intuition discriminate.
    - repeat constructor; discriminate. }
  destruct (redis_queue_initial_order twoWallets Hne Haddr) as (redis & Hc & Hg & _).
  exists redis. split; [exact Hc|exact Hg].
Defined.

(** X30: on the Redis backend the wallet given back last is the wallet
    handed out next, whatever the list held before: [getWallet] resolves to
    it when it belongs to the pool, and throws ["wallet not found"] when its
    address is not one of the pool; either way the list is left as it was
    before the wallet was given back. *)
Theorem redis_last_pushed_first_served :
  forall pool redis wallet,
    NoDup (map address pool) ->
    address wallet <> EmptyString ->
    (In wallet pool ->
     redisGetWallet pool (redisPushWallet redis wallet) = (Resolved wallet, redis)) /\
    (~ In (address wallet) (map address pool) ->
     redisGetWallet pool (redisPushWallet redis wallet)
     = (Rejected (JsError "wallet not found"), redis)).
Proof.
  intros pool redis wallet Hnd Hne. unfold redisPushWallet.
  rewrite (redisGetWallet_rpush _ _ _ Hne). split.
  - intros Hin. now rewrite (find_by_address _ _ Hnd Hin).
  - intros Hn. now rewrite (find_unknown_address _ _ Hn).
Qed.

Lemma redis_last_pushed_first_served_witness :
  redisGetWallet [walletA; walletB]
    (redisPushWallet (redisPushWallet [] walletA) walletB)
  = (Resolved walletB, redisPushWallet [] walletA).
Proof.
  assert (Hnd : NoDup (map address [walletA; walletB]))
    by (repeat constructor; simpl; intuition discriminate).
  assert (Hne : address walletB <> EmptyString) by discriminate.
  apply (proj1 (redis_last_pushed_first_served [walletA; walletB]
                  (redisPushWallet [] walletA) walletB Hnd Hne)).
  simpl. auto.
Defined.

End SenderManagerCoverage.
